(** * reproxy/action.go: the racing engine of the build proxy

    A shallow embedding of [internal/pkg/reproxy/action.go]: the path
    utilities, the local-start holdoff, the race coordinator with its
    remote and local attempts, cached-result validation, restoration of
    unchanged output mtimes and the duplication of actions for compare
    mode, together with the properties the specification states about them;
    then the remote and the local run, the moving and the removal of
    outputs, the files that are both inputs and outputs, and the update of
    the remote cache after a local run, with further properties of theirs.

    Conventions.  A Go [int], [int64] or [time.Duration] is a [Z]; where the
    source can leave the 64-bit range the wrap-around is written out
    ([wrap64]).  A Go [string] is a [string] (a sequence of bytes).  A Go
    map is a [gmap]; a map that the source ranges over is given as the list
    of its entries in the order the iteration visits them.  A nil pointer or
    a nil error is [None].  Collaborators outside this file (the remote
    client, the local pool, the dependency parser, the file system) appear
    as the values their calls return. *)

From Stdlib Require Import ZArith List String Ascii Bool Lia.
From Stdlib Require QArith Qminmax PrimFloat SpecFloat FloatOps.
From stdpp Require Import gmap strings list fin_maps.

Local Open Scope Z_scope.
Local Open Scope string_scope.

(* stdpp seals [String.append] against [simpl]; the proofs below compute
   with it on string literals. *)
#[local] Arguments String.append !_ _ / : simpl nomatch.

(** ** Path utilities *)

Module PathUtil.

(** The host operating system, which decides [os.PathSeparator] and
    [os.IsPathSeparator]. *)
Inductive GOOS := posix | windows.

(** [os.PathSeparator]. *)
Definition PathSeparator (goos : GOOS) : ascii :=
  match goos with
  | posix => "/"%char
  | windows => "\"%char
  end.

(** [os.IsPathSeparator]: [PathSeparator == c] on POSIX hosts
    ([os/path_unix.go]), [c == '\\' || c == '/'] on Windows
    ([os/path_windows.go]). *)
Definition IsPathSeparator (goos : GOOS) (c : ascii) : bool :=
  match goos with
  | posix => Ascii.eqb (PathSeparator posix) c
  | windows => Ascii.eqb c "\"%char || Ascii.eqb c "/"%char
  end.

(** The [for] loop of [depth]: [d] is incremented at every byte of the path
    that is a path separator. *)
Fixpoint depth_loop (goos : GOOS) (path : string) (d : Z) : Z :=
  match path with
  | EmptyString => d
  | String c rest =>
      depth_loop goos rest (if IsPathSeparator goos c then d + 1 else d)
  end.

(** [depth]: the number of segments in a file path. *)
Definition depth (goos : GOOS) (path : string) : Z :=
  if String.eqb path "" then 0 else depth_loop goos path 1.

(** The number of bytes of a path that are path separators on the host. *)
Fixpoint separators (goos : GOOS) (path : string) : Z :=
  match path with
  | EmptyString => 0
  | String c rest =>
      (if IsPathSeparator goos c then 1 else 0) + separators goos rest
  end.

(** The canonical remote working directory with [S n] segments:
    [set_by_reclient] followed by [n] segments [a], joined with the host
    separator. *)
Fixpoint a_segments (goos : GOOS) (n : nat) : string :=
  match n with
  | O => ""
  | S n' => String (PathSeparator goos) ("a" ++ a_segments goos n')
  end.

Definition canonical (goos : GOOS) (n : nat) : string :=
  "set_by_reclient" ++ a_segments goos n.

(** The slice [elem] of [toRemoteWorkingDir] after the loop
    [for i := 1; i < dirDepth; i++ { elem[i] = "a" }], started at [i] with
    [k] iterations to go. *)
Fixpoint fill_a (elem : list string) (i : nat) (k : nat) : list string :=
  match k with
  | O => elem
  | S k' => fill_a (<[i := "a"]> elem) (S i) k'
  end.

Section ToRemoteWorkingDir.

Variable goos : GOOS.

(** [filepath.Clean] and [filepath.Join] of the Go standard library, for
    the host [goos]. *)
Variable Clean : string -> string.
Variable Join : list string -> string.

(** [toRemoteWorkingDir]; [None] is the run-time panic of [elem[0] = ...]
    on a slice of length 0. *)
Definition toRemoteWorkingDir (workingDir : string) : option string :=
  if String.eqb workingDir "" || String.eqb workingDir "." then
    Some workingDir
  else
    let dirDepth := depth goos (Clean workingDir) in
    let elem := replicate (Z.to_nat dirDepth) "" in
    match elem with
    | [] => None
    | _ :: _ =>
        let elem := <[0%nat := "set_by_reclient"]> elem in
        let elem := fill_a elem 1 (Z.to_nat dirDepth - 1) in
        Some (Join elem)
    end.

End ToRemoteWorkingDir.

(** *** [path/filepath] on a POSIX host

    [Clean] and [Join] as [path/filepath] implements them where there are
    no volume names ([volumeNameLen] is 0, [FromSlash] and [postClean] do
    nothing).  The output buffer [out] of [Clean] is kept in reverse, so
    that [out.w] is its length and [out.w--] drops its head. *)

(** The end of a path element: the end of the path or a separator. *)
Definition elem_end (path : string) : bool :=
  match path with
  | EmptyString => true
  | String c _ => IsPathSeparator posix c
  end.

(** The loop [for out.w > dotdot && !IsPathSeparator(out.index(out.w))]
    that follows [out.w--]: [popped] is the byte at index [out.w]. *)
Fixpoint backtrack (popped : ascii) (rout : list ascii) (dotdot : nat)
  : list ascii :=
  match rout with
  | [] => []
  | c :: rout' =>
      if (dotdot <? length rout)%nat && negb (IsPathSeparator posix popped)
      then backtrack c rout' dotdot
      else rout
  end.

(** A [..] element. *)
Definition clean_dotdot (rooted : bool) (rout : list ascii) (dotdot : nat)
  : list ascii * nat :=
  if (dotdot <? length rout)%nat then
    match rout with
    | c :: rout' => (backtrack c rout' dotdot, dotdot)
    | [] => (rout, dotdot)
    end
  else if negb rooted then
    let rout1 :=
      if (0 <? length rout)%nat then PathSeparator posix :: rout else rout in
    let rout2 := "."%char :: "."%char :: rout1 in
    (rout2, length rout2)
  else (rout, dotdot).

(** The main loop of [Clean], one byte of the path at a time: [in_elem]
    tells that the byte is inside a real path element that is being copied
    ([for ; r < n && !IsPathSeparator(path[r]); r++]). *)
Fixpoint clean_loop (rooted : bool) (path : string) (in_elem : bool)
  (rout : list ascii) (dotdot : nat) : list ascii :=
  match path with
  | EmptyString => rout
  | String c rest =>
      if IsPathSeparator posix c then
        clean_loop rooted rest false rout dotdot
      else if in_elem then
        clean_loop rooted rest true (c :: rout) dotdot
      else if Ascii.eqb c "."%char && elem_end rest then
        clean_loop rooted rest false rout dotdot
      else
        let real_element :=
          let rout1 :=
            if rooted && negb (length rout =? 1)%nat
               || negb rooted && negb (length rout =? 0)%nat
            then PathSeparator posix :: rout else rout in
          clean_loop rooted rest true (c :: rout1) dotdot in
        match rest with
        | String c2 rest2 =>
            if Ascii.eqb c "."%char && Ascii.eqb c2 "."%char && elem_end rest2
            then
              let '(rout1, dotdot1) := clean_dotdot rooted rout dotdot in
              clean_loop rooted rest2 false rout1 dotdot1
            else real_element
        | EmptyString => real_element
        end
  end.

(** [filepath.Clean]. *)
Definition Clean_posix (path : string) : string :=
  match path with
  | EmptyString => "."
  | String c rest =>
      let rooted := IsPathSeparator posix c in
      let rout :=
        if rooted then clean_loop true rest false [PathSeparator posix] 1
        else clean_loop false path false [] 0 in
      match rout with
      | [] => "."
      | _ :: _ => string_of_list_ascii (rev rout)
      end
  end.

(** [filepath.Join]: the elements from the first non-empty one on, joined
    with the separator and cleaned. *)
Fixpoint Join_posix (elem : list string) : string :=
  match elem with
  | [] => ""
  | e :: rest =>
      if String.eqb e "" then Join_posix rest
      else Clean_posix (String.concat (String (PathSeparator posix) "") elem)
  end.

(** The count that the specification describes: the bytes that are [/] or
    [\], whatever the host. *)
Fixpoint slashes_and_backslashes (path : string) : Z :=
  match path with
  | EmptyString => 0
  | String c rest =>
      (if Ascii.eqb c "/"%char || Ascii.eqb c "\"%char then 1 else 0)
      + slashes_and_backslashes rest
  end.

(** *** Properties of [depth] *)

Lemma depth_loop_separators goos path d :
  depth_loop goos path d = d + separators goos path.
Proof.
  revert d. induction path as [|c rest IH]; intros d; simpl.
  - lia.
  - rewrite IH. destruct (IsPathSeparator goos c); lia.
Qed.

Lemma depth_nonempty goos path :
  path <> "" -> depth goos path = 1 + separators goos path.
Proof.
  intros Hne. unfold depth.
  destruct (String.eqb_spec path "") as [->|_]; [congruence|].
  apply depth_loop_separators.
Qed.

Lemma separators_nonneg goos path : 0 <= separators goos path.
Proof.
  induction path as [|c rest IH]; simpl; [lia|].
  destruct (IsPathSeparator goos c); lia.
Qed.

Lemma separators_app goos p q :
  separators goos (p ++ q) = separators goos p + separators goos q.
Proof.
  induction p as [|c p IH]; simpl; [reflexivity|]. rewrite IH. lia.
Qed.

Lemma IsPathSeparator_spec goos c :
  IsPathSeparator goos c = true <->
  c = "/"%char \/ (goos = windows /\ c = "\"%char).
Proof.
  destruct goos; unfold IsPathSeparator, PathSeparator.
  - rewrite Ascii.eqb_eq. split; [auto|]. intros [H|[H _]]; [auto|discriminate].
  - rewrite orb_true_iff, !Ascii.eqb_eq. tauto.
Qed.

Lemma separators_windows path :
  separators windows path = slashes_and_backslashes path.
Proof.
  induction path as [|c rest IH]; simpl; [reflexivity|].
  rewrite IH, (orb_comm (Ascii.eqb c "\")). reflexivity.
Qed.

(** C7, as the code has it.  [depth] is 0 on the empty path and otherwise
    1 plus the number of bytes that the host treats as path separators:
    [/] on every host, and [\] on Windows hosts only.  So [depth ""] is 0
    and [depth "/"] is 2 on every host, while the depth of [a/b\c] is 3
    on a Windows host and 2 on a POSIX host. *)
Theorem depth_counts_host_separators :
  forall goos path,
    depth goos "" = 0
    /\ (path <> "" -> depth goos path = 1 + separators goos path)
    /\ (forall c, IsPathSeparator goos c = true <->
                  c = "/"%char \/ (goos = windows /\ c = "\"%char))
    /\ separators windows path = slashes_and_backslashes path
    /\ depth goos "/" = 2
    /\ depth windows "a/b\c" = 3
    /\ depth posix "a/b\c" = 2.
Proof.
  intros goos path. split; [reflexivity|].
  split; [apply depth_nonempty|].
  split; [apply IsPathSeparator_spec|].
  split; [apply separators_windows|].
  split; [destruct goos; reflexivity|].
  split; reflexivity.
Qed.

(** C7, as the specification states it, fails on a POSIX host: there the
    backslash of [a/b\c] is not a separator and the depth is 2, not 3. *)
Lemma depth_backslash_on_posix :
  depth posix "a/b\c" = 2
  /\ depth posix "a/b\c" <> 3
  /\ depth posix "a/b\c" <> 1 + slashes_and_backslashes "a/b\c".
Proof. repeat split; vm_compute; congruence. Qed.

(** *** Properties of [toRemoteWorkingDir] *)

Lemma insert_at_length (pre : list string) x y rest :
  <[length pre := x]> (pre ++ y :: rest)%list = (pre ++ x :: rest)%list.
Proof. induction pre as [|z pre IH]; simpl; [reflexivity|]. f_equal. exact IH. Qed.

Lemma fill_a_replicate (pre : list string) k :
  fill_a (pre ++ replicate k "")%list (length pre) k
  = (pre ++ replicate k "a")%list.
Proof.
  revert pre. induction k as [|k IH]; intros pre; simpl; [reflexivity|].
  rewrite insert_at_length.
  replace (S (length pre)) with (length (pre ++ ["a"])%list)
    by (rewrite length_app; simpl; lia).
  replace (pre ++ "a" :: replicate k "")%list
    with ((pre ++ ["a"]) ++ replicate k "")%list
    by (rewrite <- app_assoc; reflexivity).
  rewrite IH, <- app_assoc. reflexivity.
Qed.

Lemma separators_a_segments goos n :
  separators goos (a_segments goos n) = Z.of_nat n.
Proof.
  induction n as [|n IH]; [reflexivity|].
  rewrite Nat2Z.inj_succ. cbn [a_segments].
  change ("a" ++ a_segments goos n) with (String "a"%char (a_segments goos n)).
  cbn [separators]. rewrite IH. destruct goos; cbn; lia.
Qed.

Lemma depth_canonical goos n :
  depth goos (canonical goos n) = Z.of_nat (S n).
Proof.
  rewrite depth_nonempty by (unfold canonical; simpl; discriminate).
  unfold canonical. rewrite separators_app, separators_a_segments.
  replace (separators goos "set_by_reclient") with 0
    by (destruct goos; reflexivity).
  lia.
Qed.

Lemma separators_filter goos path :
  separators goos path
  = Z.of_nat
      (length (List.filter (IsPathSeparator goos) (list_ascii_of_string path))).
Proof.
  induction path as [|c rest IH]; [reflexivity|].
  cbn [separators list_ascii_of_string List.filter]. rewrite IH.
  destruct (IsPathSeparator goos c); cbn [length]; lia.
Qed.

Lemma append_empty_r (p : string) : p ++ "" = p.
Proof. induction p as [|c p IH]; simpl; [reflexivity|]. f_equal. exact IH. Qed.

Lemma concat_canonical_host goos n x :
  String.concat (String (PathSeparator goos) "") (x :: replicate n "a")
  = x ++ a_segments goos n.
Proof.
  revert x. induction n as [|n IH]; intros x.
  - simpl. symmetry. apply append_empty_r.
  - cbn [replicate].
    change (String.concat (String (PathSeparator goos) "")
              (x :: "a" :: replicate n "a"))
      with (x ++ String (PathSeparator goos) ""
              ++ String.concat (String (PathSeparator goos) "")
                   ("a" :: replicate n "a")).
    rewrite IH. reflexivity.
Qed.

Section ToRemoteWorkingDirSpec.

Variable goos : GOOS.
Variable Clean : string -> string.
Variable Join : list string -> string.

(** [Clean] never returns the empty string (it returns ["."] instead). *)
Hypothesis Clean_nonempty : forall path, Clean path <> "".

(** [Join] of [set_by_reclient] and segments [a], which hold no separator
    and no dot, is these segments with the host separator in between. *)
Hypothesis Join_canonical :
  forall n, Join ("set_by_reclient" :: replicate n "a") = canonical goos n.

(** C8, as the code has it.  [toRemoteWorkingDir] maps the empty string
    and ["."] to themselves.  Every other working directory is mapped,
    without a panic, to [set_by_reclient] followed by [n] segments [a],
    joined with the host separator ([/] on a POSIX host, [\] on a Windows
    host), where [n] is the number of bytes of the cleaned working
    directory that the host treats as path separators ([/] on every host,
    [\] on Windows hosts only).  So the result has as many segments
    ([depth], which is [1 + n] for both) as the cleaned working directory
    has on that host. *)
Theorem toRemoteWorkingDir_spec :
  forall workingDir,
    (workingDir = "" \/ workingDir = "." ->
     toRemoteWorkingDir goos Clean Join workingDir = Some workingDir)
    /\ (workingDir <> "" -> workingDir <> "." ->
        let n :=
          length (List.filter (IsPathSeparator goos)
                    (list_ascii_of_string (Clean workingDir))) in
        let sep :=
          match goos with posix => "/"%char | windows => "\"%char end in
        toRemoteWorkingDir goos Clean Join workingDir
        = Some (String.concat (String sep "")
                  ("set_by_reclient" :: replicate n "a"))
        /\ (forall c, IsPathSeparator goos c = true <->
                      c = "/"%char \/ (goos = windows /\ c = "\"%char))
        /\ depth goos (String.concat (String sep "")
                         ("set_by_reclient" :: replicate n "a"))
           = 1 + Z.of_nat n
        /\ depth goos (Clean workingDir) = 1 + Z.of_nat n).
Proof.
  intros wd. split.
  - intros [-> | ->]; reflexivity.
  - intros H1 H2 n sep.
    pose proof (depth_nonempty goos (Clean wd) (Clean_nonempty wd)) as Hd.
    pose proof (separators_nonneg goos (Clean wd)) as Hs.
    pose proof (separators_filter goos (Clean wd)) as Hn. fold n in Hn.
    assert (Hsep : sep = PathSeparator goos) by (destruct goos; reflexivity).
    rewrite Hsep, concat_canonical_host. fold (canonical goos n).
    split; [|split; [apply IsPathSeparator_spec|split]].
    + unfold toRemoteWorkingDir.
      destruct (String.eqb_spec wd "") as [?|_]; [congruence|].
      destruct (String.eqb_spec wd ".") as [?|_]; [congruence|].
      cbn [orb]. rewrite Hd, Hn.
      replace (Z.to_nat (1 + Z.of_nat n)) with (S n) by lia.
      cbn [replicate]. cbn [insert list_insert].
      replace (S n - 1)%nat with n by lia.
      f_equal.
      pose proof (fill_a_replicate ["set_by_reclient"] n) as Hf.
      cbn [app length] in Hf. rewrite Hf.
      apply Join_canonical.
    + rewrite depth_canonical. lia.
    + rewrite Hd, Hn. reflexivity.
Qed.

End ToRemoteWorkingDirSpec.

(** *** The POSIX instance *)

Lemma string_of_list_ascii_app (l1 l2 : list ascii) :
  string_of_list_ascii (l1 ++ l2)%list
  = string_of_list_ascii l1 ++ string_of_list_ascii l2.
Proof. induction l1 as [|c l1 IH]; simpl; [reflexivity|]. f_equal. exact IH. Qed.

Lemma Clean_posix_nonempty : forall path, Clean_posix path <> "".
Proof.
  intros [|c rest]; unfold Clean_posix; [discriminate|].
  match goal with |- context [match ?r with [] => _ | _ :: _ => _ end] =>
    destruct r as [|c0 rout] end; [discriminate|].
  simpl rev. rewrite string_of_list_ascii_app. simpl.
  destruct (string_of_list_ascii (rev rout)); discriminate.
Qed.

Lemma clean_loop_a_segments n c0 rout :
  clean_loop false (a_segments posix n) true (c0 :: rout) 0
  = (rev (list_ascii_of_string (a_segments posix n)) ++ c0 :: rout)%list.
Proof.
  revert c0 rout. induction n as [|n IH]; intros c0 rout; [reflexivity|].
  cbn [a_segments].
  change ("a" ++ a_segments posix n) with (String "a"%char (a_segments posix n)).
  cbn [list_ascii_of_string rev].
  rewrite <- !app_assoc. cbn [app].
  rewrite <- IH. cbn.
  destruct (a_segments posix n); reflexivity.
Qed.

Lemma concat_canonical n x :
  String.concat "/" (x :: replicate n "a") = x ++ a_segments posix n.
Proof.
  revert x. induction n as [|n IH]; intros x.
  - simpl. symmetry. apply append_empty_r.
  - cbn [replicate]. change (String.concat "/" (x :: "a" :: replicate n "a"))
      with (x ++ "/" ++ String.concat "/" ("a" :: replicate n "a")).
    rewrite IH. reflexivity.
Qed.

Lemma Clean_posix_canonical n : Clean_posix (canonical posix n) = canonical posix n.
Proof.
  unfold canonical.
  change (Clean_posix ("set_by_reclient" ++ a_segments posix n))
    with (match clean_loop false (a_segments posix n) true
                  (rev (list_ascii_of_string "set_by_reclient")) 0 with
          | [] => "."
          | _ :: _ =>
              string_of_list_ascii
                (rev (clean_loop false (a_segments posix n) true
                        (rev (list_ascii_of_string "set_by_reclient")) 0))
          end).
  cbn [list_ascii_of_string rev app]. rewrite clean_loop_a_segments.
  assert (Hm : forall (l r : list ascii) c (d e : string),
             match (l ++ c :: r)%list with [] => d | _ :: _ => e end = e)
    by (intros [|? ?]; reflexivity).
  rewrite Hm, rev_app_distr, string_of_list_ascii_app, rev_involutive.
  rewrite string_of_list_ascii_of_string. reflexivity.
Qed.

Lemma Join_posix_canonical :
  forall n, Join_posix ("set_by_reclient" :: replicate n "a") = canonical posix n.
Proof.
  intros n. cbn [Join_posix].
  change (String.eqb "set_by_reclient" "") with false. cbn iota.
  change (String (PathSeparator posix) "") with "/".
  rewrite concat_canonical. apply Clean_posix_canonical.
Qed.

(** [Clean] on the table of the standard library's own test
    ([path/filepath/path_test.go], [cleantests]). *)
Example Clean_posix_table :
  map Clean_posix
    ["abc"; "abc/def"; "."; ".."; "../../abc"; "/abc"; "/"; ""; "abc/";
     "a/b/c/"; "./"; "../../"; "abc//def//ghi"; "///abc"; "abc/./def";
     "abc/def/ghi/../jkl"; "abc/def/../.."; "/abc/def/../../..";
     "abc/def/../../../ghi/jkl/../../../mno"; "/../abc"; "abc/../../././../def"]
  = ["abc"; "abc/def"; "."; ".."; "../../abc"; "/abc"; "/"; "."; "abc";
     "a/b/c"; "."; "../.."; "abc/def/ghi"; "/abc"; "abc/def";
     "abc/def/jkl"; "."; "/";
     "../../mno"; "/abc"; "../../def"].
Proof. vm_compute. reflexivity. Qed.

(** The working directory [out/Default/] on a POSIX host. *)
Lemma toRemoteWorkingDir_spec_posix :
  toRemoteWorkingDir posix Clean_posix Join_posix "out/Default/"
  = Some "set_by_reclient/a"
  /\ depth posix "set_by_reclient/a" = 2
  /\ depth posix (Clean_posix "out/Default/") = 2.
Proof.
  destruct (toRemoteWorkingDir_spec posix Clean_posix Join_posix
              Clean_posix_nonempty Join_posix_canonical "out/Default/")
    as [_ H].
  destruct (H ltac:(discriminate) ltac:(discriminate))
    as (Hr & _ & Hd & Hc).
  exact (conj Hr (conj Hd Hc)).
Defined.

(** C8, as the specification states it, fails on a POSIX host, where the
    depth that counts both [/] and [\] is not preserved: the working
    directory [a/b\c], which [Clean] leaves as it is, has three segments by
    that count, and its remote working directory [set_by_reclient/a] has
    two. *)
Lemma toRemoteWorkingDir_backslash_on_posix :
  Clean_posix "a/b\c" = "a/b\c"
  /\ toRemoteWorkingDir posix Clean_posix Join_posix "a/b\c"
     = Some "set_by_reclient/a"
  /\ 1 + slashes_and_backslashes (Clean_posix "a/b\c") = 3
  /\ 1 + slashes_and_backslashes "set_by_reclient/a" = 2
  /\ 1 + slashes_and_backslashes "set_by_reclient/a"
     <> 1 + slashes_and_backslashes (Clean_posix "a/b\c").
Proof. repeat split; vm_compute; congruence. Qed.

(** *** Depth of joined paths *)

Lemma separators_le_length goos path :
  separators goos path <= Z.of_nat (String.length path).
Proof.
  induction path as [|c rest IH]; [reflexivity|].
  cbn [separators String.length]. rewrite Nat2Z.inj_succ.
  destruct (IsPathSeparator goos c); lia.
Qed.

Lemma append_nonempty (p q : string) : p <> "" -> p ++ q <> "".
Proof. destruct p; [congruence|discriminate]. Qed.

(** X1.  The depth of a non-empty path is at least 1 and at most one more
    than its length in bytes, and the depths of two non-empty paths add up
    when the paths are put together with one separator of the host in
    between. *)
Theorem depth_of_joined_paths :
  forall goos p q c,
    p <> "" -> q <> "" -> IsPathSeparator goos c = true ->
    depth goos (p ++ String c q) = depth goos p + depth goos q
    /\ 1 <= depth goos p <= 1 + Z.of_nat (String.length p).
Proof.
  intros goos p q c Hp Hq Hc.
  rewrite (depth_nonempty goos (p ++ String c q))
    by (apply append_nonempty; exact Hp).
  rewrite (depth_nonempty goos p Hp), (depth_nonempty goos q Hq).
  rewrite separators_app. cbn [separators]. rewrite Hc.
  pose proof (separators_nonneg goos p).
  pose proof (separators_le_length goos p). lia.
Qed.

(** [out] and [Default] joined on a POSIX host. *)
Lemma depth_of_joined_paths_posix :
  depth posix "out/Default" = depth posix "out" + depth posix "Default"
  /\ 1 <= depth posix "out" <= 1 + 3.
Proof.
  exact (depth_of_joined_paths posix "out" "Default" "/"%char
           ltac:(discriminate) ltac:(discriminate) eq_refl).
Defined.

(** *** The remote working directory as a canonical form *)

Lemma canonical_not_trivial goos n :
  canonical goos n <> "" /\ canonical goos n <> ".".
Proof. unfold canonical. split; simpl; discriminate. Qed.

Section ToRemoteWorkingDirCanonical.

Variable goos : GOOS.
Variable Clean : string -> string.
Variable Join : list string -> string.

Hypothesis Clean_nonempty : forall path, Clean path <> "".

Hypothesis Join_canonical :
  forall n, Join ("set_by_reclient" :: replicate n "a") = canonical goos n.

(** [Clean] leaves [set_by_reclient] followed by segments [a] as it is: the
    path holds no doubled separator and no dot element. *)
Hypothesis Clean_canonical :
  forall n, Clean (canonical goos n) = canonical goos n.

Lemma toRemoteWorkingDir_by_depth workingDir :
  workingDir <> "" -> workingDir <> "." ->
  toRemoteWorkingDir goos Clean Join workingDir
  = Some (canonical goos (Z.to_nat (depth goos (Clean workingDir) - 1))).
Proof.
  intros H1 H2. unfold toRemoteWorkingDir.
  destruct (String.eqb_spec workingDir "") as [?|_]; [congruence|].
  destruct (String.eqb_spec workingDir ".") as [?|_]; [congruence|].
  cbn [orb].
  pose proof (depth_nonempty goos (Clean workingDir)
                (Clean_nonempty workingDir)) as Hd.
  pose proof (separators_nonneg goos (Clean workingDir)) as Hs.
  rewrite Hd.
  replace (Z.to_nat (1 + separators goos (Clean workingDir)))
    with (S (Z.to_nat (separators goos (Clean workingDir)))) by lia.
  replace (1 + separators goos (Clean workingDir) - 1)
    with (separators goos (Clean workingDir)) by lia.
  cbn [replicate]. cbn [insert list_insert].
  replace (S (Z.to_nat (separators goos (Clean workingDir))) - 1)%nat
    with (Z.to_nat (separators goos (Clean workingDir))) by lia.
  f_equal.
  pose proof (fill_a_replicate ["set_by_reclient"]
                (Z.to_nat (separators goos (Clean workingDir)))) as Hf.
  cbn [app length] in Hf. rewrite Hf.
  apply Join_canonical.
Qed.

(** X2.  The remote working directory depends on the working directory
    through the depth of its cleaned path only: two working directories
    other than the empty one and ["."] whose cleaned paths have the same
    depth get the same remote working directory.  And a remote working
    directory is its own remote working directory. *)
Theorem toRemoteWorkingDir_canonical_form :
  forall wd1 wd2 r,
    (wd1 <> "" -> wd1 <> "." -> wd2 <> "" -> wd2 <> "." ->
     depth goos (Clean wd1) = depth goos (Clean wd2) ->
     toRemoteWorkingDir goos Clean Join wd1
     = toRemoteWorkingDir goos Clean Join wd2)
    /\ (toRemoteWorkingDir goos Clean Join wd1 = Some r ->
        toRemoteWorkingDir goos Clean Join r = Some r).
Proof.
  intros wd1 wd2 r. split.
  - intros H1 H1' H2 H2' Hd.
    rewrite !toRemoteWorkingDir_by_depth by assumption.
    rewrite Hd. reflexivity.
  - intros Hr.
    destruct (String.eqb_spec wd1 "") as [->|H1];
      [injection Hr as <-; reflexivity|].
    destruct (String.eqb_spec wd1 ".") as [->|H2];
      [injection Hr as <-; reflexivity|].
    rewrite toRemoteWorkingDir_by_depth in Hr by assumption.
    injection Hr as <-.
    destruct (canonical_not_trivial goos
                (Z.to_nat (depth goos (Clean wd1) - 1))) as [Hn1 Hn2].
    rewrite toRemoteWorkingDir_by_depth by assumption.
    rewrite Clean_canonical, depth_canonical. do 2 f_equal. lia.
Qed.

End ToRemoteWorkingDirCanonical.

(** Two checkouts on a POSIX host, and the remote working directory of a
    remote working directory. *)
Lemma toRemoteWorkingDir_canonical_form_posix :
  (("/home/u/src/out" <> "" -> "/home/u/src/out" <> "." ->
    "/w/x/../b/c/d/" <> "" -> "/w/x/../b/c/d/" <> "." ->
    depth posix (Clean_posix "/home/u/src/out")
    = depth posix (Clean_posix "/w/x/../b/c/d/") ->
    toRemoteWorkingDir posix Clean_posix Join_posix "/home/u/src/out"
    = toRemoteWorkingDir posix Clean_posix Join_posix "/w/x/../b/c/d/")
   /\ (toRemoteWorkingDir posix Clean_posix Join_posix "/home/u/src/out"
       = Some "set_by_reclient/a/a/a/a" ->
       toRemoteWorkingDir posix Clean_posix Join_posix
         "set_by_reclient/a/a/a/a"
       = Some "set_by_reclient/a/a/a/a"))
  /\ depth posix (Clean_posix "/home/u/src/out")
     = depth posix (Clean_posix "/w/x/../b/c/d/")
  /\ toRemoteWorkingDir posix Clean_posix Join_posix "/home/u/src/out"
     = Some "set_by_reclient/a/a/a/a".
Proof.
  split; [|split; vm_compute; reflexivity].
  exact (toRemoteWorkingDir_canonical_form posix Clean_posix Join_posix
           Clean_posix_nonempty Join_posix_canonical Clean_posix_canonical
           "/home/u/src/out" "/w/x/../b/c/d/" "set_by_reclient/a/a/a/a").
Defined.

End PathUtil.

(** ** Results and errors

    The part of [remote-apis-sdks/go/pkg/command] and of Go's [errors] and
    [context] packages that the actions use. *)

Module Command.

(** A non-nil [error]: the two errors of a canceled [context.Context], an
    error with a message, and an error that wraps another one. *)
Inductive error :=
| context_Canceled
| context_DeadlineExceeded
| errorString (msg : string)
| wrapError (msg : string) (inner : error).

(** [err.Error()]: the message of an error. *)
Definition Error (err : error) : string :=
  match err with
  | context_Canceled => "context canceled"
  | context_DeadlineExceeded => "context deadline exceeded"
  | errorString msg => msg
  | wrapError msg _ => msg
  end.

(** [errors.Is(err, context.Canceled)]. *)
Fixpoint Is_context_Canceled (err : error) : bool :=
  match err with
  | context_Canceled => true
  | wrapError _ inner => Is_context_Canceled inner
  | _ => false
  end.

Definition errors_Is_Canceled (err : option error) : bool :=
  match err with
  | Some e => Is_context_Canceled e
  | None => false
  end.

(** [err != nil]. *)
Definition not_nil {A : Type} (x : option A) : bool :=
  match x with
  | Some _ => true
  | None => false
  end.

Inductive ResultStatus :=
| UnspecifiedResultStatus
| SuccessResultStatus
| CacheHitResultStatus
| NonZeroExitResultStatus
| TimeoutResultStatus
| InterruptedResultStatus
| RemoteErrorResultStatus
| LocalErrorResultStatus.

Record Result := {
  ExitCode : Z;
  Status : ResultStatus;
  Err : option error
}.

(** [Result.IsOk]. *)
Definition IsOk (r : Result) : bool :=
  match Status r with
  | SuccessResultStatus | CacheHitResultStatus => true
  | _ => false
  end.

Definition LocalErrorExitCode : Z := 35.

(** [command.NewLocalErrorResult]. *)
Definition NewLocalErrorResult (err : option error) : Result :=
  {| ExitCode := LocalErrorExitCode;
     Status := LocalErrorResultStatus;
     Err := err |}.

(** [command.NewResultFromExitCode]. *)
Definition NewResultFromExitCode (exitCode : Z) : Result :=
  {| ExitCode := exitCode;
     Status := if (exitCode =? 0)%Z then SuccessResultStatus
               else NonZeroExitResultStatus;
     Err := None |}.

End Command.

(** ** The local-start holdoff *)

Module Holdoff.

Local Open Scope Z_scope.

(** *** 64-bit integers and durations *)

Definition min_int64 : Z := - 2 ^ 63.
Definition max_int64 : Z := 2 ^ 63 - 1.

(** The value of an [int64] operation whose exact result is [z]. *)
Definition wrap64 (z : Z) : Z := (z + 2 ^ 63) mod 2 ^ 64 - 2 ^ 63.

(** [time.Millisecond], in nanoseconds. *)
Definition Millisecond : Z := 1000000.

(** [Duration.Milliseconds]: [int64(d) / 1e6], a truncating division. *)
Definition Milliseconds (d : Z) : Z := Z.quot d 1000000.

(** *** [float64]

    A finite [float64] is [mant * 2 ^ expo] with [|mant| < 2 ^ 53].  An
    operation computes the exact result and rounds it to 53 bits, to the
    nearest and on a tie to the even mantissa.  The exponent range is not
    modelled: no value below concerns the infinities, NaN or a subnormal
    result. *)
Record float64 := { mant : Z; expo : Z }.

Definition round53 (m e : Z) : float64 :=
  let k := Z.log2 (Z.abs m) + 1 - 53 in
  if k <=? 0 then {| mant := m; expo := e |}
  else
    let q := Z.abs m / 2 ^ k in
    let r := Z.abs m mod 2 ^ k in
    let half := 2 ^ (k - 1) in
    let q' := if (half <? r) || ((r =? half) && Z.odd q) then q + 1 else q in
    {| mant := Z.sgn m * q'; expo := e + k |}.

(** [x * y] on [float64]. *)
Definition f64_mul (x y : float64) : float64 :=
  round53 (mant x * mant y) (expo x + expo y).

(** The conversion [float64(n)] of an integer. *)
Definition f64_of_int64 (n : Z) : float64 := round53 n 0.

(** The conversion [int64(x)] (here [time.Duration(x)]) of a [float64]: the
    fraction is discarded.  Outside the [int64] range the result depends on
    the implementation; amd64 gives the least [int64]. *)
Definition f64_to_int64 (x : float64) : Z :=
  let v :=
    if 0 <=? expo x then mant x * 2 ^ expo x
    else Z.quot (mant x) (2 ^ (- expo x)) in
  if (min_int64 <=? v) && (v <=? max_int64) then v else min_int64.

(** Whether a pair is a [float64] between 0 and 1, as the racing bias is. *)
Definition unit_interval (b : float64) : Prop :=
  0 <= mant b < 2 ^ 53 /\ -1074 <= expo b <= 0 /\ mant b <= 2 ^ (- expo b).

(** *** The holdoff of [runRemoteRace]

    The body of the timer goroutine up to [time.Sleep(sl)]: [forecast] is
    what [a.forecast.PercentileDownloadLatency(a, downloadPercentileCutoff)]
    returns, and the result is [sl]. *)
Definition downloadPercentileCutoff : Z := 90.

Definition holdoff (racingBias : float64)
  (forecast : Z * option Command.error) (maxHoldoff : Z) : Z :=
  let dl :=
    match forecast with
    | (dl, None) => dl
    | (_, Some _) => maxHoldoff
    end in
  let sl :=
    wrap64
      (f64_to_int64
         (f64_mul (f64_of_int64 (Milliseconds dl))
                  (f64_mul racingBias (f64_of_int64 2)))
       * Millisecond) in
  if maxHoldoff <? sl then maxHoldoff else sl.

(** Some racing biases. *)
Definition bias_0 : float64 := {| mant := 0; expo := 0 |}.
Definition bias_quarter : float64 := {| mant := 1; expo := -2 |}.
Definition bias_half : float64 := {| mant := 1; expo := -1 |}.
Definition bias_1 : float64 := {| mant := 1; expo := 0 |}.

(** The holdoff as the specification words it: the forecast in whole
    milliseconds multiplied by [2 * racing_bias] and clamped to
    [max_holdoff]; a rational number of nanoseconds. *)
Definition holdoff_spec (racing_bias : QArith_base.Q) (p90 max_holdoff : Z)
  : QArith_base.Q :=
  Qminmax.Qmin
    (QArith_base.Qmult
       (QArith_base.inject_Z (Milliseconds p90 * Millisecond))
       (QArith_base.Qmult (QArith_base.inject_Z 2) racing_bias))
    (QArith_base.inject_Z max_holdoff).

(** The same product on the primitive [float64] of the kernel, to compare
    [round53] with on examples. *)
Definition to_prim (x : float64) : PrimFloat.float :=
  FloatOps.SF2Prim
    match mant x with
    | Z0 => SpecFloat.S754_zero false
    | Zpos p => SpecFloat.S754_finite false p (expo x)
    | Zneg p => SpecFloat.S754_finite true p (expo x)
    end.

Definition prim_to_int64 (x : PrimFloat.float) : Z :=
  match FloatOps.Prim2SF x with
  | SpecFloat.S754_finite s m e =>
      let v := if 0 <=? e then Zpos m * 2 ^ e else Zpos m / 2 ^ (- e) in
      if s then - v else v
  | _ => 0
  end.

Definition prim_product (ms : Z) (racingBias : float64) : Z :=
  prim_to_int64
    (PrimFloat.mul (to_prim (f64_of_int64 ms))
       (PrimFloat.mul (to_prim racingBias) (to_prim (f64_of_int64 2)))).

(** [1.0 / 6]: a bias whose doubled product with 3 rounds up to 1. *)
Definition bias_sixth : float64 := {| mant := 6004799503160661; expo := -55 |}.

(** *** Integer and rounding lemmas *)

Lemma wrap64_id z : min_int64 <= z <= max_int64 -> wrap64 z = z.
Proof.
  unfold min_int64, max_int64, wrap64. intros H.
  rewrite Z.mod_small; lia.
Qed.

Lemma Milliseconds_bound d :
  min_int64 <= d <= max_int64 ->
  min_int64 <= Milliseconds d * Millisecond <= max_int64
  /\ - 2 ^ 44 < Milliseconds d < 2 ^ 44.
Proof.
  unfold min_int64, max_int64, Milliseconds, Millisecond. intros H.
  destruct (Z.le_gt_cases 0 d) as [Hd|Hd].
  - pose proof (Z.mul_quot_le d 1000000 Hd ltac:(lia)) as H1.
    pose proof (Z.quot_pos d 1000000 Hd ltac:(lia)) as H2. lia.
  - pose proof (Z.mul_quot_ge d 1000000 ltac:(lia) ltac:(lia)) as H1.
    assert (Z.quot d 1000000 <= 0) by (apply Z.quot_le_upper_bound; lia).
    lia.
Qed.

Lemma log2_abs_lt a n : 0 < n -> Z.abs a < 2 ^ n -> Z.log2 (Z.abs a) < n.
Proof.
  intros Hn H. destruct (Z.eq_dec (Z.abs a) 0) as [->|Hne].
  - simpl. lia.
  - apply Z.log2_lt_pow2; lia.
Qed.

Lemma round53_small m e :
  Z.abs m < 2 ^ 53 -> round53 m e = {| mant := m; expo := e |}.
Proof.
  intros H. unfold round53. cbv zeta.
  pose proof (log2_abs_lt m 53 ltac:(lia) H).
  destruct (Z.leb_spec (Z.log2 (Z.abs m) + 1 - 53) 0); [reflexivity|lia].
Qed.

Lemma f64_to_int64_integer m :
  min_int64 <= m <= max_int64 ->
  f64_to_int64 {| mant := m; expo := 0 |} = m.
Proof.
  intros H. unfold f64_to_int64. cbn [mant expo].
  change (0 <=? 0) with true. cbv iota. rewrite Z.pow_0_r, Z.mul_1_r.
  destruct (Z.leb_spec min_int64 m); [|lia].
  destruct (Z.leb_spec m max_int64); [reflexivity|lia].
Qed.

Lemma f64_to_int64_fraction m e :
  e < 0 -> min_int64 <= Z.quot m (2 ^ (- e)) <= max_int64 ->
  f64_to_int64 {| mant := m; expo := e |} = Z.quot m (2 ^ (- e)).
Proof.
  intros He H. unfold f64_to_int64. cbn [mant expo].
  destruct (Z.leb_spec 0 e); [lia|].
  destruct (Z.leb_spec min_int64 (Z.quot m (2 ^ (- e)))); [|lia].
  destruct (Z.leb_spec (Z.quot m (2 ^ (- e))) max_int64); [reflexivity|lia].
Qed.

Lemma succ_div_pow2 q s :
  0 <= q -> 0 <= s ->
  (q + 1) / 2 ^ s = q / 2 ^ s \/ (q + 1) / 2 ^ s = q / 2 ^ s + 1.
Proof.
  intros Hq Hs.
  assert (HD : 0 < 2 ^ s) by (apply Z.pow_pos_nonneg; lia).
  pose proof (Z.div_mod q (2 ^ s) ltac:(lia)) as E.
  pose proof (Z.mod_pos_bound q (2 ^ s) HD) as B.
  destruct (Z.eq_dec (q mod 2 ^ s + 1) (2 ^ s)) as [Heq|Hne].
  - right. symmetry. apply Z.div_unique with (r := 0); lia.
  - left. symmetry. apply Z.div_unique with (r := q mod 2 ^ s + 1); lia.
Qed.

Lemma round53_trunc M E :
  0 <= M -> E <= 0 -> M < 2 ^ 53 * 2 ^ (- E) ->
  f64_to_int64 (round53 M E) = M / 2 ^ (- E)
  \/ (f64_to_int64 (round53 M E) = M / 2 ^ (- E) + 1
      /\ M mod 2 ^ (- E) <> 0).
Proof.
  intros HM HE Hlt.
  assert (HD : 0 < 2 ^ (- E)) by (apply Z.pow_pos_nonneg; lia).
  assert (Hq : 0 <= M / 2 ^ (- E) < 2 ^ 53).
  { split; [apply Z.div_pos; lia|].
    apply Z.div_lt_upper_bound; lia. }
  unfold round53. cbv zeta. rewrite (Z.abs_eq M) by lia.
  destruct (Z.leb_spec (Z.log2 M + 1 - 53) 0) as [Hk|Hk].
  - left. destruct (Z.eq_dec E 0) as [->|HE0].
    + rewrite f64_to_int64_integer.
      * change (2 ^ (- 0)) with 1. now rewrite Z.div_1_r.
      * change (2 ^ (- 0)) with 1 in Hq. rewrite Z.div_1_r in Hq.
        unfold min_int64, max_int64. lia.
    + rewrite f64_to_int64_fraction; rewrite ?Z.quot_div_nonneg by lia;
        unfold min_int64, max_int64; lia.
  - set (k := Z.log2 M + 1 - 53) in *.
    assert (HM0 : 0 < M).
    { destruct (Z.eq_dec M 0) as [->|]; [|lia]. simpl in k. lia. }
    pose proof (Z.log2_spec M HM0) as [Hlo Hhi].
    assert (Hk' : k <= - E).
    { assert (Z.log2 M < 53 + - E); [|lia].
      apply Z.log2_lt_pow2; [lia|]. rewrite Z.pow_add_r by lia. lia. }
    assert (H2k : 0 < 2 ^ k) by (apply Z.pow_pos_nonneg; lia).
    assert (Hsplit : 2 ^ (- E) = 2 ^ k * 2 ^ (- (E + k))).
    { rewrite <- Z.pow_add_r by lia. f_equal. lia. }
    assert (H2s : 0 < 2 ^ (- (E + k))) by (apply Z.pow_pos_nonneg; lia).
    assert (Hdd : M / 2 ^ (- E) = M / 2 ^ k / 2 ^ (- (E + k))).
    { rewrite Hsplit, Z.div_div by lia. reflexivity. }
    assert (Hqk : 0 <= M / 2 ^ k < 2 ^ 53).
    { split; [apply Z.div_pos; lia|]. apply Z.div_lt_upper_bound; [lia|].
      rewrite <- Z.pow_add_r by lia. replace (k + 53) with (Z.succ (Z.log2 M)) by lia.
      exact Hhi. }
    assert (Hhalf : 0 < 2 ^ (k - 1)) by (apply Z.pow_pos_nonneg; lia).
    assert (Hsgn : Z.sgn M = 1) by (apply Z.sgn_pos; lia).
    rewrite Hsgn, Z.mul_1_l.
    assert (Hmod : M mod 2 ^ k <> 0 -> M mod 2 ^ (- E) <> 0).
    { intros Hr Hz. apply Hr.
      apply Z.mod_divide in Hz; [|lia]. apply Z.mod_divide; [lia|].
      destruct Hz as [c Hc]. exists (c * 2 ^ (- (E + k))). rewrite Hc, Hsplit. ring. }
    assert (Hconv : forall q', 0 <= q' <= 2 ^ 53 ->
              f64_to_int64 {| mant := q'; expo := E + k |} = q' / 2 ^ (- (E + k))).
    { intros q' Hq'. destruct (Z.eq_dec (E + k) 0) as [Hz|Hz].
      - rewrite Hz. rewrite f64_to_int64_integer by (unfold min_int64, max_int64; lia).
        change (2 ^ (- 0)) with 1. now rewrite Z.div_1_r.
      - assert (0 <= q' / 2 ^ (- (E + k)) <= q').
        { split; [apply Z.div_pos; lia|]. apply Z.div_le_upper_bound; [lia|]. nia. }
        rewrite f64_to_int64_fraction; rewrite ?Z.quot_div_nonneg by lia;
          unfold min_int64, max_int64; lia. }
    destruct ((2 ^ (k - 1) <? M mod 2 ^ k)
              || (M mod 2 ^ k =? 2 ^ (k - 1)) && Z.odd (M / 2 ^ k)) eqn:Hup.
    + assert (Hr : M mod 2 ^ k <> 0).
      { apply orb_true_iff in Hup. destruct Hup as [Hup|Hup].
        - apply Z.ltb_lt in Hup. lia.
        - apply andb_true_iff in Hup. destruct Hup as [Hup _].
          apply Z.eqb_eq in Hup. lia. }
      rewrite Hconv by lia. rewrite Hdd.
      destruct (succ_div_pow2 (M / 2 ^ k) (- (E + k)) ltac:(lia) ltac:(lia)) as [H1|H1];
        rewrite H1; [left; reflexivity|right; split; [reflexivity|auto]].
    + left. rewrite Hconv by lia. now rewrite Hdd.
Qed.

(** [racingBias * 2] is exact. *)
Lemma f64_mul_two b :
  0 <= mant b < 2 ^ 53 ->
  f64_mul b (f64_of_int64 2)
  = (if mant b <? 2 ^ 52 then {| mant := mant b * 2; expo := expo b |}
     else {| mant := mant b; expo := expo b + 1 |}).
Proof.
  intros Hb. change (f64_of_int64 2) with {| mant := 2; expo := 0 |}.
  unfold f64_mul. cbn [mant expo]. rewrite Z.add_0_r.
  destruct (Z.ltb_spec (mant b) (2 ^ 52)) as [Hlt|Hge].
  - apply round53_small. lia.
  - unfold round53. cbv zeta. rewrite (Z.abs_eq (mant b * 2)) by lia.
    assert (Hlog : Z.log2 (mant b * 2) = 53).
    { apply Z.log2_unique; lia. }
    rewrite Hlog. change (53 + 1 - 53) with 1. change (1 <=? 0) with false.
    cbv iota. change (2 ^ 1) with 2. change (2 ^ (1 - 1)) with 1.
    rewrite Z.div_mul, Z.mod_mul by lia.
    change (1 <? 0) with false. change (0 =? 1) with false. cbn [orb andb].
    rewrite Z.sgn_pos by lia. f_equal. lia.
Qed.

(** The product [float64(ms) * (racingBias * 2)], truncated: the exact
    product [2 * ms * mant / 2 ^ (- expo)] rounded down to a whole number,
    or up when the [float64] product rounds up to one. *)
Lemma product_trunc b ms :
  unit_interval b -> 0 <= ms < 2 ^ 44 ->
  let T := f64_to_int64 (f64_mul (f64_of_int64 ms) (f64_mul b (f64_of_int64 2))) in
  let x2 := 2 * ms * mant b in
  let D := 2 ^ (- expo b) in
  T = x2 / D \/ (T = x2 / D + 1 /\ x2 mod D <> 0).
Proof.
  intros (Hm & He & Hle) Hms. cbv zeta.
  assert (HD : 0 < 2 ^ (- expo b)) by (apply Z.pow_pos_nonneg; lia).
  rewrite f64_mul_two by lia.
  assert (Hms' : f64_of_int64 ms = {| mant := ms; expo := 0 |})
    by (apply round53_small; lia).
  rewrite Hms'.
  destruct (Z.ltb_spec (mant b) (2 ^ 52)) as [Hlt|Hge];
    unfold f64_mul; cbn [mant expo]; rewrite Z.add_0_l.
  - replace (ms * (mant b * 2)) with (2 * ms * mant b) by ring.
    apply round53_trunc; [nia|lia|]. nia.
  - assert (He1 : expo b <= -52).
    { destruct (Z.le_gt_cases (expo b) (-52)) as [?|Hgt]; [assumption|].
      assert (2 ^ (- expo b) <= 2 ^ 51) by (apply Z.pow_le_mono_r; lia). lia. }
    assert (HD1 : 0 < 2 ^ (- (expo b + 1))) by (apply Z.pow_pos_nonneg; lia).
    assert (Hsplit : 2 ^ (- expo b) = 2 * 2 ^ (- (expo b + 1))).
    { change 2 with (2 ^ 1) at 2. rewrite <- Z.pow_add_r by lia. f_equal. lia. }
    replace (2 * ms * mant b) with (2 * (ms * mant b)) by ring.
    rewrite Hsplit, Z.div_mul_cancel_l, Z.mul_mod_distr_l by lia.
    destruct (round53_trunc (ms * mant b) (expo b + 1)) as [H|[H1 H2]];
      [nia|lia|nia|left; exact H|right; split; [exact H1|lia]].
Qed.

Lemma odd_pred_even_multiple s c : 0 < s -> Z.odd (2 * s * c + (2 * s - 1)) = true.
Proof.
  intros Hs. replace (2 * s * c + (2 * s - 1)) with (1 + 2 * (s * c + s - 1)) by ring.
  rewrite Z.odd_add_mul_2. reflexivity.
Qed.

(** The conversion to an integer of a product below [2 ^ 52] that was
    rounded to 53 bits: the exact value [M / 2 ^ (- E)] rounded down to a
    whole number, and one more exactly when the exact value lies at most
    half a unit in the last place below the next whole number. *)
Lemma round53_trunc_exact M E :
  0 <= M -> E <= 0 -> M < 2 ^ 52 * 2 ^ (- E) ->
  f64_to_int64 (round53 M E)
  = M / 2 ^ (- E)
    + (if 2 ^ (- E) - 2 ^ (Z.log2 M - 53) <=? M mod 2 ^ (- E) then 1 else 0).
Proof.
  intros HM HE Hlt.
  assert (HD : 0 < 2 ^ (- E)) by (apply Z.pow_pos_nonneg; lia).
  assert (Hq : 0 <= M / 2 ^ (- E) < 2 ^ 52).
  { split; [apply Z.div_pos; lia|].
    apply Z.div_lt_upper_bound; lia. }
  pose proof (Z.mod_pos_bound M (2 ^ (- E)) HD) as HmodD.
  unfold round53. cbv zeta. rewrite (Z.abs_eq M) by lia.
  destruct (Z.leb_spec (Z.log2 M + 1 - 53) 0) as [Hk|Hk].
  - rewrite (Z.pow_neg_r 2 (Z.log2 M - 53)) by lia.
    destruct (Z.leb_spec (2 ^ (- E) - 0) (M mod 2 ^ (- E))); [lia|].
    rewrite Z.add_0_r.
    destruct (Z.eq_dec E 0) as [->|HE0].
    + rewrite f64_to_int64_integer.
      * change (2 ^ (- 0)) with 1. now rewrite Z.div_1_r.
      * change (2 ^ (- 0)) with 1 in Hq. rewrite Z.div_1_r in Hq.
        unfold min_int64, max_int64. lia.
    + rewrite f64_to_int64_fraction; rewrite ?Z.quot_div_nonneg by lia;
        unfold min_int64, max_int64; lia.
  - set (k := Z.log2 M + 1 - 53) in *.
    assert (HM0 : 0 < M).
    { destruct (Z.eq_dec M 0) as [->|]; [|lia]. simpl in k. lia. }
    pose proof (Z.log2_spec M HM0) as [Hlo Hhi].
    assert (Hk' : k < - E).
    { assert (Z.log2 M < 52 + - E); [|lia].
      apply Z.log2_lt_pow2; [lia|]. rewrite Z.pow_add_r by lia. lia. }
    replace (Z.log2 M - 53) with (k - 1) by lia.
    assert (Hhalf : 0 < 2 ^ (k - 1)) by (apply Z.pow_pos_nonneg; lia).
    assert (H2k : 2 ^ k = 2 * 2 ^ (k - 1)).
    { change 2 with (2 ^ 1) at 2. rewrite <- Z.pow_add_r by lia. f_equal. lia. }
    assert (HS' : 0 < 2 ^ (- (E + k) - 1)) by (apply Z.pow_pos_nonneg; lia).
    assert (HS : 2 ^ (- (E + k)) = 2 * 2 ^ (- (E + k) - 1)).
    { change 2 with (2 ^ 1) at 2. rewrite <- Z.pow_add_r by lia. f_equal. lia. }
    assert (Hsplit : 2 ^ (- E) = 2 ^ k * 2 ^ (- (E + k))).
    { rewrite <- Z.pow_add_r by lia. f_equal. lia. }
    set (half := 2 ^ (k - 1)) in *.
    set (S' := 2 ^ (- (E + k) - 1)) in *.
    assert (Hdd : M / 2 ^ (- E) = M / 2 ^ k / 2 ^ (- (E + k))).
    { rewrite Hsplit, Z.div_div by lia. reflexivity. }
    assert (Hmm : M mod 2 ^ (- E)
                  = M mod 2 ^ k + 2 ^ k * ((M / 2 ^ k) mod 2 ^ (- (E + k)))).
    { rewrite Hsplit. apply Z.rem_mul_r; lia. }
    assert (Hqk : 0 <= M / 2 ^ k < 2 ^ 53).
    { split; [apply Z.div_pos; lia|]. apply Z.div_lt_upper_bound; [lia|].
      rewrite <- Z.pow_add_r by lia.
      replace (k + 53) with (Z.succ (Z.log2 M)) by lia. exact Hhi. }
    assert (Hsgn : Z.sgn M = 1) by (apply Z.sgn_pos; lia).
    rewrite Hsgn, Z.mul_1_l.
    assert (Hconv : forall q', 0 <= q' <= 2 ^ 53 ->
              f64_to_int64 {| mant := q'; expo := E + k |}
              = q' / 2 ^ (- (E + k))).
    { intros q' Hq'.
      assert (0 <= q' / 2 ^ (- (E + k)) <= q').
      { split; [apply Z.div_pos; lia|].
        apply Z.div_le_upper_bound; [lia|]. nia. }
      rewrite f64_to_int64_fraction; rewrite ?Z.quot_div_nonneg by lia;
        unfold min_int64, max_int64; lia. }
    rewrite Hdd, Hmm.
    pose proof (Z.mod_pos_bound M (2 ^ k) ltac:(lia)) as Hr.
    pose proof (Z.div_mod (M / 2 ^ k) (2 ^ (- (E + k))) ltac:(lia)) as Eq.
    pose proof (Z.mod_pos_bound (M / 2 ^ k) (2 ^ (- (E + k))) ltac:(lia)) as Hqm.
    set (q := M / 2 ^ k) in *. set (r := M mod 2 ^ k) in *.
    set (qs := q / 2 ^ (- (E + k))) in *.
    set (qm := q mod 2 ^ (- (E + k))) in *.
    rewrite Hsplit, HS, H2k in *.
    destruct (Z.leb_spec (2 * half * (2 * S') - half)
                (r + 2 * half * qm)) as [Hc|Hc].
    + assert (Hqm1 : qm = 2 * S' - 1) by nia.
      assert (Hr1 : half <= r) by nia.
      assert (Hodd : Z.odd q = true).
      { rewrite Eq, Hqm1. apply odd_pred_even_multiple. lia. }
      rewrite Hodd, andb_true_r.
      assert (Hup : (half <? r) || (r =? half) = true).
      { destruct (Z.ltb_spec half r); [reflexivity|].
        destruct (Z.eqb_spec r half); [reflexivity|lia]. }
      rewrite Hup. rewrite Hconv by lia.
      symmetry. apply Z.div_unique with (r := 0); lia.
    + assert (Hq' : forall q', q <= q' -> (q' = q \/ qm < 2 * S' - 1) ->
                      q' <= q + 1 -> q' / (2 * S') = qs).
      { intros q' H1 H2 H3. symmetry.
        apply Z.div_unique with (r := qm + (q' - q)); lia. }
      destruct ((half <? r) || (r =? half) && Z.odd q) eqn:Hup;
        rewrite Hconv by lia; rewrite Z.add_0_r; apply Hq'; try lia.
      right.
      destruct (Z.eq_dec qm (2 * S' - 1)) as [Hqm1|]; [|lia].
      exfalso. apply orb_true_iff in Hup. destruct Hup as [Hup|Hup].
      * apply Z.ltb_lt in Hup. nia.
      * apply andb_true_iff in Hup. destruct Hup as [Hup _].
        apply Z.eqb_eq in Hup. nia.
Qed.

(** The product [float64(ms) * (racingBias * 2)], truncated, in closed
    form. *)
Lemma product_exact b ms :
  unit_interval b -> 0 <= ms < 2 ^ 44 ->
  let T := f64_to_int64 (f64_mul (f64_of_int64 ms) (f64_mul b (f64_of_int64 2))) in
  let x2 := 2 * ms * mant b in
  let D := 2 ^ (- expo b) in
  T = x2 / D + (if D - 2 ^ (Z.log2 x2 - 53) <=? x2 mod D then 1 else 0).
Proof.
  intros (Hm & He & Hle) Hms. cbv zeta.
  assert (HD : 0 < 2 ^ (- expo b)) by (apply Z.pow_pos_nonneg; lia).
  rewrite f64_mul_two by lia.
  assert (Hms' : f64_of_int64 ms = {| mant := ms; expo := 0 |})
    by (apply round53_small; lia).
  rewrite Hms'.
  destruct (Z.ltb_spec (mant b) (2 ^ 52)) as [Hlt|Hge];
    unfold f64_mul; cbn [mant expo]; rewrite Z.add_0_l.
  - replace (ms * (mant b * 2)) with (2 * ms * mant b) by ring.
    apply round53_trunc_exact; [nia|lia|]. nia.
  - assert (He1 : expo b <= -52).
    { destruct (Z.le_gt_cases (expo b) (-52)) as [?|Hgt]; [assumption|].
      assert (2 ^ (- expo b) <= 2 ^ 51) by (apply Z.pow_le_mono_r; lia). lia. }
    assert (HD1 : 0 < 2 ^ (- (expo b + 1))) by (apply Z.pow_pos_nonneg; lia).
    assert (Hsplit : 2 ^ (- expo b) = 2 * 2 ^ (- (expo b + 1))).
    { change 2 with (2 ^ 1) at 2. rewrite <- Z.pow_add_r by lia. f_equal. lia. }
    rewrite round53_trunc_exact by (try nia; lia).
    replace (2 * ms * mant b) with (2 * (ms * mant b)) by ring.
    rewrite Hsplit, Z.div_mul_cancel_l, Z.mul_mod_distr_l by lia.
    f_equal.
    pose proof (Z.mod_pos_bound (ms * mant b) (2 ^ (- (expo b + 1))) HD1) as Hb.
    set (M := ms * mant b) in *. set (D' := 2 ^ (- (expo b + 1))) in *.
    destruct (Z.eq_dec M 0) as [HM0|HM0].
    { rewrite HM0, Z.mul_0_r, Z.mod_0_l by lia. cbn [Z.log2].
      rewrite (Z.pow_neg_r 2 (0 - 53)) by lia.
      destruct (Z.leb_spec (D' - 0) 0), (Z.leb_spec (2 * D' - 0) (2 * 0));
        lia. }
    assert (HMpos : 0 < M) by nia.
    rewrite Z.log2_double by lia.
    destruct (Z.le_gt_cases 53 (Z.log2 M)) as [HL|HL].
    + assert (Hp : 2 ^ (Z.succ (Z.log2 M) - 53) = 2 * 2 ^ (Z.log2 M - 53)).
      { change 2 with (2 ^ 1) at 2. rewrite <- Z.pow_add_r by lia.
        f_equal. lia. }
      rewrite Hp.
      destruct (Z.leb_spec (D' - 2 ^ (Z.log2 M - 53)) (M mod D')),
        (Z.leb_spec (2 * D' - 2 * 2 ^ (Z.log2 M - 53)) (2 * (M mod D')));
        lia.
    + rewrite (Z.pow_neg_r 2 (Z.log2 M - 53)) by lia.
      assert (Hp : 0 <= 2 ^ (Z.succ (Z.log2 M) - 53) <= 1).
      { destruct (Z.eq_dec (Z.log2 M) 52) as [->|]; [cbn; lia|].
        rewrite Z.pow_neg_r by lia. lia. }
      destruct (Z.leb_spec (D' - 0) (M mod D')),
        (Z.leb_spec (2 * D' - 2 ^ (Z.succ (Z.log2 M) - 53)) (2 * (M mod D')));
        lia.
Qed.

Lemma product_le_double b ms T :
  unit_interval b -> 0 <= ms ->
  T = 2 * ms * mant b / 2 ^ (- expo b)
  \/ (T = 2 * ms * mant b / 2 ^ (- expo b) + 1
      /\ (2 * ms * mant b) mod 2 ^ (- expo b) <> 0) ->
  0 <= T <= 2 * ms.
Proof.
  intros (Hm & He & Hle) Hms HT.
  assert (HD : 0 < 2 ^ (- expo b)) by (apply Z.pow_pos_nonneg; lia).
  assert (Hx : 0 <= 2 * ms * mant b <= 2 * ms * 2 ^ (- expo b)) by nia.
  assert (Hf : 0 <= 2 * ms * mant b / 2 ^ (- expo b) <= 2 * ms).
  { split; [apply Z.div_pos; lia|].
    apply Z.div_le_upper_bound; [lia|]. nia. }
  destruct HT as [->|[-> Hmod]]; [exact Hf|].
  split; [lia|].
  destruct (Z.eq_dec (2 * ms * mant b / 2 ^ (- expo b)) (2 * ms)) as [Heq|Hne];
    [|lia].
  exfalso. apply Hmod.
  pose proof (Z.div_mod (2 * ms * mant b) (2 ^ (- expo b)) ltac:(lia)) as E.
  pose proof (Z.mod_pos_bound (2 * ms * mant b) (2 ^ (- expo b)) HD) as B.
  rewrite Heq in E. nia.
Qed.

(** *** The holdoff *)

Lemma clamp_min max sl : (if max <? sl then max else sl) = Z.min sl max.
Proof. destruct (Z.ltb_spec max sl); lia. Qed.

Lemma holdoff_forecast_error b dl err max :
  holdoff b (dl, Some err) max = holdoff b (max, None) max.
Proof. reflexivity. Qed.

Lemma holdoff_bias_half dl max :
  min_int64 <= dl <= max_int64 ->
  holdoff bias_half (dl, None) max = Z.min (Milliseconds dl * Millisecond) max.
Proof.
  intros H. destruct (Milliseconds_bound dl H) as [Hr Hb].
  unfold holdoff.
  change (f64_mul bias_half (f64_of_int64 2)) with {| mant := 2; expo := -1 |}.
  unfold f64_of_int64. rewrite round53_small by lia.
  unfold f64_mul. cbn [mant expo]. rewrite round53_small by lia.
  change (0 + -1) with (-1).
  assert (Hq : Z.quot (Milliseconds dl * 2) (2 ^ (- -1)) = Milliseconds dl).
  { change (2 ^ (- -1)) with 2. apply Z.quot_mul. lia. }
  rewrite f64_to_int64_fraction; rewrite ?Hq; unfold min_int64, max_int64; try lia.
  rewrite wrap64_id by exact Hr. apply clamp_min.
Qed.

Lemma holdoff_bias_0 dl max :
  min_int64 <= dl <= max_int64 ->
  holdoff bias_0 (dl, None) max = Z.min 0 max.
Proof.
  intros H. destruct (Milliseconds_bound dl H) as [Hr Hb].
  unfold holdoff.
  change (f64_mul bias_0 (f64_of_int64 2)) with {| mant := 0; expo := 0 |}.
  unfold f64_of_int64. rewrite round53_small by lia.
  unfold f64_mul. cbn [mant expo]. rewrite Z.mul_0_r.
  change (round53 0 (0 + 0)) with {| mant := 0; expo := 0 |}.
  change (wrap64 (f64_to_int64 {| mant := 0; expo := 0 |} * Millisecond)) with 0.
  apply clamp_min.
Qed.

Lemma holdoff_bias_1 dl max :
  min_int64 <= dl <= max_int64 ->
  min_int64 <= 2 * Milliseconds dl * Millisecond <= max_int64 ->
  holdoff bias_1 (dl, None) max
  = Z.min (2 * Milliseconds dl * Millisecond) max.
Proof.
  intros H H2. destruct (Milliseconds_bound dl H) as [Hr Hb].
  unfold holdoff.
  change (f64_mul bias_1 (f64_of_int64 2)) with {| mant := 2; expo := 0 |}.
  unfold f64_of_int64. rewrite round53_small by lia.
  unfold f64_mul. cbn [mant expo]. rewrite round53_small by lia.
  change (0 + 0) with 0.
  rewrite f64_to_int64_integer by (unfold min_int64, max_int64; lia).
  replace (Milliseconds dl * 2 * Millisecond)
    with (2 * Milliseconds dl * Millisecond) by ring.
  rewrite wrap64_id by exact H2. apply clamp_min.
Qed.


(** [round53] against the primitive [float64] of the kernel, on the biases
    1/6, 0.3, 0.7, 0.9, 0.1, 0.99 and 0.3: both give the whole milliseconds
    that the Go expression gives. *)
Example round53_agrees_with_primitive_float :
  let cases :=
    [ (3, bias_sixth);
      (7, {| mant := 5404319552844595; expo := -54 |});
      (123456789, {| mant := 6305039478318694; expo := -53 |});
      (9223372036854, {| mant := 8106479329266893; expo := -53 |});
      (15, {| mant := 7205759403792794; expo := -56 |});
      (9223372036854, {| mant := 8917127262193582; expo := -53 |});
      (5, {| mant := 5404319552844595; expo := -54 |}) ] in
  let model '(ms, b) :=
    f64_to_int64 (f64_mul (f64_of_int64 ms) (f64_mul b (f64_of_int64 2))) in
  map model cases
  = [1; 4; 172839504; 16602069666337; 3; 18262276632970; 3]
  /\ map (fun '(ms, b) => prim_product ms b) cases = map model cases.
Proof. vm_compute. split; reflexivity. Qed.

(** The holdoff is the [float64] product, cut to whole milliseconds,
    times [time.Millisecond] in 64-bit arithmetic, clamped. *)
Lemma holdoff_product b dl max :
  holdoff b (dl, None) max
  = Z.min
      (wrap64
         (f64_to_int64
            (f64_mul (f64_of_int64 (Milliseconds dl))
               (f64_mul b (f64_of_int64 2)))
          * Millisecond))
      max.
Proof. unfold holdoff. apply clamp_min. Qed.

(** The holdoff for a forecast [dl] that is a [time.Duration], [T] being
    the [float64] product of the forecast in whole milliseconds and
    [racingBias * 2], converted to an integer (its fraction discarded):
    - for every bias, the holdoff is [T] milliseconds, computed in 64-bit
      arithmetic, clamped to [maxHoldoff];
    - when the forecast fails, [maxHoldoff] takes the place of the forecast;
    - for a bias in the unit interval and a non-negative forecast, [T] is
      the exact product [2 * ms * mant / 2 ^ (- expo)] rounded down to a
      whole number, and one more exactly when the exact product lies at
      most half a unit in the last place of its [float64] below the next
      whole number; the holdoff is [T] milliseconds clamped, provided these
      fit a [Duration];
    - at bias 0.5 it is the forecast in whole milliseconds, clamped;
    - at bias 0 it is zero, clamped;
    - at bias 1 it is twice the forecast in whole milliseconds, clamped,
      provided that fits a [Duration]. *)
Lemma holdoff_values :
  forall (racingBias : float64) (dl maxHoldoff : Z) (err : Command.error),
    min_int64 <= dl <= max_int64 ->
    let ms := Milliseconds dl in
    let T :=
      f64_to_int64
        (f64_mul (f64_of_int64 ms) (f64_mul racingBias (f64_of_int64 2))) in
    holdoff racingBias (dl, None) maxHoldoff
    = Z.min (wrap64 (T * Millisecond)) maxHoldoff
    /\ holdoff racingBias (dl, Some err) maxHoldoff
       = holdoff racingBias (maxHoldoff, None) maxHoldoff
    /\ (unit_interval racingBias -> 0 <= dl ->
        let x2 := 2 * ms * mant racingBias in
        let D := 2 ^ (- expo racingBias) in
        T = x2 / D + (if D - 2 ^ (Z.log2 x2 - 53) <=? x2 mod D then 1 else 0)
        /\ (T * Millisecond <= max_int64 ->
            holdoff racingBias (dl, None) maxHoldoff
            = Z.min (T * Millisecond) maxHoldoff))
    /\ holdoff bias_half (dl, None) maxHoldoff
       = Z.min (ms * Millisecond) maxHoldoff
    /\ holdoff bias_0 (dl, None) maxHoldoff = Z.min 0 maxHoldoff
    /\ (min_int64 <= 2 * ms * Millisecond <= max_int64 ->
        holdoff bias_1 (dl, None) maxHoldoff
        = Z.min (2 * ms * Millisecond) maxHoldoff).
Proof.
  intros b dl max err Hdl ms T.
  split; [apply holdoff_product|].
  split; [apply holdoff_forecast_error|].
  split.
  - intros Hb H0 x2 D.
    destruct (Milliseconds_bound dl Hdl) as [_ Hms].
    assert (Hms0 : 0 <= ms) by (apply Z.quot_pos; lia).
    pose proof (product_exact b ms Hb ltac:(lia)) as HT. cbv zeta in HT.
    split; [exact HT|].
    intros Hfit. rewrite holdoff_product. fold ms. fold T.
    rewrite wrap64_id; [reflexivity|]. split; [|exact Hfit].
    pose proof (product_trunc b ms Hb ltac:(lia)) as Hfl. cbv zeta in Hfl.
    pose proof (product_le_double b ms T Hb Hms0 Hfl).
    unfold min_int64, Millisecond. lia.
  - split; [apply holdoff_bias_half; exact Hdl|].
    split; [apply holdoff_bias_0; exact Hdl|].
    apply holdoff_bias_1; exact Hdl.
Qed.

(** C2, as the specification states it, fails twice.  At bias 0.25 a
    forecast of 3 ms gives 1 ms, not 1.5 ms: the product is cut to whole
    milliseconds.  At bias 1 a forecast above [2 ^ 62] ns gives a negative
    duration, not [maxHoldoff]: the product in nanoseconds wraps around. *)
Lemma holdoff_truncates_and_wraps :
  holdoff bias_quarter (3000000, None) 1000000000 = 1000000
  /\ QArith_base.Qeq (holdoff_spec (QArith_base.Qmake 1 4) 3000000 1000000000)
       (QArith_base.inject_Z 1500000)
  /\ ~ QArith_base.Qeq
         (QArith_base.inject_Z
            (holdoff bias_quarter (3000000, None) 1000000000))
         (holdoff_spec (QArith_base.Qmake 1 4) 3000000 1000000000)
  /\ holdoff bias_1 (2 ^ 62 + 1000000, None) 1000000000
     = -9223372036853551616
  /\ ~ QArith_base.Qeq
         (QArith_base.inject_Z
            (holdoff bias_1 (2 ^ 62 + 1000000, None) 1000000000))
         (holdoff_spec (QArith_base.Qmake 1 1) (2 ^ 62 + 1000000) 1000000000).
Proof.
  split; [vm_compute; reflexivity|].
  split; [vm_compute; reflexivity|].
  split; [vm_compute; discriminate|].
  split; [vm_compute; reflexivity|].
  vm_compute; discriminate.
Qed.

(** *** Bounds of the holdoff *)



End Holdoff.

(** ** Actions *)

Module Action.

Import Command.

(** What a [RecordingOutErr] has recorded. *)
Record OutErr := { Stdout : string; Stderr : string }.

(** [command.Metadata]: the action digest and the event times. *)
Record Metadata := {
  ActionDigest : string;
  md_EventTimes : gmap string (Z * Z)
}.

(** [rexec.Context]: the most recent result and metadata. *)
Record ExecContext := {
  ecResult : option Result;
  ecMetadata : Metadata
}.

(** The [LocalMetadata] and [RemoteMetadata] messages of a log record. *)
Record lpb_LocalMetadata := {
  ExecutedLocally : bool;
  ValidCacheHit : bool;
  UpdatedCache : bool;
  LocalResult : option Result;
  EventTimes : gmap string (Z * Z)
}.

Record lpb_RemoteMetadata := {
  rm_Metadata : Metadata;
  RemoteResult : option Result;
  CacheHit : bool
}.

Record LogRecord := {
  LocalMetadata : option lpb_LocalMetadata;
  RemoteMetadata : option lpb_RemoteMetadata
}.

(** [&lpb.LocalMetadata{}]. *)
Definition empty_LocalMetadata : lpb_LocalMetadata :=
  {| ExecutedLocally := false; ValidCacheHit := false; UpdatedCache := false;
     LocalResult := None; EventTimes := ∅ |}.

(** Modelled from the spec: [logger.NewLogRecord], which is not among the
    sources: a record with no metadata yet. *)
Definition NewLogRecord : LogRecord :=
  {| LocalMetadata := None; RemoteMetadata := None |}.

(** Modelled from the spec: [logger.CommandRemoteMetadataToProto], which is
    not among the sources: the remote metadata made from the metadata of an
    execution context, with no result and no cache-hit flag yet. *)
Definition CommandRemoteMetadataToProto (m : Metadata) : lpb_RemoteMetadata :=
  {| rm_Metadata := m; RemoteResult := None; CacheHit := false |}.

Definition with_EventTimes (ev : gmap string (Z * Z)) (lm : lpb_LocalMetadata)
  : lpb_LocalMetadata :=
  {| ExecutedLocally := ExecutedLocally lm; ValidCacheHit := ValidCacheHit lm;
     UpdatedCache := UpdatedCache lm; LocalResult := LocalResult lm;
     EventTimes := ev |}.

Definition local_or_empty (r : LogRecord) : lpb_LocalMetadata :=
  match LocalMetadata r with
  | Some lm => lm
  | None => empty_LocalMetadata
  end.

(** Modelled from the spec: [LogRecord.RecordEventTime], which is not among
    the sources: the interval from [from] to the current time [now] is
    recorded under [event]. *)
Definition RecordEventTime (event : string) (from now : Z) (r : LogRecord)
  : LogRecord :=
  let lm := local_or_empty r in
  {| LocalMetadata := Some (with_EventTimes (<[event := (from, now)]> (EventTimes lm)) lm);
     RemoteMetadata := RemoteMetadata r |}.

(** Modelled from the spec: [LogRecord.CopyEventTimesFrom], which is not
    among the sources: the event times of [other] are added to the record. *)
Definition CopyEventTimesFrom (other : LogRecord) (r : LogRecord) : LogRecord :=
  let lm := local_or_empty r in
  {| LocalMetadata :=
       Some (with_EventTimes (EventTimes (local_or_empty other) ∪ EventTimes lm) lm);
     RemoteMetadata := RemoteMetadata r |}.

Definition EventRacingFinalizationOverhead : string :=
  "RacingFinalizationOverhead".

(** The remote execution options that the actions below read. *)
Record RemoteExecutionOptions := {
  PreserveUnchangedOutputMtime : bool;
  Wrapper : string
}.

(** The fields of [command.Command] that the functions below read. *)
Record Cmd := {
  ExecutionID : string;
  ExecRoot : string;
  WorkingDir : string;
  OutputFiles : list string;
  OutputDirs : list string
}.

(** The fields of [action] that the functions below read or write. *)
Record action := {
  cmd : Cmd;
  rOpt : RemoteExecutionOptions;
  racingBias : Holdoff.float64;
  oe : option OutErr;
  rec : LogRecord;
  execContext : option ExecContext;
  dFile : string;
  res : option Result
}.

Definition set_res (v : option Result) (a : action) : action :=
  {| cmd := cmd a; rOpt := rOpt a; racingBias := racingBias a; oe := oe a; rec := rec a;
     execContext := execContext a; dFile := dFile a; res := v |}.

Definition set_oe (v : option OutErr) (a : action) : action :=
  {| cmd := cmd a; rOpt := rOpt a; racingBias := racingBias a; oe := v; rec := rec a;
     execContext := execContext a; dFile := dFile a; res := res a |}.

Definition set_rec (v : LogRecord) (a : action) : action :=
  {| cmd := cmd a; rOpt := rOpt a; racingBias := racingBias a; oe := oe a; rec := v;
     execContext := execContext a; dFile := dFile a; res := res a |}.

Definition set_execContext (v : option ExecContext) (a : action) : action :=
  {| cmd := cmd a; rOpt := rOpt a; racingBias := racingBias a; oe := oe a; rec := rec a;
     execContext := v; dFile := dFile a; res := res a |}.

End Action.

(** ** The race between the remote and the local attempt *)

Module Race.

Import Command Action.

Local Open Scope Z_scope.

Inductive resultType := remote | local | canceled.

Definition resultType_eqb (x y : resultType) : bool :=
  match x, y with
  | remote, remote | local, local | canceled, canceled => true
  | _, _ => false
  end.

Record raceResult := {
  rr_res : option Result;
  rr_oe : option OutErr;
  rr_t : resultType
}.

(** *** The remote attempt *)

(** What the collaborators of one remote attempt do: the remote client and
    the methods of the execution context it returns, the forecaster (what
    [a.forecast.PercentileDownloadLatency(a, p)] returns for this action
    and the percentile [p]), what [rOE] records, and whether [cCtx.Done()]
    is ready at each of the two places where [runRemoteRace] polls it. *)
Record RemoteRun := {
  NewContext : ExecContext + error;
  GetCachedResult : ExecContext -> ExecContext;
  ExecuteRemotely : ExecContext -> ExecContext;
  DownloadOutputs : ExecContext -> ExecContext;
  rOE : OutErr;
  PercentileDownloadLatency : Z -> Z * option error;
  done_after_execute : bool;
  done_after_download : bool
}.

(** When [lCh] is closed: at once, or by the timer goroutine after
    [time.Sleep(sl)]. *)
Inductive lCh_close := close_now | close_after (sl : Z).

(** [runRemoteRace] from [res := a.execContext.Result] on.  [None] is the
    run-time panic of a method call on a nil result. *)
Definition remote_result (a : action) (w : RemoteRun) (ec : ExecContext)
  (lCh : lCh_close) : option (action * raceResult * lCh_close) :=
  match ecResult ec with
  | None => None
  | Some res =>
      if negb (IsOk res) then
        Some (set_execContext (Some ec) a,
              {| rr_res := Some res; rr_oe := None; rr_t := canceled |}, lCh)
      else
        let ec := DownloadOutputs w ec in
        if done_after_download w then
          Some (set_execContext (Some ec) a,
                {| rr_res := None; rr_oe := None; rr_t := canceled |}, lCh)
        else
          match ecResult ec with
          | None => None
          | Some dres =>
              if negb (IsOk dres) then
                Some (set_execContext (Some ec) a,
                      {| rr_res := Some dres; rr_oe := Some (rOE w);
                         rr_t := canceled |}, lCh)
              else
                Some (set_execContext (Some ec) a,
                      {| rr_res := Some dres; rr_oe := Some (rOE w);
                         rr_t := remote |}, lCh)
          end
  end.

(** [runRemoteRace].  The test-only hook [testOnlyBlockRemoteExecKey] is
    absent from the context. *)
Definition runRemoteRace (a : action) (w : RemoteRun) (maxHoldoff : Z)
  : option (action * raceResult * lCh_close) :=
  match NewContext w with
  | inr err =>
      Some (set_execContext None a,
            {| rr_res := Some (NewLocalErrorResult (Some err));
               rr_oe := None; rr_t := canceled |}, close_now)
  | inl ec =>
      let ec := GetCachedResult w ec in
      match ecResult ec with
      | None =>
          let ec := ExecuteRemotely w ec in
          if done_after_execute w then
            Some (set_execContext (Some ec) a,
                  {| rr_res := None; rr_oe := None; rr_t := canceled |},
                  close_now)
          else remote_result a w ec close_now
      | Some _ =>
          remote_result a w ec
            (close_after
               (Holdoff.holdoff (racingBias a)
                  (PercentileDownloadLatency w Holdoff.downloadPercentileCutoff)
                  maxHoldoff))
      end
  end.

(** *** The local attempt *)

(** What [pool.Run] returns and records: the exit code, the error, the log
    record [lr] and the output [lOE]. *)
Record LocalRun := {
  exitCode : Z;
  run_err : option error;
  lr : LogRecord;
  lOE : OutErr
}.

Definition set_local (f : lpb_LocalMetadata -> lpb_LocalMetadata)
  (r : LogRecord) : LogRecord :=
  {| LocalMetadata := Some (f (local_or_empty r));
     RemoteMetadata := RemoteMetadata r |}.

Definition set_ExecutedLocally (v : bool) (lm : lpb_LocalMetadata) :=
  {| ExecutedLocally := v; ValidCacheHit := ValidCacheHit lm;
     UpdatedCache := UpdatedCache lm; LocalResult := LocalResult lm;
     EventTimes := EventTimes lm |}.

Definition set_LocalResult (v : option Result) (lm : lpb_LocalMetadata) :=
  {| ExecutedLocally := ExecutedLocally lm; ValidCacheHit := ValidCacheHit lm;
     UpdatedCache := UpdatedCache lm; LocalResult := v;
     EventTimes := EventTimes lm |}.

(** [runLocalRace]. *)
Definition runLocalRace (a : action) (w : LocalRun) : action * raceResult :=
  if errors_Is_Canceled (run_err w) then
    (a, {| rr_res := None; rr_oe := None; rr_t := canceled |})
  else if (exitCode w =? 0) && not_nil (run_err w) then
    (a, {| rr_res := Some (NewLocalErrorResult (run_err w));
           rr_oe := None; rr_t := canceled |})
  else
    let r := NewResultFromExitCode (exitCode w) in
    let a := set_res (Some r) a in
    let rec1 := set_local (fun lm => lm) (rec a) in
    let rec2 := set_local (set_ExecutedLocally true) rec1 in
    let rec3 := CopyEventTimesFrom (lr w) rec2 in
    let rec4 := set_local (set_LocalResult (Some r)) rec3 in
    (set_rec rec4 a,
     {| rr_res := Some r; rr_oe := Some (lOE w); rr_t := local |}).

(** *** The coordinator *)

(** A message on [ch]: the remote attempt has returned, or the local
    attempt has, after [pool.Run] or because [cCtx.Done()] was ready before
    [lCh] was closed. *)
Inductive message :=
| remote_returned (w : RemoteRun)
| local_returned (w : LocalRun)
| local_not_started.

Inductive attempt := remote_attempt | local_attempt.

Definition sender (m : message) : attempt :=
  match m with
  | remote_returned _ => remote_attempt
  | local_returned _ | local_not_started => local_attempt
  end.

(** What a [select] of [race] yields: a message of [ch], or [ctx.Done()],
    with [ctx.Err()]. *)
Inductive selected :=
| received (m : message)
| ctx_Done (ctx_Err : error).

(** The writes to the action that the sender did before it sent, and the
    message. *)
Definition deliver (maxHoldoff : Z) (a : action) (m : message)
  : option (action * raceResult) :=
  match m with
  | remote_returned w =>
      match runRemoteRace a w maxHoldoff with
      | Some (a', rr, _) => Some (a', rr)
      | None => None
      end
  | local_returned w => Some (runLocalRace a w)
  | local_not_started =>
      Some (a, {| rr_res := None; rr_oe := None; rr_t := canceled |})
  end.

(** Where [race] is: waiting in its first or in its second [select], past
    them with a winner, returned, or stopped by a panic. *)
Inductive race_pc :=
| first_select
| second_select (winner : raceResult)
| finalization (winner : raceResult)
| returned
| panicked.

Record race_state := {
  pc : race_pc;
  act : action;
  numFallbacks : Z;
  cancel_called : bool
}.

Definition return_error (err : error) (s : race_state) : race_state :=
  {| pc := returned;
     act := set_res (Some (NewLocalErrorResult (Some err))) (act s);
     numFallbacks := numFallbacks s;
     cancel_called := cancel_called s |}.

Definition panic (s : race_state) : race_state :=
  {| pc := panicked; act := act s; numFallbacks := numFallbacks s;
     cancel_called := cancel_called s |}.

(** One [select] of [race].  The test-only hook [testOnlyBlockFallbackKey]
    is absent from the context. *)
Definition race_select (maxHoldoff : Z) (s : race_state) (ev : selected)
  : race_state :=
  match pc s with
  | first_select =>
      match ev with
      | ctx_Done err => return_error err s
      | received m =>
          match deliver maxHoldoff (act s) m with
          | None => panic s
          | Some (a, winner) =>
              {| pc :=
                   if resultType_eqb (rr_t winner) remote
                      || resultType_eqb (rr_t winner) canceled
                   then second_select winner else finalization winner;
                 act := a;
                 numFallbacks := numFallbacks s;
                 cancel_called := negb (resultType_eqb (rr_t winner) canceled) |}
          end
      end
  | second_select winner =>
      match ev with
      | ctx_Done err => return_error err s
      | received m =>
          match deliver maxHoldoff (act s) m with
          | None => panic s
          | Some (a, rr) =>
              {| pc :=
                   finalization
                     (if resultType_eqb (rr_t rr) local then rr else winner);
                 act := a;
                 numFallbacks :=
                   if resultType_eqb (rr_t winner) canceled
                      && resultType_eqb (rr_t rr) local
                   then Holdoff.wrap64 (numFallbacks s + 1)
                   else numFallbacks s;
                 cancel_called := cancel_called s |}
          end
      end
  | _ => s
  end.

(** What the end of [race] meets: the error of [moveOutputsFromTemp], and
    the times [from] and [now] of the finalization. *)
Record Finalization := {
  moveOutputsFromTemp : option error;
  from : Z;
  now : Z
}.

Definition set_RemoteResult (v : option Result) (rm : lpb_RemoteMetadata) :=
  {| rm_Metadata := rm_Metadata rm; RemoteResult := v; CacheHit := CacheHit rm |}.

(** The end of [race]: [from := time.Now()] and what follows.  The
    restoration of the mtimes of unchanged outputs works on the file system
    and the file metadata cache; its error is only logged. *)
Definition race_finalize (fin : Finalization) (s : race_state) : race_state :=
  match pc s with
  | finalization winner =>
      let finish (a : action) : race_state :=
        {| pc := returned;
           act :=
             set_oe (rr_oe winner)
               (set_rec
                  (RecordEventTime EventRacingFinalizationOverhead
                     (from fin) (now fin) (rec a)) a);
           numFallbacks := numFallbacks s;
           cancel_called := cancel_called s |} in
      match rr_t winner with
      | remote =>
          match moveOutputsFromTemp fin with
          | Some err => return_error err s
          | None =>
              match execContext (act s) with
              | None => panic s
              | Some ec =>
                  let rm :=
                    set_RemoteResult (rr_res winner)
                      (CommandRemoteMetadataToProto (ecMetadata ec)) in
                  let a :=
                    set_rec {| LocalMetadata := LocalMetadata (rec (act s));
                               RemoteMetadata := Some rm |} (act s) in
                  finish (set_res (rr_res winner) a)
              end
          end
      | local => finish (act s)
      | canceled =>
          match rr_res winner with
          | Some _ => finish (set_res (rr_res winner) (act s))
          | None => finish (act s)
          end
      end
  | _ => s
  end.

(** [race] after the temporary directory exists, on the [select]s that it
    meets. *)
Fixpoint race_run (maxHoldoff : Z) (fin : Finalization) (s : race_state)
  (evs : list selected) : race_state :=
  match pc s with
  | finalization _ => race_finalize fin s
  | first_select | second_select _ =>
      match evs with
      | [] => s
      | ev :: evs' => race_run maxHoldoff fin (race_select maxHoldoff s ev) evs'
      end
  | returned | panicked => s
  end.

(** [race]: [createTmpDir] is what [a.createTmpDir()] returns as its
    error. *)
Definition race (maxHoldoff : Z) (createTmpDir : option error)
  (fin : Finalization) (a : action) (numFallbacks : Z) (evs : list selected)
  : race_state :=
  match createTmpDir with
  | Some err =>
      return_error err
        {| pc := first_select; act := a; numFallbacks := numFallbacks;
           cancel_called := false |}
  | None =>
      race_run maxHoldoff fin
        {| pc := first_select; act := a; numFallbacks := numFallbacks;
           cancel_called := false |} evs
  end.

(** Each attempt sends one message: the attempts of the messages among the
    [select]s are pairwise distinct. *)
Fixpoint senders (evs : list selected) : list attempt :=
  match evs with
  | [] => []
  | received m :: evs' => sender m :: senders evs'
  | ctx_Done _ :: evs' => senders evs'
  end.

Definition one_message_each (evs : list selected) : Prop := NoDup (senders evs).

(** The result that the remote execution leaves in the execution context
    [ec] that [NewContext] returned: the cached result, or on a cache miss
    the result of [ExecuteRemotely]; and whether it was a cache miss. *)
Definition cache_miss (w : RemoteRun) (ec : ExecContext) : bool :=
  negb (not_nil (ecResult (GetCachedResult w ec))).

Definition executed (w : RemoteRun) (ec : ExecContext) : ExecContext :=
  if cache_miss w ec then ExecuteRemotely w (GetCachedResult w ec)
  else GetCachedResult w ec.

(** Whether the remote attempt finds the sibling scope canceled at one of
    its two polls: after the remote execution of a cache miss, or, when
    [downloaded], after the download. *)
Definition found_done (w : RemoteRun) (ec : ExecContext) (downloaded : bool)
  : bool :=
  cache_miss w ec && done_after_execute w
  || downloaded && done_after_download w.

(** *** Sample collaborators *)

Definition no_output : OutErr := {| Stdout := ""; Stderr := "" |}.

Definition fresh_context : ExecContext :=
  {| ecResult := None;
     ecMetadata := {| ActionDigest := "4f2a/142"; md_EventTimes := ∅ |} |}.

Definition with_result (r : Result) (ec : ExecContext) : ExecContext :=
  {| ecResult := Some r; ecMetadata := ecMetadata ec |}.

Definition remote_error : Result :=
  {| ExitCode := 45; Status := RemoteErrorResultStatus;
     Err := Some (errorString "deadline exceeded on the worker") |}.

Definition cache_hit_result : Result :=
  {| ExitCode := 0; Status := CacheHitResultStatus; Err := None |}.

(** A forecaster without data, and one that knows the median (40 ms) and
    the 90th percentile (100 ms) of the download latency. *)
Definition no_forecast (percentile : Z) : Z * option error :=
  (0, Some (errorString "insufficient data")).

Definition sample_forecast (percentile : Z) : Z * option error :=
  if percentile =? 90 then (100000000, None)
  else if percentile =? 50 then (40000000, None)
  else (0, Some (errorString "unknown percentile")).

(** The remote client cannot create the execution context. *)
Definition context_fails : RemoteRun :=
  {| NewContext := inr (errorString "connection refused");
     GetCachedResult := fun ec => ec;
     ExecuteRemotely := fun ec => ec;
     DownloadOutputs := fun ec => ec;
     rOE := no_output;
     PercentileDownloadLatency := no_forecast;
     done_after_execute := false;
     done_after_download := false |}.

(** A cache miss whose remote execution fails; [done] tells whether the
    sibling scope is found canceled after it. *)
Definition execution_fails (done : bool) : RemoteRun :=
  {| NewContext := inl fresh_context;
     GetCachedResult := fun ec => ec;
     ExecuteRemotely := with_result remote_error;
     DownloadOutputs := fun ec => ec;
     rOE := no_output;
     PercentileDownloadLatency := no_forecast;
     done_after_execute := done;
     done_after_download := false |}.

(** A cache hit whose outputs are downloaded, with a forecast of 100 ms
    at the 90th percentile. *)
Definition cache_hit : RemoteRun :=
  {| NewContext := inl fresh_context;
     GetCachedResult := with_result cache_hit_result;
     ExecuteRemotely := fun ec => ec;
     DownloadOutputs := fun ec => ec;
     rOE := no_output;
     PercentileDownloadLatency := sample_forecast;
     done_after_execute := false;
     done_after_download := false |}.

(** The local pool runs the command, which exits with [code]. *)
Definition local_exits (code : Z) : LocalRun :=
  {| exitCode := code; run_err := None; lr := NewLogRecord;
     lOE := {| Stdout := "compiled"; Stderr := "" |} |}.

(** The local pool fails to run the command. *)
Definition local_fails : LocalRun :=
  {| exitCode := 0; run_err := Some (errorString "fork/exec: no such file");
     lr := NewLogRecord; lOE := no_output |}.

Definition sample_action : action :=
  {| cmd := {| ExecutionID := "a1b2"; ExecRoot := "/src"; WorkingDir := "out";
               OutputFiles := ["obj/a.o"]; OutputDirs := [] |};
     rOpt := {| PreserveUnchangedOutputMtime := false; Wrapper := "" |};
     racingBias := Holdoff.bias_half;
     oe := None;
     rec := {| LocalMetadata := Some empty_LocalMetadata;
               RemoteMetadata := None |};
     execContext := None;
     dFile := "";
     res := None |}.

Definition waiting (a : action) (n : Z) : race_state :=
  {| pc := first_select; act := a; numFallbacks := n; cancel_called := false |}.

Definition sample_finalization : Finalization :=
  {| moveOutputsFromTemp := None; from := 1000; now := 1002 |}.

(** The outputs cannot be moved out of the temporary directory. *)
Definition move_fails : Finalization :=
  {| moveOutputsFromTemp := Some (errorString "rename: permission denied");
     from := 1000; now := 1002 |}.

(** *** Properties of the attempts *)

Lemma resultType_eqb_eq x y : resultType_eqb x y = true <-> x = y.
Proof. destruct x, y; simpl; split; congruence. Qed.

(** The remote attempt never returns an outcome of kind [local]. *)
Lemma runRemoteRace_not_local a w maxHoldoff a' rr l :
  runRemoteRace a w maxHoldoff = Some (a', rr, l) -> rr_t rr <> local.
Proof.
  unfold runRemoteRace, remote_result.
  repeat match goal with
         | |- context [match ?x with _ => _ end] => destruct x
         end; intros H; inversion H; subst; discriminate.
Qed.

(** A message of kind [local] comes from [runLocalRace] after [pool.Run]
    has run the command, and [a.res] is then the result it carries. *)
Lemma deliver_local maxHoldoff a m a' rr :
  deliver maxHoldoff a m = Some (a', rr) -> rr_t rr = local ->
  (exists w, m = local_returned w) /\ res a' = rr_res rr.
Proof.
  destruct m as [w|w|]; simpl.
  - destruct (runRemoteRace a w maxHoldoff) as [[[a1 rr1] l]|] eqn:E;
      [|discriminate].
    intros H Ht. inversion H; subst.
    exfalso. exact (runRemoteRace_not_local _ _ _ _ _ _ E Ht).
  - intros H Ht. split; [eauto|]. unfold runLocalRace in H.
    destruct (errors_Is_Canceled (run_err w));
      [inversion H; subst; discriminate|].
    destruct ((exitCode w =? 0) && not_nil (run_err w));
      inversion H; subst; [discriminate|reflexivity].
  - intros H Ht. inversion H; subst. discriminate.
Qed.

(** The remote attempt does not touch [a.res]. *)
Lemma runRemoteRace_res a w maxHoldoff a' rr l :
  runRemoteRace a w maxHoldoff = Some (a', rr, l) -> res a' = res a.
Proof.
  unfold runRemoteRace, remote_result.
  repeat match goal with
         | |- context [match ?x with _ => _ end] => destruct x
         end; intros H; inversion H; reflexivity.
Qed.

(** *** C1: the second outcome *)

(** C1.  After the first outcome [winner] of kind [remote] or [canceled],
    [race] waits in its second [select].  When the second outcome [rr]
    arrives: if [winner] was [canceled] and [rr] is [local], the counter is
    incremented by one ([atomic.AddInt64], so by exactly 1 below the
    greatest [int64]) and [rr] becomes the winner; if [winner] was [remote]
    and [rr] is [local], [rr] becomes the winner and the counter is
    unchanged; if [rr] is [canceled], [winner] stands.  A winner of kind
    [local] is the one whose result [a.res] holds. *)
Theorem race_second_outcome :
  forall maxHoldoff a n m1 a1 winner,
    deliver maxHoldoff a m1 = Some (a1, winner) ->
    rr_t winner = remote \/ rr_t winner = canceled ->
    let s1 := race_select maxHoldoff (waiting a n) (received m1) in
    pc s1 = second_select winner
    /\ numFallbacks s1 = n
    /\ forall m2 a2 rr,
         deliver maxHoldoff a1 m2 = Some (a2, rr) ->
         let s2 := race_select maxHoldoff s1 (received m2) in
         (rr_t winner = canceled -> rr_t rr = local ->
          pc s2 = finalization rr
          /\ numFallbacks s2 = Holdoff.wrap64 (n + 1)
          /\ (Holdoff.min_int64 <= n < Holdoff.max_int64 ->
              numFallbacks s2 = n + 1)
          /\ res (act s2) = rr_res rr)
         /\ (rr_t winner = remote -> rr_t rr = local ->
             pc s2 = finalization rr
             /\ numFallbacks s2 = n
             /\ res (act s2) = rr_res rr)
         /\ (rr_t rr = canceled ->
             pc s2 = finalization winner /\ numFallbacks s2 = n).
Proof.
  intros mh a n m1 a1 winner Hd Ht s1.
  assert (Hs1 : s1 = {| pc := second_select winner; act := a1;
                        numFallbacks := n;
                        cancel_called :=
                          negb (resultType_eqb (rr_t winner) canceled) |}).
  { subst s1. unfold race_select, waiting. cbn [pc act numFallbacks].
    rewrite Hd. destruct Ht as [-> | ->]; reflexivity. }
  rewrite Hs1. clear s1 Hs1.
  split; [reflexivity|]. split; [reflexivity|].
  intros m2 a2 rr Hd2 s2.
  assert (Hs2 : s2 = {| pc := finalization
                               (if resultType_eqb (rr_t rr) local
                                then rr else winner);
                        act := a2;
                        numFallbacks :=
                          if resultType_eqb (rr_t winner) canceled
                             && resultType_eqb (rr_t rr) local
                          then Holdoff.wrap64 (n + 1) else n;
                        cancel_called :=
                          negb (resultType_eqb (rr_t winner) canceled) |}).
  { subst s2. unfold race_select. cbn [pc act numFallbacks cancel_called].
    rewrite Hd2. reflexivity. }
  rewrite Hs2. cbn [pc numFallbacks act].
  split; [|split].
  - intros -> Hl. pose proof (deliver_local _ _ _ _ _ Hd2 Hl) as [_ Hres].
    rewrite Hl. cbn. repeat split; [|exact Hres].
    intros Hn. apply Holdoff.wrap64_id. lia.
  - intros -> Hl. pose proof (deliver_local _ _ _ _ _ Hd2 Hl) as [_ Hres].
    rewrite Hl. cbn. repeat split. exact Hres.
  - intros ->. cbn. rewrite andb_false_r. split; reflexivity.
Qed.

(** The remote client cannot create the execution context, and the local
    command exits with 0: the winner is local and the counter goes from 0
    to 1. *)
Lemma race_second_outcome_fallback :
  let s2 :=
    race_select 1000000000
      (race_select 1000000000 (waiting sample_action 0)
         (received (remote_returned context_fails)))
      (received (local_returned (local_exits 0))) in
  numFallbacks s2 = 1
  /\ res (act s2) = Some (NewResultFromExitCode 0).
Proof.
  pose proof (race_second_outcome 1000000000 sample_action 0
                (remote_returned context_fails) _ _ eq_refl
                (or_intror eq_refl)) as (_ & _ & H).
  destruct (H (local_returned (local_exits 0)) _ _ eq_refl)
    as ((_ & _ & Hn & Hr) & _); [reflexivity|reflexivity|].
  split; [apply Hn; vm_compute; split; congruence|exact Hr].
Defined.

(** *** C2: the holdoff of a cache hit *)

Lemma runRemoteRace_cache_hit a w maxHoldoff ec r a' rr l :
  NewContext w = inl ec ->
  ecResult (GetCachedResult w ec) = Some r ->
  runRemoteRace a w maxHoldoff = Some (a', rr, l) ->
  l = close_after
        (Holdoff.holdoff (racingBias a) (PercentileDownloadLatency w 90)
           maxHoldoff).
Proof.
  intros Hc Hr. unfold runRemoteRace, remote_result. rewrite Hc, Hr.
  repeat match goal with
         | |- context [match ?x with _ => _ end] => destruct x
         end; intros H; inversion H; reflexivity.
Qed.

(** C2, as the code has it.  On a cache hit the remote attempt, whenever
    it returns, has left the closing of [lCh] to the timer goroutine, which
    closes it after [time.Sleep(sl)], [sl] being the holdoff computed from
    the racing bias of the action, the forecast that the forecaster gives
    for the percentile 90, and [maxHoldoff].  For a forecast [dl] that is a
    [time.Duration], with [ms] the forecast in whole milliseconds and [T]
    the [float64] product [float64(ms) * (racingBias * 2)] converted to an
    integer, which discards its fraction:
    - for every bias the holdoff is [T] milliseconds, computed in 64-bit
      arithmetic (so with wrap-around), clamped to [maxHoldoff];
    - when the forecast fails, [maxHoldoff] takes the place of the forecast;
    - for a bias in the unit interval and a non-negative forecast, [T] is
      the exact product [2 * ms * racingBias] rounded down to a whole
      number, and one more exactly when the exact product lies at most half
      a unit in the last place of its [float64] below the next whole number
      (with the bias [mant * 2 ^ expo]: when the remainder of
      [2 * ms * mant] modulo [2 ^ (- expo)] is at least [2 ^ (- expo)] less
      [2 ^ (log2 (2 * ms * mant) - 53)]); the holdoff is [T] milliseconds,
      clamped, provided these fit a [Duration];
    - at bias 0.5 it is the forecast in whole milliseconds, clamped;
    - at bias 0 it is zero, clamped;
    - at bias 1 it is twice the forecast in whole milliseconds, clamped,
      provided that fits a [Duration].
    A [Duration] is a number of nanoseconds between [- 2 ^ 63] and
    [2 ^ 63 - 1]; a bias in the unit interval is [mant * 2 ^ expo] with
    [mant <= 2 ^ (- expo)]. *)
Theorem cache_hit_holdoff :
  forall a w maxHoldoff ec r,
    NewContext w = inl ec ->
    ecResult (GetCachedResult w ec) = Some r ->
    (forall a' rr l,
        runRemoteRace a w maxHoldoff = Some (a', rr, l) ->
        l = close_after
              (Holdoff.holdoff (racingBias a) (PercentileDownloadLatency w 90)
                 maxHoldoff))
    /\ forall dl err,
         - 2 ^ 63 <= dl <= 2 ^ 63 - 1 ->
         let b := racingBias a in
         let ms := Z.quot dl 1000000 in
         let T :=
           Holdoff.f64_to_int64
             (Holdoff.f64_mul (Holdoff.f64_of_int64 ms)
                (Holdoff.f64_mul b (Holdoff.f64_of_int64 2))) in
         Holdoff.holdoff b (dl, None) maxHoldoff
         = Z.min ((T * 1000000 + 2 ^ 63) mod 2 ^ 64 - 2 ^ 63) maxHoldoff
         /\ Holdoff.holdoff b (dl, Some err) maxHoldoff
            = Holdoff.holdoff b (maxHoldoff, None) maxHoldoff
         /\ (0 <= Holdoff.mant b < 2 ^ 53 -> -1074 <= Holdoff.expo b <= 0 ->
             Holdoff.mant b <= 2 ^ (- Holdoff.expo b) -> 0 <= dl ->
             let x2 := 2 * ms * Holdoff.mant b in
             let D := 2 ^ (- Holdoff.expo b) in
             T = x2 / D
                 + (if D - 2 ^ (Z.log2 x2 - 53) <=? x2 mod D then 1 else 0)
             /\ (T * 1000000 <= 2 ^ 63 - 1 ->
                 Holdoff.holdoff b (dl, None) maxHoldoff
                 = Z.min (T * 1000000) maxHoldoff))
         /\ (b = {| Holdoff.mant := 1; Holdoff.expo := -1 |} ->
             Holdoff.holdoff b (dl, None) maxHoldoff
             = Z.min (ms * 1000000) maxHoldoff)
         /\ (b = {| Holdoff.mant := 0; Holdoff.expo := 0 |} ->
             Holdoff.holdoff b (dl, None) maxHoldoff = Z.min 0 maxHoldoff)
         /\ (b = {| Holdoff.mant := 1; Holdoff.expo := 0 |} ->
             - 2 ^ 63 <= 2 * ms * 1000000 <= 2 ^ 63 - 1 ->
             Holdoff.holdoff b (dl, None) maxHoldoff
             = Z.min (2 * ms * 1000000) maxHoldoff).
Proof.
  intros a w mh ec r Hc Hr. split.
  - intros a' rr l. apply (runRemoteRace_cache_hit _ _ _ _ _ _ _ _ Hc Hr).
  - intros dl err Hdl b ms T.
    destruct (Holdoff.holdoff_values b dl mh err Hdl)
      as (H0 & H1 & H2 & H3 & H4 & H5).
    split; [exact H0|]. split; [exact H1|].
    split; [intros Hm He Hle; exact (H2 (conj Hm (conj He Hle)))|].
    split; [intros ->; exact H3|].
    split; [intros ->; exact H4|intros ->; exact H5].
Qed.

(** A cache hit for an action of bias 0.5, with a forecaster whose 90th
    percentile is 100 ms and whose median is 40 ms, and a maximum of 1 s:
    [lCh] is closed after 100 ms. *)
Lemma cache_hit_holdoff_100ms :
  (exists a' rr,
      runRemoteRace sample_action cache_hit 1000000000
      = Some (a', rr,
              close_after
                (Holdoff.holdoff (racingBias sample_action)
                   (PercentileDownloadLatency cache_hit 90) 1000000000)))
  /\ PercentileDownloadLatency cache_hit 90 = (100000000, None)
  /\ Holdoff.holdoff (racingBias sample_action)
       (PercentileDownloadLatency cache_hit 90) 1000000000
     = 100000000.
Proof.
  pose proof (cache_hit_holdoff sample_action cache_hit 1000000000
                fresh_context cache_hit_result eq_refl eq_refl) as [Hl Hv].
  split; [|split; [reflexivity|]].
  - destruct (runRemoteRace sample_action cache_hit 1000000000)
      as [[[a' rr] l]|] eqn:E; [|vm_compute in E; discriminate].
    exists a', rr. rewrite (Hl a' rr l eq_refl). reflexivity.
  - assert (Hdl : Holdoff.min_int64 <= 100000000 <= Holdoff.max_int64)
      by (vm_compute; split; discriminate).
    pose proof (Hv 100000000 (errorString "insufficient data") Hdl) as H.
    cbv zeta in H. destruct H as (_ & _ & _ & H & _). exact (H eq_refl).
Defined.

(** *** C4: a failing remote attempt *)

Lemma runRemoteRace_executed a w maxHoldoff ec :
  NewContext w = inl ec ->
  runRemoteRace a w maxHoldoff
  = if cache_miss w ec && done_after_execute w then
      Some (set_execContext (Some (executed w ec)) a,
            {| rr_res := None; rr_oe := None; rr_t := canceled |}, close_now)
    else
      remote_result a w (executed w ec)
        (if cache_miss w ec then close_now
         else close_after
                (Holdoff.holdoff (racingBias a)
                   (PercentileDownloadLatency w 90) maxHoldoff)).
Proof.
  intros Hc. unfold runRemoteRace, executed, cache_miss. rewrite Hc.
  destruct (ecResult (GetCachedResult w ec)); cbn [not_nil negb andb];
    [reflexivity|].
  destruct (done_after_execute w); reflexivity.
Qed.

(** [race] with the message of the remote attempt as its only [select]
    outcome so far, when that outcome is of kind [canceled]. *)
Lemma race_waits_after_canceled maxHoldoff fin a n w a1 rr l :
  runRemoteRace a w maxHoldoff = Some (a1, rr, l) ->
  rr_t rr = canceled ->
  race_run maxHoldoff fin (waiting a n) [received (remote_returned w)]
  = {| pc := second_select rr; act := a1; numFallbacks := n;
       cancel_called := false |}.
Proof.
  intros Hr Ht. unfold waiting. cbn [race_run pc].
  unfold race_select. cbn [pc act numFallbacks deliver]. rewrite Hr.
  cbn [pc]. rewrite Ht. reflexivity.
Qed.

(** C4, as the code has it.  When the result of the remote execution is
    not ok, or the result of the download after an ok execution is not ok,
    the remote attempt returns an outcome of kind [canceled]; the outcome
    carries the failing result (and, for a download, the recorded output)
    unless the attempt found the sibling scope canceled at the poll that
    follows the remote execution of a cache miss or the download: then it
    carries no result.  After any outcome of kind [canceled] of the remote
    attempt, [race] has assigned no result and waits in its second [select];
    it returns only after the outcome of the local attempt or after the
    cancellation of the parent scope. *)
Theorem remote_failure_waits_for_local :
  forall maxHoldoff a w ec,
    NewContext w = inl ec ->
    (forall r,
        ecResult (executed w ec) = Some r -> IsOk r = false ->
        exists a1 l,
          runRemoteRace a w maxHoldoff
          = Some (a1,
                  {| rr_res := if found_done w ec false then None else Some r;
                     rr_oe := None;
                     rr_t := canceled |}, l))
    /\ (forall r0 r,
           ecResult (executed w ec) = Some r0 -> IsOk r0 = true ->
           ecResult (DownloadOutputs w (executed w ec)) = Some r ->
           IsOk r = false ->
           exists a1 l,
             runRemoteRace a w maxHoldoff
             = Some (a1,
                     {| rr_res := if found_done w ec true then None else Some r;
                        rr_oe := if found_done w ec true then None
                                 else Some (rOE w);
                        rr_t := canceled |}, l))
    /\ (forall a1 rr l n fin,
           runRemoteRace a w maxHoldoff = Some (a1, rr, l) ->
           rr_t rr = canceled ->
           let s1 :=
             race_run maxHoldoff fin (waiting a n)
               [received (remote_returned w)] in
           pc s1 = second_select rr
           /\ res (act s1) = res a
           /\ forall evs,
                one_message_each (received (remote_returned w) :: evs) ->
                pc (race_run maxHoldoff fin (waiting a n)
                      (received (remote_returned w) :: evs)) = returned ->
                exists ev evs',
                  evs = ev :: evs'
                  /\ ((exists m, ev = received m /\ sender m = local_attempt)
                      \/ exists err, ev = ctx_Done err)).
Proof.
  intros mh a w ec Hc. split; [|split].
  - intros r Hr Hok. rewrite (runRemoteRace_executed _ _ _ _ Hc).
    unfold found_done. cbn [andb]. rewrite orb_false_r.
    destruct (cache_miss w ec && done_after_execute w); [eauto|].
    unfold remote_result. rewrite Hr, Hok. cbn [negb]. eauto.
  - intros r0 r Hr0 Hok0 Hr Hok. rewrite (runRemoteRace_executed _ _ _ _ Hc).
    unfold found_done. cbn [andb].
    destruct (cache_miss w ec && done_after_execute w); cbn [orb]; [eauto|].
    unfold remote_result. rewrite Hr0, Hok0. cbn [negb].
    destruct (done_after_download w); [eauto|].
    rewrite Hr, Hok. cbn [negb]. eauto.
  - intros a1 rr l n fin Hr Ht s1. subst s1.
    rewrite (race_waits_after_canceled _ _ _ _ _ _ _ _ Hr Ht).
    cbn [pc act]. split; [reflexivity|].
    split; [exact (runRemoteRace_res _ _ _ _ _ _ Hr)|].
    intros evs Hone Hret. destruct evs as [|ev evs'].
    + rewrite (race_waits_after_canceled _ _ _ _ _ _ _ _ Hr Ht) in Hret.
      discriminate.
    + exists ev, evs'. split; [reflexivity|].
      destruct ev as [m|err]; [left|right; eauto].
      exists m. split; [reflexivity|].
      unfold one_message_each in Hone. cbn [senders sender] in Hone.
      apply NoDup_cons in Hone. destruct Hone as [Hnotin _].
      destruct (sender m) eqn:Hs; [|reflexivity].
      exfalso. apply Hnotin. left.
Qed.

(** A cache miss whose remote execution fails while the sibling scope is
    not canceled: the outcome carries the remote error. *)
Lemma remote_failure_waits_for_local_miss :
  exists a1 l,
    runRemoteRace sample_action (execution_fails false) 1000000000
    = Some (a1, {| rr_res := Some remote_error; rr_oe := None;
                   rr_t := canceled |}, l).
Proof.
  destruct (remote_failure_waits_for_local 1000000000 sample_action
              (execution_fails false) fresh_context eq_refl) as (H & _).
  exact (H remote_error eq_refl eq_refl).
Defined.

(** C4, as the specification states it, fails when the attempt finds the
    sibling scope canceled after the failed remote execution of a cache
    miss: the outcome is [canceled] but carries no result. *)
Lemma remote_failure_without_result :
  ecResult (executed (execution_fails true) fresh_context) = Some remote_error
  /\ IsOk remote_error = false
  /\ option_map (fun x => snd (fst x))
       (runRemoteRace sample_action (execution_fails true) 1000000000)
     = Some {| rr_res := None; rr_oe := None; rr_t := canceled |}
  /\ option_map (fun x => rr_res (snd (fst x)))
       (runRemoteRace sample_action (execution_fails true) 1000000000)
     <> Some (Some remote_error).
Proof. repeat split; vm_compute; congruence. Qed.

(** *** C5: cancellation of the parent scope *)

(** C5.  When [race] waits in its first or in its second [select] and the
    [select] takes [ctx.Done()], [race] returns, and the result of the
    action is the local-error result that carries [ctx.Err()], the error
    with which the parent scope was canceled; further outcomes are not
    looked at. *)
Theorem race_parent_canceled :
  forall maxHoldoff fin a n c winner err evs,
    let at_first :=
      {| pc := first_select; act := a; numFallbacks := n;
         cancel_called := c |} in
    let at_second :=
      {| pc := second_select winner; act := a; numFallbacks := n;
         cancel_called := c |} in
    let failed (s : race_state) :=
      pc s = returned
      /\ res (act s) = Some (NewLocalErrorResult (Some err))
      /\ (forall r, res (act s) = Some r ->
          Status r = LocalErrorResultStatus /\ Err r = Some err /\
          IsOk r = false)
      /\ numFallbacks s = n in
    failed (race_select maxHoldoff at_first (ctx_Done err))
    /\ failed (race_select maxHoldoff at_second (ctx_Done err))
    /\ failed (race_run maxHoldoff fin at_first (ctx_Done err :: evs))
    /\ failed (race_run maxHoldoff fin at_second (ctx_Done err :: evs)).
Proof.
  intros mh fin a n c winner err evs at_first at_second failed.
  assert (Hres : forall r,
             Some (NewLocalErrorResult (Some err)) = Some r ->
             Status r = LocalErrorResultStatus /\ Err r = Some err /\
             IsOk r = false)
    by (intros r [= <-]; repeat split).
  assert (Hf : failed (return_error err at_first))
    by (unfold failed, return_error; cbn; repeat split; apply Hres; assumption).
  assert (Hs : failed (return_error err at_second))
    by (unfold failed, return_error; cbn; repeat split; apply Hres; assumption).
  assert (Hrun : forall s, pc s = returned -> race_run mh fin s evs = s).
  { intros s Hpc. destruct evs; cbn [race_run]; rewrite Hpc; reflexivity. }
  split; [exact Hf|]. split; [exact Hs|]. split.
  - cbn [race_run]. subst at_first. cbn [pc race_select].
    rewrite Hrun by reflexivity. exact Hf.
  - cbn [race_run]. subst at_second. cbn [pc race_select].
    rewrite Hrun by reflexivity. exact Hs.
Qed.

(** *** C10: an error of the local pool *)

(** C10.  When [pool.Run] returns exit code 0 together with an error that
    is not a context cancellation, the outcome of the local attempt is of
    kind [canceled] and carries the local-error result of that error; the
    action is left as it was, so [ExecutedLocally] is not set.  In the
    second [select] this outcome is no local win: a winner of the remote
    attempt stands, and the counter of fallbacks is unchanged. *)
Theorem local_error_is_no_win :
  forall a w e,
    exitCode w = 0 -> run_err w = Some e -> Is_context_Canceled e = false ->
    runLocalRace a w
    = (a, {| rr_res := Some (NewLocalErrorResult (Some e)); rr_oe := None;
             rr_t := canceled |})
    /\ rec (fst (runLocalRace a w)) = rec a
    /\ res (fst (runLocalRace a w)) = res a
    /\ forall maxHoldoff n c winner,
         let s :=
           race_select maxHoldoff
             {| pc := second_select winner; act := a; numFallbacks := n;
                cancel_called := c |}
             (received (local_returned w)) in
         pc s = finalization winner /\ act s = a /\ numFallbacks s = n.
Proof.
  intros a w e Hx He Hc.
  assert (Hrun : runLocalRace a w
                 = (a, {| rr_res := Some (NewLocalErrorResult (Some e));
                          rr_oe := None; rr_t := canceled |})).
  { unfold runLocalRace. rewrite He, Hx. cbn. rewrite Hc. reflexivity. }
  rewrite Hrun. cbn [fst]. repeat split; try reflexivity.
  - unfold race_select. cbn [pc act deliver]. rewrite Hrun. reflexivity.
  - unfold race_select. cbn [pc act deliver]. rewrite Hrun. reflexivity.
  - unfold race_select. cbn [pc act deliver numFallbacks]. rewrite Hrun.
    cbn. rewrite andb_false_r. reflexivity.
Qed.

(** The remote attempt wins with a cache hit and the local pool then fails
    to run the command: the result of the action is the cache hit. *)
Lemma local_error_is_no_win_after_cache_hit :
  runLocalRace sample_action local_fails
  = (sample_action,
     {| rr_res :=
          Some (NewLocalErrorResult
                  (Some (errorString "fork/exec: no such file")));
        rr_oe := None; rr_t := canceled |})
  /\ res (act (race 1000000000 None sample_finalization sample_action 0
                 [received (remote_returned cache_hit);
                  received (local_returned local_fails)]))
     = Some cache_hit_result.
Proof.
  split.
  - exact (proj1 (local_error_is_no_win sample_action local_fails
                    (errorString "fork/exec: no such file")
                    eq_refl eq_refl eq_refl)).
  - vm_compute. reflexivity.
Defined.

(** *** Further properties of the race *)

(** The remote attempt leaves the result, the log record and the output of
    the action as they were. *)
Lemma runRemoteRace_keeps a w maxHoldoff a' rr l :
  runRemoteRace a w maxHoldoff = Some (a', rr, l) ->
  res a' = res a /\ rec a' = rec a /\ oe a' = oe a.
Proof.
  unfold runRemoteRace, remote_result.
  repeat match goal with
         | |- context [match ?x with _ => _ end] => destruct x
         end; intros H; inversion H; repeat split.
Qed.

(** An outcome that is not of kind [local] leaves the result, the log
    record and the output of the action as they were. *)
Lemma deliver_not_local maxHoldoff a m a' rr :
  deliver maxHoldoff a m = Some (a', rr) -> rr_t rr <> local ->
  res a' = res a /\ rec a' = rec a /\ oe a' = oe a.
Proof.
  destruct m as [w|w|]; cbn [deliver].
  - destruct (runRemoteRace a w maxHoldoff) as [[[a1 rr1] l]|] eqn:E;
      [|discriminate].
    intros [= <- <-] _. exact (runRemoteRace_keeps _ _ _ _ _ _ E).
  - unfold runLocalRace.
    destruct (errors_Is_Canceled (run_err w));
      [intros [= <- <-]; repeat split|].
    destruct ((exitCode w =? 0) && not_nil (run_err w));
      intros [= <- <-] Ht; [repeat split|].
    exfalso. apply Ht. reflexivity.
  - intros [= <- <-] _. repeat split.
Qed.

Lemma race_finalize_numFallbacks fin s :
  numFallbacks (race_finalize fin s) = numFallbacks s.
Proof.
  unfold race_finalize.
  repeat match goal with
         | |- context [match ?x with _ => _ end] => destruct x
         end; reflexivity.
Qed.

Lemma race_run_finalization maxHoldoff fin s evs winner :
  pc s = finalization winner ->
  race_run maxHoldoff fin s evs = race_finalize fin s.
Proof. intros H. destruct evs; cbn [race_run]; rewrite H; reflexivity. Qed.

Lemma race_run_returned maxHoldoff fin s evs :
  pc s = returned \/ pc s = panicked ->
  race_run maxHoldoff fin s evs = s.
Proof.
  intros [H|H]; destruct evs; cbn [race_run]; rewrite H; reflexivity.
Qed.

Lemma race_run_select maxHoldoff fin s ev evs :
  pc s = first_select \/ (exists w, pc s = second_select w) ->
  race_run maxHoldoff fin s (ev :: evs)
  = race_run maxHoldoff fin (race_select maxHoldoff s ev) evs.
Proof. intros [H|[w H]]; cbn [race_run]; rewrite H; reflexivity. Qed.

Lemma race_select_first maxHoldoff a n c m a1 winner :
  deliver maxHoldoff a m = Some (a1, winner) ->
  race_select maxHoldoff
    {| pc := first_select; act := a; numFallbacks := n; cancel_called := c |}
    (received m)
  = {| pc := if resultType_eqb (rr_t winner) remote
                || resultType_eqb (rr_t winner) canceled
             then second_select winner else finalization winner;
       act := a1; numFallbacks := n;
       cancel_called := negb (resultType_eqb (rr_t winner) canceled) |}.
Proof. intros H. unfold race_select. cbn [pc act]. rewrite H. reflexivity. Qed.

Lemma race_select_second maxHoldoff a n c winner m a2 rr :
  deliver maxHoldoff a m = Some (a2, rr) ->
  race_select maxHoldoff
    {| pc := second_select winner; act := a; numFallbacks := n;
       cancel_called := c |}
    (received m)
  = {| pc := finalization
               (if resultType_eqb (rr_t rr) local then rr else winner);
       act := a2;
       numFallbacks :=
         if resultType_eqb (rr_t winner) canceled
            && resultType_eqb (rr_t rr) local
         then Holdoff.wrap64 (n + 1) else n;
       cancel_called := c |}.
Proof. intros H. unfold race_select. cbn [pc act]. rewrite H. reflexivity. Qed.

Lemma race_select_panic maxHoldoff s m :
  pc s = first_select \/ (exists w, pc s = second_select w) ->
  deliver maxHoldoff (act s) m = None ->
  race_select maxHoldoff s (received m) = panic s.
Proof.
  intros [H|[w H]] Hd; unfold race_select; rewrite H, Hd; reflexivity.
Qed.

Lemma race_select_done maxHoldoff s err :
  pc s = first_select \/ (exists w, pc s = second_select w) ->
  race_select maxHoldoff s (ctx_Done err) = return_error err s.
Proof. intros [H|[w H]]; unfold race_select; rewrite H; reflexivity. Qed.

(** X4.  One call of [race] changes the counter of fallbacks by at most
    one increment, whatever the outcomes and in whatever way it ends (the
    temporary directory cannot be created, the parent scope is canceled, a
    panic).  It increments the counter only when its first outcome was of
    kind [canceled] and its second outcome is the local attempt with the
    command run to its end; [race] has then returned and the result of the
    action is the result of the exit code of the local command. *)
Theorem race_counts_one_fallback :
  forall maxHoldoff createTmpDir fin a n evs,
    let s := race maxHoldoff createTmpDir fin a n evs in
    numFallbacks s = n
    \/ (numFallbacks s = Holdoff.wrap64 (n + 1)
        /\ pc s = returned
        /\ exists m1 a1 winner w evs',
             createTmpDir = None
             /\ evs = received m1 :: received (local_returned w) :: evs'
             /\ deliver maxHoldoff a m1 = Some (a1, winner)
             /\ rr_t winner = canceled
             /\ rr_t (snd (runLocalRace a1 w)) = local
             /\ res (act s) = Some (NewResultFromExitCode (exitCode w))).
Proof.
  intros mh tmp fin a n evs s. subst s. unfold race.
  destruct tmp as [err|]; [left; reflexivity|].
  destruct evs as [|ev1 evs1]; [left; reflexivity|].
  rewrite race_run_select by (left; reflexivity).
  destruct ev1 as [m1|err1].
  2:{ left. rewrite race_select_done by (left; reflexivity).
      rewrite race_run_returned by (left; reflexivity). reflexivity. }
  destruct (deliver mh a m1) as [[a1 winner]|] eqn:Hd1.
  2:{ left. rewrite race_select_panic by (auto; left; reflexivity).
      rewrite race_run_returned by (right; reflexivity). reflexivity. }
  rewrite (race_select_first _ _ _ _ _ _ _ Hd1).
  destruct (resultType_eqb (rr_t winner) remote
            || resultType_eqb (rr_t winner) canceled) eqn:Hw.
  2:{ left. erewrite race_run_finalization by reflexivity.
      rewrite race_finalize_numFallbacks. reflexivity. }
  destruct evs1 as [|ev2 evs2]; [left; reflexivity|].
  rewrite race_run_select by (right; eexists; reflexivity).
  destruct ev2 as [m2|err2].
  2:{ left. rewrite race_select_done by (right; eexists; reflexivity).
      rewrite race_run_returned by (left; reflexivity). reflexivity. }
  destruct (deliver mh a1 m2) as [[a2 rr]|] eqn:Hd2.
  2:{ left. rewrite race_select_panic
        by (auto; right; eexists; reflexivity).
      rewrite race_run_returned by (right; reflexivity). reflexivity. }
  rewrite (race_select_second _ _ _ _ _ _ _ _ Hd2).
  erewrite race_run_finalization by reflexivity.
  rewrite race_finalize_numFallbacks. cbn [numFallbacks].
  destruct (resultType_eqb (rr_t winner) canceled) eqn:Hc; cbn [andb];
    [|left; reflexivity].
  destruct (resultType_eqb (rr_t rr) local) eqn:Hl; [|left; reflexivity].
  right. split; [reflexivity|].
  apply resultType_eqb_eq in Hc, Hl.
  destruct (deliver_local _ _ _ _ _ Hd2 Hl) as [[w ->] Hres].
  cbn [deliver] in Hd2. injection Hd2 as Hrun.
  unfold race_finalize. cbn [pc]. rewrite Hl. cbn [pc act].
  split; [reflexivity|].
  exists m1, a1, winner, w, evs2.
  split; [reflexivity|]. split; [reflexivity|]. split; [exact Hd1|].
  split; [exact Hc|]. rewrite Hrun. cbn [snd]. split; [exact Hl|].
  cbn [res set_oe set_rec]. rewrite Hres. clear Hres Hd1.
  unfold runLocalRace in Hrun.
  destruct (errors_Is_Canceled (run_err w));
    [injection Hrun as _ <-; discriminate|].
  destruct ((exitCode w =? 0) && not_nil (run_err w));
    injection Hrun as _ <-; [discriminate|reflexivity].
Qed.

(** X5.  When both outcomes are of kind [canceled], [race] returns with
    the result and the output of the first outcome: the result of the
    action is the one the first outcome carries, or is left as it was when
    the first outcome carries none, and [a.oe] is the output of the first
    outcome (nil unless a download failed).  What the second outcome
    carries is not used, the counter of fallbacks is unchanged and
    [cancel] has not been called. *)
Theorem race_both_canceled :
  forall maxHoldoff fin a n m1 m2 a1 a2 winner rr evs,
    deliver maxHoldoff a m1 = Some (a1, winner) -> rr_t winner = canceled ->
    deliver maxHoldoff a1 m2 = Some (a2, rr) -> rr_t rr = canceled ->
    let s :=
      race maxHoldoff None fin a n (received m1 :: received m2 :: evs) in
    pc s = returned
    /\ res (act s)
       = match rr_res winner with Some r => Some r | None => res a end
    /\ oe (act s) = rr_oe winner
    /\ numFallbacks s = n
    /\ cancel_called s = false.
Proof.
  intros mh fin a n m1 m2 a1 a2 winner rr evs Hd1 Hw Hd2 Hr s. subst s.
  unfold race.
  rewrite race_run_select by (left; reflexivity).
  rewrite (race_select_first _ _ _ _ _ _ _ Hd1), Hw. cbn [resultType_eqb orb negb].
  rewrite race_run_select by (right; eexists; reflexivity).
  rewrite (race_select_second _ _ _ _ _ _ _ _ Hd2), Hw, Hr.
  cbn [resultType_eqb andb].
  erewrite race_run_finalization by reflexivity.
  unfold race_finalize. cbn [pc]. rewrite Hw. cbn [act numFallbacks cancel_called].
  destruct (deliver_not_local _ _ _ _ _ Hd1) as (R1 & _); [congruence|].
  destruct (deliver_not_local _ _ _ _ _ Hd2) as (R2 & _); [congruence|].
  destruct (rr_res winner) as [r|]; cbn; repeat split; congruence.
Qed.

(** X6.  When the remote attempt wins (the local attempt was canceled)
    and the outputs cannot be moved out of the temporary directory, [race]
    returns with the local-error result of the error of the move; the
    output and the log record of the action are as they were before the
    race: the result, the output and the metadata of the remote execution
    are not recorded. *)
Theorem race_move_failure :
  forall maxHoldoff fin a n m1 m2 a1 a2 winner rr evs err,
    deliver maxHoldoff a m1 = Some (a1, winner) -> rr_t winner = remote ->
    deliver maxHoldoff a1 m2 = Some (a2, rr) -> rr_t rr = canceled ->
    moveOutputsFromTemp fin = Some err ->
    let s :=
      race maxHoldoff None fin a n (received m1 :: received m2 :: evs) in
    pc s = returned
    /\ res (act s) = Some (NewLocalErrorResult (Some err))
    /\ oe (act s) = oe a
    /\ rec (act s) = rec a
    /\ numFallbacks s = n.
Proof.
  intros mh fin a n m1 m2 a1 a2 winner rr evs err Hd1 Hw Hd2 Hr Hm s.
  subst s. unfold race.
  rewrite race_run_select by (left; reflexivity).
  rewrite (race_select_first _ _ _ _ _ _ _ Hd1), Hw. cbn [resultType_eqb orb negb].
  rewrite race_run_select by (right; eexists; reflexivity).
  rewrite (race_select_second _ _ _ _ _ _ _ _ Hd2), Hw, Hr.
  cbn [resultType_eqb andb].
  erewrite race_run_finalization by reflexivity.
  unfold race_finalize. cbn [pc]. rewrite Hw, Hm.
  destruct (deliver_not_local _ _ _ _ _ Hd1) as (_ & R1 & O1); [congruence|].
  destruct (deliver_not_local _ _ _ _ _ Hd2) as (_ & R2 & O2); [congruence|].
  cbn. repeat split; congruence.
Qed.



(** A cache miss whose remote execution fails, and a local pool that
    fails to run the command: the result is the remote error. *)
Lemma race_both_canceled_failures :
  let s :=
    race 1000000000 None sample_finalization sample_action 0
      [received (remote_returned (execution_fails false));
       received (local_returned local_fails)] in
  pc s = returned
  /\ res (act s) = Some remote_error
  /\ oe (act s) = None
  /\ numFallbacks s = 0
  /\ cancel_called s = false.
Proof.
  pose proof (race_both_canceled 1000000000 sample_finalization sample_action
                0 (remote_returned (execution_fails false))
                (local_returned local_fails)) as H.
  specialize (H _ _ _ _ [] ltac:(vm_compute; reflexivity) eq_refl
                ltac:(vm_compute; reflexivity) eq_refl).
  exact H.
Defined.

(** A cache hit whose outputs cannot be moved. *)
Lemma race_move_failure_after_cache_hit :
  let s :=
    race 1000000000 None move_fails sample_action 0
      [received (remote_returned cache_hit); received local_not_started] in
  pc s = returned
  /\ res (act s)
     = Some (NewLocalErrorResult
               (Some (errorString "rename: permission denied")))
  /\ oe (act s) = oe sample_action
  /\ rec (act s) = rec sample_action
  /\ numFallbacks s = 0.
Proof.
  pose proof (race_move_failure 1000000000 move_fails sample_action 0
                (remote_returned cache_hit) local_not_started) as H.
  specialize (H _ _ _ _ [] _ ltac:(vm_compute; reflexivity) eq_refl
                ltac:(vm_compute; reflexivity) eq_refl eq_refl).
  exact H.
Defined.



End Race.

(** ** Cached results *)

Module CachedResult.

Import Command Action.

(** [cachedResultValid]: [VerifyDepsFile] is what
    [a.parser.VerifyDepsFile(a.dFile, a.rec)] returns. *)
Definition cachedResultValid (VerifyDepsFile : string -> bool * option error)
  (a : action) : bool :=
  if String.eqb (dFile a) "" then true
  else
    let '(ok, err) := VerifyDepsFile (dFile a) in
    match err with
    | Some _ => false
    | None => ok
    end.

Definition set_RemoteMetadata (rm : lpb_RemoteMetadata) (r : LogRecord)
  : LogRecord :=
  {| LocalMetadata := LocalMetadata r; RemoteMetadata := Some rm |}.

Definition set_ValidCacheHit (v : bool) (lm : lpb_LocalMetadata)
  : lpb_LocalMetadata :=
  {| ExecutedLocally := ExecutedLocally lm; ValidCacheHit := v;
     UpdatedCache := UpdatedCache lm; LocalResult := LocalResult lm;
     EventTimes := EventTimes lm |}.

(** The error of [fmt.Errorf("%v failed deps validation", ...)]. *)
Definition failed_deps_validation (a : action) : error :=
  errorString (ExecutionID (cmd a) ++ " failed deps validation").

(** [getCachedResult]: [GetCachedResult] is the method of the execution
    context.  [None] is the run-time panic of [a.rec.LocalMetadata] being
    nil where [ValidCacheHit] is assigned. *)
Definition getCachedResult (GetCachedResult : ExecContext -> ExecContext)
  (VerifyDepsFile : string -> bool * option error) (a : action)
  : option action :=
  match execContext a with
  | None => Some a
  | Some ec =>
      let ec := GetCachedResult ec in
      let a := set_execContext (Some ec) a in
      let a :=
        set_rec (set_RemoteMetadata
                   (CommandRemoteMetadataToProto (ecMetadata ec)) (rec a)) a in
      let a := set_res (ecResult ec) a in
      match ecResult ec with
      | None => Some a
      | Some r =>
          if negb (IsOk r) then Some a
          else
            let rm :=
              {| rm_Metadata := ecMetadata ec; RemoteResult := Some r;
                 CacheHit := true |} in
            let a := set_rec (set_RemoteMetadata rm (rec a)) a in
            if negb (cachedResultValid VerifyDepsFile a) then
              Some (set_res
                      (Some (NewLocalErrorResult
                               (Some (failed_deps_validation a)))) a)
            else
              match LocalMetadata (rec a) with
              | None => None
              | Some lm =>
                  Some (set_rec
                          {| LocalMetadata := Some (set_ValidCacheHit true lm);
                             RemoteMetadata := RemoteMetadata (rec a) |} a)
              end
      end
  end.

(** A sample action with an execution context, and with the dependency
    file [dfile] stored by input processing. *)
Definition shallow_action (dfile : string) : action :=
  {| cmd := cmd Race.sample_action;
     rOpt := rOpt Race.sample_action;
     racingBias := racingBias Race.sample_action;
     oe := None;
     rec := rec Race.sample_action;
     execContext := Some Race.fresh_context;
     dFile := dfile;
     res := None |}.

(** *** C3: validation of a cache hit *)

Lemma cachedResultValid_iff VerifyDepsFile a :
  cachedResultValid VerifyDepsFile a = true <->
  dFile a = "" \/ VerifyDepsFile (dFile a) = (true, None).
Proof.
  unfold cachedResultValid.
  destruct (String.eqb_spec (dFile a) "") as [He|Hne]; [tauto|].
  destruct (VerifyDepsFile (dFile a)) as [ok [err|]]; split.
  - discriminate.
  - intros [?|?]; [contradiction|discriminate].
  - intros ->. right. reflexivity.
  - intros [?|H]; [contradiction|]. inversion H. reflexivity.
Qed.

(** C3.  On a remote cache hit (the execution context holds an ok result
    after [GetCachedResult]) the hit is valid exactly when no dependency
    file was stored ([dFile] is empty) or the verification of the deps file
    returns true without an error.  When it is valid, [ValidCacheHit] is
    set and the result of the action is the cached result.  Otherwise, on a
    verification error or a mismatch, the result of the action is a
    local-error result, which is not ok, and the local metadata with its
    [ValidCacheHit] is left as it was. *)
Theorem cache_hit_needs_valid_deps :
  forall GetCachedResult VerifyDepsFile a ec r,
    execContext a = Some ec ->
    ecResult (GetCachedResult ec) = Some r ->
    IsOk r = true ->
    (cachedResultValid VerifyDepsFile a = true <->
     dFile a = "" \/ VerifyDepsFile (dFile a) = (true, None))
    /\ (dFile a = "" \/ VerifyDepsFile (dFile a) = (true, None) ->
        forall lm,
          LocalMetadata (rec a) = Some lm ->
          exists a',
            getCachedResult GetCachedResult VerifyDepsFile a = Some a'
            /\ res a' = Some r
            /\ LocalMetadata (rec a') = Some (set_ValidCacheHit true lm))
    /\ (dFile a <> "" -> VerifyDepsFile (dFile a) <> (true, None) ->
        exists a',
          getCachedResult GetCachedResult VerifyDepsFile a = Some a'
          /\ res a'
             = Some (NewLocalErrorResult (Some (failed_deps_validation a)))
          /\ (forall r', res a' = Some r' -> IsOk r' = false)
          /\ LocalMetadata (rec a') = LocalMetadata (rec a)).
Proof.
  intros G V a ec r Hec Hr Hok.
  split; [apply cachedResultValid_iff|].
  assert (Hv : forall a0, dFile a0 = dFile a ->
                 cachedResultValid V a0 = cachedResultValid V a).
  { intros a0 H0. unfold cachedResultValid. rewrite H0. reflexivity. }
  split.
  - intros Hvalid lm Hlm. apply cachedResultValid_iff in Hvalid.
    unfold getCachedResult. rewrite Hec, Hr, Hok. cbn [negb].
    rewrite Hv by reflexivity. rewrite Hvalid. cbn [negb rec set_rec
      set_RemoteMetadata LocalMetadata set_res set_execContext].
    rewrite Hlm. eexists. split; [reflexivity|]. split; reflexivity.
  - intros Hne Hbad.
    assert (Hinv : cachedResultValid V a = false).
    { destruct (cachedResultValid V a) eqn:E; [|reflexivity].
      apply cachedResultValid_iff in E. tauto. }
    unfold getCachedResult. rewrite Hec, Hr, Hok. cbn [negb].
    rewrite Hv by reflexivity. rewrite Hinv. cbn [negb].
    eexists. split; [reflexivity|]. split; [reflexivity|]. split.
    + intros r' Hr'. inversion Hr'. reflexivity.
    + reflexivity.
Qed.

(** A cache hit for an action with the dependency file [a.d], whose
    verification reports a mismatch: the result is a local error. *)
Lemma cache_hit_needs_valid_deps_mismatch :
  exists a',
    getCachedResult (Race.with_result Race.cache_hit_result)
      (fun _ => (false, None)) (shallow_action "a.d") = Some a'
    /\ res a'
       = Some (NewLocalErrorResult
                 (Some (failed_deps_validation (shallow_action "a.d"))))
    /\ (forall r', res a' = Some r' -> IsOk r' = false)
    /\ LocalMetadata (rec a') = LocalMetadata (rec (shallow_action "a.d")).
Proof.
  destruct (cache_hit_needs_valid_deps
              (Race.with_result Race.cache_hit_result)
              (fun _ => (false, None)) (shallow_action "a.d")
              Race.fresh_context Race.cache_hit_result
              eq_refl eq_refl eq_refl) as (_ & _ & H).
  apply H; discriminate.
Defined.

(** *** Without a valid cache hit *)

(** X15.  Without an execution context [getCachedResult] leaves the action
    as it is.  With one, it panics exactly when a valid cache hit (an ok
    cached result, and no dependency file or a verified one) meets a log
    record without local metadata.  On a cache miss or a cached result that
    is not ok, the result of the action is what the execution context holds
    (none, or that result), the remote metadata are those made from the
    metadata of the execution context, and the local metadata are
    untouched; the dependency file is not looked at. *)
Theorem getCachedResult_without_valid_hit :
  forall GetCachedResult VerifyDepsFile a,
    (execContext a = None ->
     getCachedResult GetCachedResult VerifyDepsFile a = Some a)
    /\ forall ec,
         execContext a = Some ec ->
         (getCachedResult GetCachedResult VerifyDepsFile a = None <->
          exists r,
            ecResult (GetCachedResult ec) = Some r /\ IsOk r = true
            /\ (dFile a = "" \/ VerifyDepsFile (dFile a) = (true, None))
            /\ LocalMetadata (rec a) = None)
         /\ ((forall r, ecResult (GetCachedResult ec) = Some r ->
                        IsOk r = false) ->
             exists a',
               getCachedResult GetCachedResult VerifyDepsFile a = Some a'
               /\ res a' = ecResult (GetCachedResult ec)
               /\ execContext a' = Some (GetCachedResult ec)
               /\ LocalMetadata (rec a') = LocalMetadata (rec a)
               /\ RemoteMetadata (rec a')
                  = Some (CommandRemoteMetadataToProto
                            (ecMetadata (GetCachedResult ec)))).
Proof.
  intros G V a. split.
  - intros H. unfold getCachedResult. rewrite H. reflexivity.
  - intros ec Hec.
    assert (Hv : forall a0, dFile a0 = dFile a ->
                   cachedResultValid V a0 = cachedResultValid V a).
    { intros a0 H0. unfold cachedResultValid. rewrite H0. reflexivity. }
    unfold getCachedResult. rewrite Hec. cbv zeta.
    destruct (ecResult (G ec)) as [r|] eqn:Hr.
    2:{ split.
        - split; [discriminate|]. intros (r & H & _). discriminate.
        - intros _. eexists. split; [reflexivity|]. cbn.
          rewrite ?Hr. repeat split. }
    destruct (IsOk r) eqn:Hok; cbn [negb].
    2:{ split.
        - split; [discriminate|]. intros (r' & [= <-] & H & _). congruence.
        - intros _. eexists. split; [reflexivity|]. cbn.
          rewrite ?Hr. repeat split. }
    rewrite Hv by reflexivity.
    destruct (cachedResultValid V a) eqn:Hvalid; cbn [negb].
    + apply cachedResultValid_iff in Hvalid.
      cbn [rec set_rec set_RemoteMetadata LocalMetadata set_res
             set_execContext].
      destruct (LocalMetadata (rec a)) as [lm|] eqn:Hlm.
      * split.
        -- split; [discriminate|]. intros (_ & _ & _ & _ & H). discriminate.
        -- intros Hno. specialize (Hno r eq_refl). congruence.
      * split.
        -- split; [|reflexivity]. intros _. exists r. repeat split.
           exact Hok. exact Hvalid.
        -- intros Hno. specialize (Hno r eq_refl). congruence.
    + split.
      * split; [discriminate|]. intros (_ & _ & _ & Hval & _).
        apply cachedResultValid_iff in Hval. congruence.
      * intros Hno. specialize (Hno r eq_refl). congruence.
Qed.

End CachedResult.

(** ** Restoring the mtimes of unchanged outputs *)

Module Mtime.

Import Command Action.

Local Open Scope Z_scope.

(** [digest.Digest]. *)
Record Digest := { Hash : string; Size : Z }.

Definition Digest_eqb (x y : Digest) : bool :=
  String.eqb (Hash x) (Hash y) && (Size x =? Size y).

(** [filemetadata.Metadata]. *)
Record FileMetadata := {
  fm_Digest : Digest;
  fm_MTime : Z;
  fm_IsDirectory : bool;
  fm_Err : option error
}.

(** The files on disk, with their mtimes, and the entries of the file
    metadata cache [a.fmc]. *)
Record Files := {
  mtimes : gmap string Z;
  fmc : gmap string FileMetadata
}.

(** What the collaborators of [restoreUnchangedOutputMtimes] do:
    [GetOutputFileDigests] returns the digests of the outputs, in the order
    in which [range] visits them, or an error; [Chtimes] and [fmc_Update]
    return the error of [os.Chtimes] and of [a.fmc.Update] for a path;
    [fmc_Compute] is the metadata that [a.fmc.Get] computes from the disk
    for a path that has no entry; [Join] is [filepath.Join]. *)
Record Collaborators := {
  GetOutputFileDigests : list (string * Digest) + error;
  Chtimes : string -> option error;
  fmc_Compute : string -> FileMetadata;
  fmc_Update : string -> option error;
  Join : list string -> string
}.

(** [a.fmc.Get]. *)
Definition fmc_Get (w : Collaborators) (fs : Files) (path : string)
  : FileMetadata :=
  match fmc fs !! path with
  | Some m => m
  | None => fmc_Compute w path
  end.

(** The path of an output below the working directory. *)
Definition output_path (w : Collaborators) (c : Cmd) (out : string) : string :=
  Join w [ExecRoot c; WorkingDir c; out].

(** What the body of the loop does to the files for an unchanged output,
    once [os.Chtimes] has succeeded. *)
Definition restore_one (w : Collaborators) (absPath : string)
  (fInfo : FileMetadata) (fs : Files) : Files :=
  let fs1 :=
    {| mtimes := <[absPath := fm_MTime fInfo]> (mtimes fs); fmc := fmc fs |} in
  let m := fmc_Get w fs1 absPath in
  let m :=
    {| fm_Digest := fm_Digest fInfo; fm_MTime := fm_MTime fInfo;
       fm_IsDirectory := fm_IsDirectory m; fm_Err := fm_Err m |} in
  match fmc_Update w absPath with
  | Some _ => fs1
  | None => {| mtimes := mtimes fs1; fmc := <[absPath := m]> (fmc fs1) |}
  end.

(** The loop [for out, d := range outDigests]; the [return nil] after a
    failed [os.Chtimes] leaves it. *)
Fixpoint restore_loop (w : Collaborators) (c : Cmd)
  (preExecOutsInfo : gmap string FileMetadata)
  (outDigests : list (string * Digest)) (fs : Files) : Files :=
  match outDigests with
  | [] => fs
  | (out, d) :: rest =>
      match preExecOutsInfo !! out with
      | Some fInfo =>
          if Digest_eqb (fm_Digest fInfo) d then
            match Chtimes w (output_path w c out) with
            | Some _ => fs
            | None =>
                restore_loop w c preExecOutsInfo rest
                  (restore_one w (output_path w c out) fInfo fs)
            end
          else restore_loop w c preExecOutsInfo rest fs
      | None => restore_loop w c preExecOutsInfo rest fs
      end
  end.

(** [restoreUnchangedOutputMtimes]: the files afterwards and the error
    returned. *)
Definition restoreUnchangedOutputMtimes (w : Collaborators) (a : action)
  (preExecOutsInfo : gmap string FileMetadata) (fs : Files)
  : Files * option error :=
  match GetOutputFileDigests w with
  | inr err =>
      (fs, Some (errorString
                   (ExecutionID (cmd a)
                    ++ ": Could not get output digests. Unchanged output mtimes may NOT be preserved: "
                    ++ Error err)))
  | inl outDigests =>
      (restore_loop w (cmd a) preExecOutsInfo outDigests fs, None)
  end.

(** An output is unchanged when its snapshot exists and has the digest
    that the execution context reports. *)
Definition unchanged (preExecOutsInfo : gmap string FileMetadata)
  (out : string) (d : Digest) : option FileMetadata :=
  match preExecOutsInfo !! out with
  | Some fInfo => if Digest_eqb (fm_Digest fInfo) d then Some fInfo else None
  | None => None
  end.

(** *** Two unchanged outputs

    The outputs [a.o] and [b.o] of an action with working directory
    [/src/out] have the mtimes 100 and 200 before the execution; the move
    of the remote outputs has given both the mtime 900. *)
Definition digest_a : Digest := {| Hash := "aa11"; Size := 10 |}.
Definition digest_b : Digest := {| Hash := "bb22"; Size := 20 |}.

Definition snapshot : gmap string FileMetadata :=
  {[ "a.o" := {| fm_Digest := digest_a; fm_MTime := 100;
                 fm_IsDirectory := false; fm_Err := None |};
     "b.o" := {| fm_Digest := digest_b; fm_MTime := 200;
                 fm_IsDirectory := false; fm_Err := None |} ]}.

Definition after_move : Files :=
  {| mtimes := {[ "/src/out/a.o" := 900; "/src/out/b.o" := 900 ]};
     fmc := ∅ |}.

Definition two_outputs : action :=
  {| cmd := {| ExecutionID := "a1b2"; ExecRoot := "/src"; WorkingDir := "out";
               OutputFiles := ["a.o"; "b.o"]; OutputDirs := [] |};
     rOpt := {| PreserveUnchangedOutputMtime := true; Wrapper := "" |};
     racingBias := Holdoff.bias_half;
     oe := None;
     rec := NewLogRecord;
     execContext := Some Race.fresh_context;
     dFile := "";
     res := None |}.

(** [os.Chtimes] fails for the paths in [denied]; the digests are visited
    in the order [outs]. *)
Definition chtimes_denied (denied : list string)
  (outs : list (string * Digest)) : Collaborators :=
  {| GetOutputFileDigests := inl outs;
     Chtimes := fun path =>
       if existsb (String.eqb path) denied
       then Some (errorString "chtimes: operation not permitted")
       else None;
     fmc_Compute := fun _ =>
       {| fm_Digest := {| Hash := ""; Size := 0 |}; fm_MTime := 900;
          fm_IsDirectory := false; fm_Err := None |};
     fmc_Update := fun _ => None;
     Join := PathUtil.Join_posix |}.

(** *** What the loop restores *)

Lemma restore_loop_elsewhere w c pre outs fs path :
  path ∉ map (fun od => output_path w c (fst od)) outs ->
  mtimes (restore_loop w c pre outs fs) !! path = mtimes fs !! path
  /\ fmc (restore_loop w c pre outs fs) !! path = fmc fs !! path.
Proof.
  revert fs. induction outs as [|[out d] rest IH]; intros fs Hnot;
    [split; reflexivity|].
  cbn [map fst] in Hnot. apply not_elem_of_cons in Hnot as [Hne Hnot].
  cbn [restore_loop].
  destruct (pre !! out) as [fInfo|]; [|apply IH; exact Hnot].
  destruct (Digest_eqb (fm_Digest fInfo) d); [|apply IH; exact Hnot].
  destruct (Chtimes w (output_path w c out)); [split; reflexivity|].
  destruct (IH (restore_one w (output_path w c out) fInfo fs) Hnot)
    as [-> ->].
  unfold restore_one.
  destruct (fmc_Update w (output_path w c out)); cbn [mtimes fmc];
    rewrite ?lookup_insert_ne by congruence; split; reflexivity.
Qed.

(** When [os.Chtimes] and [a.fmc.Update] fail for no output and the outputs
    have distinct paths, every unchanged output gets the mtime of its
    snapshot, on disk and in the file metadata cache, with the digest of
    the snapshot. *)
Lemma restore_all_without_failure w c pre outs fs :
  (forall od, od ∈ outs -> Chtimes w (output_path w c (fst od)) = None) ->
  (forall od, od ∈ outs -> fmc_Update w (output_path w c (fst od)) = None) ->
  NoDup (map (fun od => output_path w c (fst od)) outs) ->
  forall out d fInfo,
    (out, d) ∈ outs -> unchanged pre out d = Some fInfo ->
    mtimes (restore_loop w c pre outs fs) !! output_path w c out
    = Some (fm_MTime fInfo)
    /\ exists m,
         fmc (restore_loop w c pre outs fs) !! output_path w c out = Some m
         /\ fm_Digest m = fm_Digest fInfo /\ fm_MTime m = fm_MTime fInfo.
Proof.
  revert fs. induction outs as [|[out0 d0] rest IH];
    intros fs Hch Hup Hnd out d fInfo Hin Hun; [inversion Hin|].
  cbn [map fst] in Hnd. apply NoDup_cons in Hnd as [Hnot Hnd].
  assert (Hch0 := Hch (out0, d0) ltac:(left)).
  assert (Hup0 := Hup (out0, d0) ltac:(left)).
  cbn [fst] in Hch0, Hup0.
  assert (Hch' : forall od, od ∈ rest ->
                   Chtimes w (output_path w c (fst od)) = None)
    by (intros od Hod; apply Hch; right; exact Hod).
  assert (Hup' : forall od, od ∈ rest ->
                   fmc_Update w (output_path w c (fst od)) = None)
    by (intros od Hod; apply Hup; right; exact Hod).
  apply elem_of_cons in Hin as [Heq|Hin].
  - inversion Heq; subst out0 d0. clear Heq.
    unfold unchanged in Hun. cbn [restore_loop].
    destruct (pre !! out) as [fI|]; [|discriminate].
    destruct (Digest_eqb (fm_Digest fI) d); [|discriminate].
    inversion Hun; subst fI. rewrite Hch0.
    destruct (restore_loop_elsewhere w c pre rest
                (restore_one w (output_path w c out) fInfo fs)
                (output_path w c out) Hnot) as [-> ->].
    unfold restore_one. rewrite Hup0. cbn [mtimes fmc].
    rewrite !lookup_insert_eq. split; [reflexivity|].
    eexists. split; [reflexivity|]. split; reflexivity.
  - cbn [restore_loop].
    destruct (pre !! out0) as [fI|]; [|apply (IH fs Hch' Hup' Hnd _ d); assumption].
    destruct (Digest_eqb (fm_Digest fI) d0);
      [|apply (IH fs Hch' Hup' Hnd _ d); assumption].
    rewrite Hch0. apply (IH _ Hch' Hup' Hnd _ d); assumption.
Qed.

(** C6 at two unchanged outputs, when [os.Chtimes] fails for [a.o] and
    would succeed for [b.o].  If the loop visits [a.o] first, it returns at
    the failure: [b.o] keeps the mtime 900 of the move and gets no entry in
    the file metadata cache, although its snapshot has the digest that the
    execution context reports; no error is returned.  If the loop visits
    [b.o] first, [b.o] gets its mtime 200 back. *)
Theorem restore_stops_at_first_failure :
  let denied := chtimes_denied ["/src/out/a.o"] in
  let a_first :=
    restoreUnchangedOutputMtimes
      (denied [("a.o", digest_a); ("b.o", digest_b)])
      two_outputs snapshot after_move in
  let b_first :=
    restoreUnchangedOutputMtimes
      (denied [("b.o", digest_b); ("a.o", digest_a)])
      two_outputs snapshot after_move in
  (exists fInfo,
      unchanged snapshot "b.o" digest_b = Some fInfo /\ fm_MTime fInfo = 200)
  /\ Chtimes (denied []) "/src/out/b.o" = None
  /\ snd a_first = None
  /\ mtimes (fst a_first) !! "/src/out/b.o" = Some 900
  /\ fmc (fst a_first) !! "/src/out/b.o" = None
  /\ snd b_first = None
  /\ mtimes (fst b_first) !! "/src/out/b.o" = Some 200
  /\ (exists m, fmc (fst b_first) !! "/src/out/b.o" = Some m
                /\ fm_Digest m = digest_b /\ fm_MTime m = 200).
Proof.
  cbv zeta. split; [eexists; split; vm_compute; reflexivity|].
  repeat split; try (vm_compute; reflexivity).
  eexists. split; [vm_compute; reflexivity|]. split; reflexivity.
Qed.

(** *** What is restored, and what is left alone *)

Lemma Digest_eqb_eq x y : Digest_eqb x y = true <-> x = y.
Proof.
  unfold Digest_eqb. destruct x as [hx sx], y as [hy sy]. cbn.
  rewrite andb_true_iff, String.eqb_eq, Z.eqb_eq. split.
  - intros [-> ->]. reflexivity.
  - intros [= -> ->]. split; reflexivity.
Qed.

Lemma unchanged_iff pre out d fInfo :
  unchanged pre out d = Some fInfo <->
  pre !! out = Some fInfo /\ fm_Digest fInfo = d.
Proof.
  unfold unchanged. destruct (pre !! out) as [fI|]; [|split; [discriminate|intros [? _]; discriminate]].
  destruct (Digest_eqb (fm_Digest fI) d) eqn:E.
  - apply Digest_eqb_eq in E. split.
    + intros [= ->]. split; [reflexivity|exact E].
    + intros [[= ->] _]. reflexivity.
  - split; [discriminate|]. intros [[= ->] H].
    apply Digest_eqb_eq in H. congruence.
Qed.

(** The loop leaves a path alone unless it is the path of an unchanged
    output. *)
Lemma restore_loop_unchanged_only w c pre outs fs path :
  (forall out d fInfo,
      (out, d) ∈ outs -> unchanged pre out d = Some fInfo ->
      output_path w c out <> path) ->
  mtimes (restore_loop w c pre outs fs) !! path = mtimes fs !! path
  /\ fmc (restore_loop w c pre outs fs) !! path = fmc fs !! path.
Proof.
  revert fs. induction outs as [|[out d] rest IH]; intros fs Hnot;
    [split; reflexivity|].
  assert (Hrest : forall out0 d0 fInfo,
             (out0, d0) ∈ rest -> unchanged pre out0 d0 = Some fInfo ->
             output_path w c out0 <> path)
    by (intros o0 d0 f0 Hin; apply Hnot; right; exact Hin).
  cbn [restore_loop].
  pose proof (Hnot out d) as Hhead. unfold unchanged in Hhead.
  destruct (pre !! out) as [fInfo|]; [|apply IH; exact Hrest].
  destruct (Digest_eqb (fm_Digest fInfo) d); [|apply IH; exact Hrest].
  destruct (Chtimes w (output_path w c out)); [split; reflexivity|].
  destruct (IH (restore_one w (output_path w c out) fInfo fs) Hrest)
    as [-> ->].
  specialize (Hhead fInfo ltac:(left) eq_refl).
  unfold restore_one.
  destruct (fmc_Update w (output_path w c out)); cbn [mtimes fmc];
    rewrite ?lookup_insert_ne by congruence; split; reflexivity.
Qed.

(** X13.  [restoreUnchangedOutputMtimes] returns an error only when the
    digests of the outputs cannot be got, and then it touches nothing.
    Otherwise it returns no error, and the only paths whose mtime or whose
    entry in the file metadata cache it can change are the paths of
    unchanged outputs (outputs with a snapshot whose digest, hash and size,
    is the digest that the execution context reports). *)
Theorem restore_touches_unchanged_outputs_only :
  forall w a pre fs,
    let after := restoreUnchangedOutputMtimes w a pre fs in
    (forall err,
        GetOutputFileDigests w = inr err ->
        fst after = fs /\ snd after <> None)
    /\ forall outs,
         GetOutputFileDigests w = inl outs ->
         snd after = None
         /\ forall path,
              (forall out d fInfo,
                  (out, d) ∈ outs ->
                  pre !! out = Some fInfo -> fm_Digest fInfo = d ->
                  Join w [ExecRoot (cmd a); WorkingDir (cmd a); out]
                  <> path) ->
              mtimes (fst after) !! path = mtimes fs !! path
              /\ fmc (fst after) !! path = fmc fs !! path.
Proof.
  intros w a pre fs after. subst after. unfold restoreUnchangedOutputMtimes.
  split.
  - intros err ->. cbn. split; [reflexivity|discriminate].
  - intros outs ->. cbn [fst snd]. split; [reflexivity|].
    intros path Hnot. apply restore_loop_unchanged_only.
    intros out d fInfo Hin Hun. apply unchanged_iff in Hun as [Hp Hd].
    exact (Hnot out d fInfo Hin Hp Hd).
Qed.

(** With [os.Chtimes] failing for no output, every unchanged output gets
    the mtime of its snapshot; its cache entry gets the digest and the
    mtime of the snapshot unless [a.fmc.Update] fails for it. *)
Lemma restore_loop_all w c pre outs fs :
  (forall od, od ∈ outs -> Chtimes w (output_path w c (fst od)) = None) ->
  NoDup (map (fun od => output_path w c (fst od)) outs) ->
  forall out d fInfo,
    (out, d) ∈ outs -> unchanged pre out d = Some fInfo ->
    mtimes (restore_loop w c pre outs fs) !! output_path w c out
    = Some (fm_MTime fInfo)
    /\ (fmc_Update w (output_path w c out) = None ->
        exists m,
          fmc (restore_loop w c pre outs fs) !! output_path w c out = Some m
          /\ fm_Digest m = fm_Digest fInfo /\ fm_MTime m = fm_MTime fInfo)
    /\ (fmc_Update w (output_path w c out) <> None ->
        fmc (restore_loop w c pre outs fs) !! output_path w c out
        = fmc fs !! output_path w c out).
Proof.
  revert fs. induction outs as [|[out0 d0] rest IH];
    intros fs Hch Hnd out d fInfo Hin Hun; [inversion Hin|].
  cbn [map fst] in Hnd. apply NoDup_cons in Hnd as [Hnot Hnd].
  assert (Hch0 := Hch (out0, d0) ltac:(left)). cbn [fst] in Hch0.
  assert (Hch' : forall od, od ∈ rest ->
                   Chtimes w (output_path w c (fst od)) = None)
    by (intros od Hod; apply Hch; right; exact Hod).
  apply elem_of_cons in Hin as [Heq|Hin].
  - inversion Heq; subst out0 d0. clear Heq.
    unfold unchanged in Hun. cbn [restore_loop].
    destruct (pre !! out) as [fI|]; [|discriminate].
    destruct (Digest_eqb (fm_Digest fI) d); [|discriminate].
    inversion Hun; subst fI. rewrite Hch0.
    destruct (restore_loop_elsewhere w c pre rest
                (restore_one w (output_path w c out) fInfo fs)
                (output_path w c out) Hnot) as [-> ->].
    unfold restore_one.
    destruct (fmc_Update w (output_path w c out)) as [e|]; cbn [mtimes fmc].
    + rewrite lookup_insert_eq. split; [reflexivity|].
      split; [discriminate|reflexivity].
    + rewrite !lookup_insert_eq. split; [reflexivity|]. split.
      * intros _. eexists. split; [reflexivity|]. split; reflexivity.
      * congruence.
  - assert (Hne : output_path w c out0 <> output_path w c out).
    { intros Heq. apply Hnot. rewrite Heq.
      apply (list_elem_of_fmap_2 (fun od => output_path w c (fst od))
               rest (out, d)). exact Hin. }
    cbn [restore_loop].
    destruct (pre !! out0) as [fI|]; [|apply (IH fs Hch' Hnd _ d); assumption].
    destruct (Digest_eqb (fm_Digest fI) d0);
      [|apply (IH fs Hch' Hnd _ d); assumption].
    rewrite Hch0.
    destruct (IH (restore_one w (output_path w c out0) fI fs) Hch' Hnd
                out d fInfo Hin Hun) as (H1 & H2 & H3).
    split; [exact H1|]. split; [exact H2|].
    intros Hu. rewrite (H3 Hu). unfold restore_one.
    destruct (fmc_Update w (output_path w c out0)); cbn [fmc];
      rewrite ?lookup_insert_ne by congruence; reflexivity.
Qed.

(** X14.  When [os.Chtimes] fails for no output (and the outputs have
    distinct paths), [restoreUnchangedOutputMtimes] gives every unchanged
    output the mtime of its snapshot.  A failure of [a.fmc.Update] does not
    stop it: the cache entry of an unchanged output gets the digest and the
    mtime of the snapshot when [a.fmc.Update] succeeds for it, and is left
    as it was when it fails. *)
Theorem restore_without_chtimes_failure :
  forall w a pre fs outs,
    GetOutputFileDigests w = inl outs ->
    (forall out d,
        (out, d) ∈ outs ->
        Chtimes w (Join w [ExecRoot (cmd a); WorkingDir (cmd a); out])
        = None) ->
    NoDup (map (fun od => Join w [ExecRoot (cmd a); WorkingDir (cmd a);
                                  fst od]) outs) ->
    let after := restoreUnchangedOutputMtimes w a pre fs in
    snd after = None
    /\ forall out d fInfo,
         (out, d) ∈ outs -> pre !! out = Some fInfo -> fm_Digest fInfo = d ->
         let path := Join w [ExecRoot (cmd a); WorkingDir (cmd a); out] in
         mtimes (fst after) !! path = Some (fm_MTime fInfo)
         /\ (fmc_Update w path = None ->
             exists m,
               fmc (fst after) !! path = Some m
               /\ fm_Digest m = fm_Digest fInfo
               /\ fm_MTime m = fm_MTime fInfo)
         /\ (fmc_Update w path <> None ->
             fmc (fst after) !! path = fmc fs !! path).
Proof.
  intros w a pre fs outs Hd Hch Hnd after. subst after.
  unfold restoreUnchangedOutputMtimes. rewrite Hd. cbn [fst snd].
  split; [reflexivity|].
  intros out d fInfo Hin Hp Hdig. cbv zeta.
  apply (restore_loop_all w (cmd a) pre outs fs) with (d := d).
  - intros [o0 d0] H0. apply (Hch o0 d0 H0).
  - exact Hnd.
  - exact Hin.
  - apply unchanged_iff. split; assumption.
Qed.

(** Both outputs of [two_outputs] are restored when [os.Chtimes] fails for
    none. *)
Lemma restore_without_chtimes_failure_two_outputs :
  let after :=
    restoreUnchangedOutputMtimes
      (chtimes_denied [] [("a.o", digest_a); ("b.o", digest_b)])
      two_outputs snapshot after_move in
  snd after = None
  /\ mtimes (fst after) !! "/src/out/a.o" = Some 100
  /\ mtimes (fst after) !! "/src/out/b.o" = Some 200.
Proof.
  intros after.
  assert (Hnd : NoDup ["/src/out/a.o"; "/src/out/b.o"]).
  { apply NoDup_cons. split; [|apply NoDup_singleton].
    intros H. apply list_elem_of_singleton in H. discriminate. }
  destruct (restore_without_chtimes_failure
              (chtimes_denied [] [("a.o", digest_a); ("b.o", digest_b)])
              two_outputs snapshot after_move
              [("a.o", digest_a); ("b.o", digest_b)] eq_refl
              ltac:(intros; reflexivity) Hnd) as [Hs Hall].
  split; [exact Hs|]. split.
  - apply (Hall "a.o" digest_a
             {| fm_Digest := digest_a; fm_MTime := 100;
                fm_IsDirectory := false; fm_Err := None |});
      [left|reflexivity|reflexivity].
  - apply (Hall "b.o" digest_b
             {| fm_Digest := digest_b; fm_MTime := 200;
                fm_IsDirectory := false; fm_Err := None |});
      [right; left|reflexivity|reflexivity].
Defined.

End Mtime.

(** ** Duplicating an action *)

Module Duplicate.

Local Open Scope nat_scope.

(** *** Objects and pointers

    [duplicate] copies structs by value and pointers, maps and interface
    values by reference, so actions are kept in a store of objects.  A
    struct is the map of its fields; a field that is absent has the zero
    value of its type. *)
Abbreviation loc := nat (only parsing).

Inductive value :=
| Nil
| Ptr (l : loc)
| Scalar (s : string).

Inductive object :=
| Struct (fields : gmap string value)
| StringMap (m : gmap string string)
| TimeMap (m : gmap string Z)
| RecordingOutErr (out err : string).

(** The objects allocated so far, and the next free location. *)
Record heap := {
  objects : gmap loc object;
  next : loc
}.

Definition get (fields : gmap string value) (f : string) : value :=
  match fields !! f with
  | Some v => v
  | None => Nil
  end.

(** *** Programs on the store

    A program returns a result and a store, or stops with a run-time panic
    ([None]). *)
Definition M (A : Type) : Type := heap -> option (A * heap).

Definition ret {A : Type} (x : A) : M A := fun h => Some (x, h).

Definition bind {A B : Type} (m : M A) (k : A -> M B) : M B :=
  fun h =>
    match m h with
    | Some (x, h') => k x h'
    | None => None
    end.

Definition panic {A : Type} : M A := fun _ => None.

Notation "x <- m ;; k" := (bind m (fun x => k))
  (at level 100, m at next level, right associativity).
Notation "m ;;; k" := (bind m (fun _ => k))
  (at level 100, right associativity).

(** The store with a new object, and with another object at [l]. *)
Definition push (h : heap) (o : object) : heap :=
  {| objects := <[next h := o]> (objects h); next := S (next h) |}.

Definition put (h : heap) (l : loc) (o : object) : heap :=
  {| objects := <[l := o]> (objects h); next := next h |}.

(** [new(T)], [&T{...}], [make(map...)]: a new object. *)
Definition alloc (o : object) : M loc :=
  fun h => Some (next h, push h o).

Definition load (l : loc) : M object :=
  fun h =>
    match objects h !! l with
    | Some o => Some (o, h)
    | None => None
    end.

Definition load_struct (l : loc) : M (gmap string value) :=
  o <- load l ;;
  match o with
  | Struct fields => ret fields
  | _ => panic
  end.

Definition store (l : loc) (o : object) : M unit :=
  fun h =>
    match objects h !! l with
    | Some _ => Some (tt, put h l o)
    | None => None
    end.

(** [p.f = v]. *)
Definition store_field (l : loc) (f : string) (v : value) : M unit :=
  fields <- load_struct l ;;
  store l (Struct (<[f := v]> fields)).

(** [var t T; if p != nil { t = T( *p) }] and [&t]: a new struct with the
    value of the struct behind [p], or with the zero value. *)
Definition copy (p : value) : M loc :=
  o <- match p with
       | Ptr l => load l
       | _ => ret (Struct ∅)
       end ;;
  alloc o.

(** *** [duplicate] *)

Definition EventProxyExecution : string := "ProxyExecution".

(** [trec := logger.NewLogRecord()] and the [if a.rec != nil] that follows
    it: [rec] is [a.rec] and [now] is [time.Now()]. *)
Definition new_record (rec : value) (now : Z) : M loc :=
  trec <- alloc (Struct ∅) ;;
  match rec with
  | Ptr r =>
      fr <- load_struct r ;;
      ev <- alloc (TimeMap {[ EventProxyExecution := now ]}) ;;
      match get fr "LocalMetadata" with
      | Ptr lm =>
          flm <- load_struct lm ;;
          newlm <- alloc (Struct {[ "EventTimes" := Ptr ev;
                                    "Environment" := get flm "Environment";
                                    "Labels" := get flm "Labels" ]}) ;;
          store_field trec "LocalMetadata" (Ptr newlm) ;;;
          ret trec
      | _ => panic
      end
  | _ => ret trec
  end.

(** The body of the loop of [duplicate]. *)
Definition duplicate_one (a : loc) (now : Z) : M loc :=
  fa <- load_struct a ;;
  tcmd <- copy (get fa "cmd") ;;
  tforecast <- copy (get fa "forecast") ;;
  trec <- new_record (get fa "rec") now ;;
  trOpt <- copy (get fa "rOpt") ;;
  tlOpt <- copy (get fa "lOpt") ;;
  newAction <- alloc (Struct ∅) ;;
  store newAction (Struct fa) ;;;
  store_field newAction "cmd" (Ptr tcmd) ;;;
  store_field newAction "forecast" (Ptr tforecast) ;;;
  store_field newAction "rec" (Ptr trec) ;;;
  store_field newAction "rOpt" (Ptr trOpt) ;;;
  store_field newAction "lOpt" (Ptr tlOpt) ;;;
  oe <- alloc (RecordingOutErr "" "") ;;
  store_field newAction "oe" (Ptr oe) ;;;
  ret newAction.

(** The loop [for i := 0; i < n; i++] with [k] iterations to go; [clock i]
    is the time of iteration [i]. *)
Fixpoint duplicate_loop (a : loc) (clock : nat -> Z) (i k : nat)
  (res : list loc) : M (list loc) :=
  match k with
  | O => ret res
  | S k' =>
      newAction <- duplicate_one a (clock i) ;;
      duplicate_loop a clock (S i) k' (res ++ [newAction])%list
  end.

(** [duplicate]. *)
Definition duplicate (a : value) (n : Z) (clock : nat -> Z) : M (list loc) :=
  match a with
  | Ptr l => duplicate_loop l clock 0 (Z.to_nat n) []
  | _ => ret []
  end.

(** *** Reading the store *)

(** The field [f] of the struct at [l]. *)
Definition field (h : heap) (l : loc) (f : string) : value :=
  match objects h !! l with
  | Some (Struct fields) => get fields f
  | _ => Nil
  end.

Definition target (h : heap) (l : loc) (f : string) : option loc :=
  match field h l f with
  | Ptr p => Some p
  | _ => None
  end.

(** The object that the pointer field [f] of the struct at [l] points to. *)
Definition behind (h : heap) (l : loc) (f : string) : option object :=
  match target h l f with
  | Some p => objects h !! p
  | None => None
  end.

(** The objects that make up an action: the action struct, its
    command, forecast, log record, option messages and output sink, and the
    local metadata and the event times of the log record. *)
Definition own (h : heap) (d : loc) : list loc :=
  (d :: omap (target h d) ["cmd"; "forecast"; "rec"; "rOpt"; "lOpt"; "oe"]
     ++ match target h d "rec" with
        | Some r =>
            omap (target h r) ["LocalMetadata"]
            ++ match target h r "LocalMetadata" with
               | Some lm => omap (target h lm) ["EventTimes"]
               | None => []
               end
        | None => []
        end)%list.

(** [d.rec.LocalMetadata.Environment], read and written. *)
Definition Environment (h : heap) (d : loc) : option (gmap string string) :=
  match target h d "rec" with
  | Some r =>
      match target h r "LocalMetadata" with
      | Some lm =>
          match behind h lm "Environment" with
          | Some (StringMap m) => Some m
          | _ => None
          end
      | None => None
      end
  | None => None
  end.

(** [d.rec.LocalMetadata.Environment[k] = v]. *)
Definition setenv (d : loc) (k v : string) : M unit :=
  fd <- load_struct d ;;
  match get fd "rec" with
  | Ptr r =>
      fr <- load_struct r ;;
      match get fr "LocalMetadata" with
      | Ptr lm =>
          flm <- load_struct lm ;;
          match get flm "Environment" with
          | Ptr e =>
              o <- load e ;;
              match o with
              | StringMap m => store e (StringMap (<[k := v]> m))
              | _ => panic
              end
          | _ => panic
          end
      | _ => panic
      end
  | _ => panic
  end.

(** *** A sample store

    An action at location 0 with a command (1), a forecast (2), a log
    record (3) whose local metadata (4) has an environment (5) and labels
    (6), remote options (7) and local options (8). *)
Definition sample_heap : heap :=
  {| objects :=
       {[ 0 := Struct {[ "cmd" := Ptr 1; "forecast" := Ptr 2;
                             "rec" := Ptr 3; "rOpt" := Ptr 7;
                             "lOpt" := Ptr 8; "racingBias" := Scalar "0.5" ]};
          1 := Struct {[ "ExecRoot" := Scalar "/src" ]};
          2 := Struct ∅;
          3 := Struct {[ "LocalMetadata" := Ptr 4 ]};
          4 := Struct {[ "Environment" := Ptr 5; "Labels" := Ptr 6 ]};
          5 := StringMap {[ "PATH" := "/usr/bin" ]};
          6 := StringMap {[ "type" := "compile" ]};
          7 := Struct {[ "Wrapper" := Scalar "" ]};
          8 := Struct ∅ ]};
     next := 9 |}.

(** The same store, with a log record that has no local metadata. *)
Definition sample_heap_no_metadata : heap :=
  {| objects := <[3 := Struct ∅]> (objects sample_heap);
     next := 9 |}.

(** *** What a duplicate is *)

(** The object that [copy] allocates for the pointer [p] of the store [h0]. *)
Definition source (h0 : heap) (p : value) : option object :=
  match p with
  | Ptr l => objects h0 !! l
  | _ => Some (Struct ∅)
  end.

(** The locations of the parts of a duplicate. *)
Record parts := {
  p_cmd : loc;
  p_forecast : loc;
  p_rec : loc;
  p_rOpt : loc;
  p_lOpt : loc;
  p_oe : loc;
  p_meta : option (loc * loc)
}.

Definition parts_list (d : loc) (p : parts) : list loc :=
  (d :: [p_cmd p; p_forecast p; p_rec p; p_rOpt p; p_lOpt p; p_oe p]
     ++ match p_meta p with
        | Some (lm, ev) => [lm; ev]
        | None => []
        end)%list.

(** The fields of a duplicate of an action with the fields [fa]. *)
Definition duplicate_fields (fa : gmap string value) (p : parts)
  : gmap string value :=
  <["oe" := Ptr (p_oe p)]>
    (<["lOpt" := Ptr (p_lOpt p)]>
       (<["rOpt" := Ptr (p_rOpt p)]>
          (<["rec" := Ptr (p_rec p)]>
             (<["forecast" := Ptr (p_forecast p)]>
                (<["cmd" := Ptr (p_cmd p)]> fa))))).

(** The log record of a duplicate. *)
Definition record_holds (h0 h : heap) (fa : gmap string value) (p : parts)
  : Prop :=
  match get fa "rec", p_meta p with
  | Ptr r, Some (lm, ev) =>
      exists fr alm flm now,
        objects h0 !! r = Some (Struct fr)
        /\ get fr "LocalMetadata" = Ptr alm
        /\ objects h0 !! alm = Some (Struct flm)
        /\ objects h !! p_rec p = Some (Struct {[ "LocalMetadata" := Ptr lm ]})
        /\ objects h !! lm
           = Some (Struct {[ "EventTimes" := Ptr ev;
                             "Environment" := get flm "Environment";
                             "Labels" := get flm "Labels" ]})
        /\ objects h !! ev = Some (TimeMap {[ EventProxyExecution := now ]})
  | Ptr _, None => False
  | _, Some _ => False
  | _, None => objects h !! p_rec p = Some (Struct ∅)
  end.

(** In the store [h], [d] with the parts [p] is a duplicate of the action
    with the fields [fa] of the store [h0]. *)
Definition holds (h0 : heap) (fa : gmap string value) (h : heap) (d : loc)
  (p : parts) : Prop :=
  objects h !! d = Some (Struct (duplicate_fields fa p))
  /\ objects h !! p_cmd p = source h0 (get fa "cmd")
  /\ objects h !! p_forecast p = source h0 (get fa "forecast")
  /\ objects h !! p_rOpt p = source h0 (get fa "rOpt")
  /\ objects h !! p_lOpt p = source h0 (get fa "lOpt")
  /\ objects h !! p_oe p = Some (RecordingOutErr "" "")
  /\ record_holds h0 h fa p.

Definition closed (h : heap) : Prop :=
  forall l, is_Some (objects h !! l) -> l < next h.

(** The action at [a] is well formed: its struct is in the store, and so
    are the structs behind its pointers and the local metadata of its log
    record. *)
Definition well_formed (h : heap) (a : loc) (fa : gmap string value) : Prop :=
  closed h
  /\ objects h !! a = Some (Struct fa)
  /\ (forall f, f ∈ ["cmd"; "forecast"; "rOpt"; "lOpt"] ->
      is_Some (source h (get fa f)))
  /\ (forall r, get fa "rec" = Ptr r ->
      exists fr alm flm,
        objects h !! r = Some (Struct fr)
        /\ get fr "LocalMetadata" = Ptr alm
        /\ objects h !! alm = Some (Struct flm)).

(** [h] extends [h0]: what [h0] holds is as it was. *)
Definition extends (h0 h : heap) : Prop :=
  next h0 <= next h
  /\ forall l, l < next h0 -> objects h !! l = objects h0 !! l.

(** The stores of [duplicate_one] into the new action. *)
Definition fill_action (fa : gmap string value) (d tcmd tforecast trec trOpt
  tlOpt : loc) : M loc :=
  store d (Struct fa) ;;;
  store_field d "cmd" (Ptr tcmd) ;;;
  store_field d "forecast" (Ptr tforecast) ;;;
  store_field d "rec" (Ptr trec) ;;;
  store_field d "rOpt" (Ptr trOpt) ;;;
  store_field d "lOpt" (Ptr tlOpt) ;;;
  oe <- alloc (RecordingOutErr "" "") ;;
  store_field d "oe" (Ptr oe) ;;;
  ret d.

Definition all_parts (dups : list loc) (ps : list parts) : list loc :=
  concat (zip_with parts_list dups ps).

#[local] Arguments all_parts : simpl never.
#[local] Arguments parts_list : simpl never.

(** [dups] with the parts [ps] are duplicates made from the store [h0] on. *)
Definition made (h0 : heap) (fa : gmap string value) (h : heap)
  (dups : list loc) (ps : list parts) : Prop :=
  Forall2
    (fun d p =>
       holds h0 fa h d p
       /\ forall l, l ∈ parts_list d p -> next h0 <= l < next h)
    dups ps
  /\ NoDup (all_parts dups ps).

Definition sample_clock (i : nat) : Z := (1700000000 + Z.of_nat i)%Z.

Definition sample_fields : gmap string value :=
  {[ "cmd" := Ptr 1; "forecast" := Ptr 2; "rec" := Ptr 3; "rOpt" := Ptr 7;
     "lOpt" := Ptr 8; "racingBias" := Scalar "0.5" ]}.

(** *** Running [duplicate] *)

Lemma extends_refl h : extends h h.
Proof. split; [lia|reflexivity]. Qed.

Lemma extends_push h0 h o : extends h0 h -> extends h0 (push h o).
Proof.
  intros [Hn Ho]. split; cbn; [lia|].
  intros l Hl. rewrite lookup_insert_ne by lia. apply Ho. exact Hl.
Qed.

Lemma extends_put h0 h l o :
  extends h0 h -> next h0 <= l -> extends h0 (put h l o).
Proof.
  intros [Hn Ho] Hl. split; cbn; [lia|].
  intros l' Hl'. rewrite lookup_insert_ne by lia. apply Ho. exact Hl'.
Qed.

Lemma closed_push h o : closed h -> closed (push h o).
Proof.
  intros Hc l. cbn. destruct (decide (next h = l)) as [<-|Hne]; [lia|].
  rewrite lookup_insert_ne by exact Hne. intros H. specialize (Hc l H). lia.
Qed.

Lemma closed_put h l o : closed h -> l < next h -> closed (put h l o).
Proof.
  intros Hc Hl l'. cbn. destruct (decide (l = l')) as [<-|Hne]; [lia|].
  rewrite lookup_insert_ne by exact Hne. apply Hc.
Qed.

Lemma bind_run {A B : Type} (m : M A) (k : A -> M B) h x h1 :
  m h = Some (x, h1) -> bind m k h = k x h1.
Proof. intros H. unfold bind. rewrite H. reflexivity. Qed.

Lemma load_struct_run h l fs :
  objects h !! l = Some (Struct fs) -> load_struct l h = Some (fs, h).
Proof. intros H. unfold load_struct, bind, load. rewrite H. reflexivity. Qed.

Lemma store_run h l o :
  is_Some (objects h !! l) -> store l o h = Some (tt, put h l o).
Proof. intros [o' H]. unfold store. rewrite H. reflexivity. Qed.

Lemma store_field_run h l fs f v :
  objects h !! l = Some (Struct fs) ->
  store_field l f v h = Some (tt, put h l (Struct (<[f := v]> fs))).
Proof.
  intros H. unfold store_field. rewrite (bind_run _ _ _ _ _ (load_struct_run _ _ _ H)).
  apply store_run. eauto.
Qed.

Lemma copy_run h0 h p o :
  closed h0 -> extends h0 h -> source h0 p = Some o ->
  copy p h = Some (next h, push h o).
Proof.
  intros Hc [Hn Ho] Hs. unfold copy.
  rewrite (bind_run _ _ _ o h); [reflexivity|].
  destruct p as [|l|s]; unfold source in Hs.
  - inversion Hs. reflexivity.
  - unfold load. rewrite Ho by (apply Hc; rewrite Hs; eauto).
    rewrite Hs. reflexivity.
  - inversion Hs. reflexivity.
Qed.

Lemma new_record_run_nil h rec now :
  (forall r, rec <> Ptr r) ->
  new_record rec now h = Some (next h, push h (Struct ∅)).
Proof. intros H. destruct rec as [|r|s]; [reflexivity|congruence|reflexivity]. Qed.

Lemma new_record_run h0 h r now fr alm flm :
  closed h0 -> extends h0 h ->
  objects h0 !! r = Some (Struct fr) ->
  get fr "LocalMetadata" = Ptr alm ->
  objects h0 !! alm = Some (Struct flm) ->
  new_record (Ptr r) now h
  = Some (next h,
          put (push (push (push h (Struct ∅))
                       (TimeMap {[ EventProxyExecution := now ]}))
                 (Struct {[ "EventTimes" := Ptr (S (next h));
                            "Environment" := get flm "Environment";
                            "Labels" := get flm "Labels" ]}))
            (next h) (Struct {[ "LocalMetadata" := Ptr (S (S (next h))) ]})).
Proof.
  intros Hc Hext Hr Hlm Halm.
  assert (Hr' : r < next h0) by (apply Hc; rewrite Hr; eauto).
  assert (Ha' : alm < next h0) by (apply Hc; rewrite Halm; eauto).
  pose proof (extends_push _ _ (Struct ∅) Hext) as He1.
  pose proof (extends_push _ _ (TimeMap {[ EventProxyExecution := now ]}) He1) as He2.
  unfold new_record.
  rewrite (bind_run _ _ _ (next h) (push h (Struct ∅))) by reflexivity.
  erewrite bind_run
    by (apply load_struct_run; rewrite (proj2 He1) by exact Hr'; exact Hr).
  erewrite bind_run by reflexivity.
  rewrite Hlm.
  erewrite bind_run
    by (apply load_struct_run; rewrite (proj2 He2) by exact Ha'; exact Halm).
  erewrite bind_run by reflexivity.
  erewrite bind_run.
  2:{ apply store_field_run. cbn [objects push next].
      rewrite !lookup_insert_ne by lia. apply lookup_insert_eq. }
  cbn [next push]. rewrite insert_empty. reflexivity.
Qed.

Ltac heap_lookup :=
  cbn [objects push put next];
  repeat (rewrite lookup_insert_ne by lia);
  first [apply lookup_insert_eq | eassumption].

Lemma alloc_run o h : alloc o h = Some (next h, push h o).
Proof. reflexivity. Qed.

Lemma fill_action_run h fa d tcmd tforecast trec trOpt tlOpt :
  is_Some (objects h !! d) -> d < next h ->
  fill_action fa d tcmd tforecast trec trOpt tlOpt h
  = Some (d,
          put (push h (RecordingOutErr "" "")) d
            (Struct
               (duplicate_fields fa
                  {| p_cmd := tcmd; p_forecast := tforecast; p_rec := trec;
                     p_rOpt := trOpt; p_lOpt := tlOpt; p_oe := next h;
                     p_meta := None |}))).
Proof.
  intros Hd Hlt. unfold fill_action.
  erewrite bind_run by (apply store_run; exact Hd).
  do 5 (erewrite bind_run by (apply store_field_run; heap_lookup)).
  erewrite bind_run by apply alloc_run.
  erewrite bind_run by (apply store_field_run; heap_lookup).
  unfold ret, duplicate_fields. cbn [p_cmd p_forecast p_rec p_rOpt p_lOpt p_oe next put push].
  f_equal. f_equal. unfold put, push. cbn [objects next]. f_equal.
  apply map_eq. intros l.
  destruct (decide (d = l)) as [<-|Hne].
  - rewrite !lookup_insert_eq. reflexivity.
  - rewrite !(lookup_insert_ne _ d) by exact Hne.
    destruct (decide (next h = l)) as [<-|Hne2].
    + rewrite !lookup_insert_eq. reflexivity.
    + rewrite !(lookup_insert_ne _ (next h)) by exact Hne2.
      rewrite !(lookup_insert_ne _ d) by exact Hne. reflexivity.
Qed.

Lemma duplicate_one_fill a now :
  duplicate_one a now
  = (fa <- load_struct a ;;
     tcmd <- copy (get fa "cmd") ;;
     tforecast <- copy (get fa "forecast") ;;
     trec <- new_record (get fa "rec") now ;;
     trOpt <- copy (get fa "rOpt") ;;
     tlOpt <- copy (get fa "lOpt") ;;
     newAction <- alloc (Struct ∅) ;;
     fill_action fa newAction tcmd tforecast trec trOpt tlOpt).
Proof. reflexivity. Qed.

Ltac solve_extends :=
  repeat first
    [ eassumption
    | apply extends_push
    | apply extends_put;
      [|cbn [next push put];
        match goal with H : extends _ _ |- _ => destruct H; lia end] ].

Lemma duplicate_one_run h0 h a fa now :
  well_formed h0 a fa -> extends h0 h ->
  exists d p h',
    duplicate_one a now h = Some (d, h')
    /\ holds h0 fa h' d p
    /\ (forall l, l ∈ parts_list d p -> next h <= l < next h')
    /\ NoDup (parts_list d p)
    /\ extends h h'.
Proof.
  intros (Hc & Ha & Hsrc & Hrec) Hext.
  destruct (Hsrc "cmd") as [ocmd Hcmd]; [set_solver|].
  destruct (Hsrc "forecast") as [ofc Hfc]; [set_solver|].
  destruct (Hsrc "rOpt") as [orO HrO]; [set_solver|].
  destruct (Hsrc "lOpt") as [olO HlO]; [set_solver|].
  assert (Ha' : objects h !! a = Some (Struct fa)).
  { rewrite (proj2 Hext); [exact Ha|]. apply Hc. rewrite Ha. eauto. }
  rewrite duplicate_one_fill.
  erewrite bind_run by (apply load_struct_run; exact Ha').
  erewrite bind_run by (eapply (copy_run h0); [exact Hc|solve_extends|exact Hcmd]).
  erewrite bind_run by (eapply (copy_run h0); [exact Hc|solve_extends|exact Hfc]).
  destruct (get fa "rec") as [|r|s] eqn:Hr.
  1,3: erewrite bind_run by (apply new_record_run_nil; congruence).
  3: destruct (Hrec r eq_refl) as (fr & alm & flm & Hfr & Hlm & Hflm);
     erewrite bind_run
       by (apply (new_record_run h0 _ r now fr alm flm);
           [exact Hc|solve_extends|exact Hfr|exact Hlm|exact Hflm]).
  all: erewrite bind_run
         by (eapply (copy_run h0); [exact Hc|solve_extends|exact HrO]).
  all: erewrite bind_run
         by (eapply (copy_run h0); [exact Hc|solve_extends|exact HlO]).
  all: erewrite bind_run by apply alloc_run.
  all: rewrite fill_action_run
         by (cbn [next push put]; first [lia | eexists; heap_lookup]).
  all: cbn [next push put].
  1,2: exists (S (S (S (S (S (next h)))))),
         {| p_cmd := next h; p_forecast := S (next h);
            p_rec := S (S (next h)); p_rOpt := S (S (S (next h)));
            p_lOpt := S (S (S (S (next h))));
            p_oe := S (S (S (S (S (S (next h))))));
            p_meta := None |}.
  3: exists (S (S (S (S (S (S (S (next h)))))))),
       {| p_cmd := next h; p_forecast := S (next h);
          p_rec := S (S (next h)); p_rOpt := S (S (S (S (S (next h)))));
          p_lOpt := S (S (S (S (S (S (next h))))));
          p_oe := S (S (S (S (S (S (S (S (next h))))))));
          p_meta := Some (S (S (S (S (next h)))), S (S (S (next h)))) |}.
  all: eexists; split; [reflexivity|].
  all: split;
    [unfold holds, record_holds;
     cbn [p_cmd p_forecast p_rec p_rOpt p_lOpt p_oe p_meta];
     rewrite Hr, ?Hcmd, ?Hfc, ?HrO, ?HlO;
     repeat split; try heap_lookup|].
  3: { exists fr, alm, flm, now. repeat split; try assumption; heap_lookup. }
  all: split;
    [intros l Hl; unfold parts_list in Hl;
     cbn [p_cmd p_forecast p_rec p_rOpt p_lOpt p_oe p_meta app] in Hl;
     cbn [next put push];
     repeat (apply elem_of_cons in Hl as [->|Hl]); try lia;
     inversion Hl|].
  all: split;
    [unfold parts_list;
     cbn [p_cmd p_forecast p_rec p_rOpt p_lOpt p_oe p_meta app];
     repeat (apply NoDup_cons_2;
             [rewrite ?not_elem_of_cons; repeat split; try lia;
              apply not_elem_of_nil|]);
     apply NoDup_nil_2|].
  all: split; [cbn [next put push]; lia|].
  all: intros l Hl; cbn [objects put push next];
       rewrite !lookup_insert_ne by lia; reflexivity.
Qed.

(** A duplicate is made of its parts only. *)
Lemma holds_agree h0 fa h1 h2 d p :
  (forall l, l ∈ parts_list d p -> objects h2 !! l = objects h1 !! l) ->
  holds h0 fa h1 d p -> holds h0 fa h2 d p.
Proof.
  intros Hag (Hd & Hc & Hf & Hr & Hl & Ho & Hrec).
  assert (Hin : forall l, l ∈ parts_list d p ->
                  forall o, objects h1 !! l = o -> objects h2 !! l = o)
    by (intros l Hl' o <-; apply Hag; exact Hl').
  unfold holds. repeat split.
  1-6: (apply Hin; [unfold parts_list; set_solver|assumption]).
  unfold record_holds in *.
  destruct (get fa "rec") as [|r|s], (p_meta p) as [[lm ev]|] eqn:Hm;
    try contradiction.
  - apply Hin; [unfold parts_list; set_solver|exact Hrec].
  - destruct Hrec as (fr & alm & flm & now & H1 & H2 & H3 & H4 & H5 & H6).
    exists fr, alm, flm, now. repeat split; try assumption.
    all: apply Hin; [unfold parts_list; rewrite Hm; set_solver|assumption].
  - apply Hin; [unfold parts_list; set_solver|exact Hrec].
Qed.

Lemma holds_put h0 fa h d p l o :
  l ∉ parts_list d p -> holds h0 fa h d p -> holds h0 fa (put h l o) d p.
Proof.
  intros Hl. apply holds_agree. intros l' Hl'. cbn.
  apply lookup_insert_ne. intros ->. contradiction.
Qed.

Lemma holds_extends h0 fa h1 h2 d p :
  (forall l, l ∈ parts_list d p -> l < next h1) ->
  extends h1 h2 -> holds h0 fa h1 d p -> holds h0 fa h2 d p.
Proof.
  intros Hb [_ He]. apply holds_agree. intros l Hl. apply He, Hb, Hl.
Qed.

Ltac struct_lookup :=
  unfold duplicate_fields, get;
  repeat (rewrite lookup_insert_ne by discriminate);
  rewrite lookup_insert_eq.

Lemma holds_own h0 fa h d p :
  holds h0 fa h d p -> own h d = parts_list d p.
Proof.
  intros (Hd & _ & _ & _ & _ & _ & Hrec).
  assert (Ht : forall f l, get (duplicate_fields fa p) f = Ptr l ->
                 target h d f = Some l).
  { intros f l Hf. unfold target, field. rewrite Hd, Hf. reflexivity. }
  unfold own, parts_list.
  rewrite (Ht "rec" (p_rec p)) by (struct_lookup; reflexivity).
  cbn [omap list_omap].
  rewrite (Ht "cmd" (p_cmd p)) by (struct_lookup; reflexivity).
  rewrite (Ht "forecast" (p_forecast p)) by (struct_lookup; reflexivity).
  rewrite (Ht "rec" (p_rec p)) by (struct_lookup; reflexivity).
  rewrite (Ht "rOpt" (p_rOpt p)) by (struct_lookup; reflexivity).
  rewrite (Ht "lOpt" (p_lOpt p)) by (struct_lookup; reflexivity).
  rewrite (Ht "oe" (p_oe p)) by (struct_lookup; reflexivity).
  do 7 f_equal.
  unfold record_holds in Hrec.
  destruct (get fa "rec") as [|r|s], (p_meta p) as [[lm ev]|];
    try contradiction.
  - unfold target, field. rewrite Hrec. reflexivity.
  - destruct Hrec as (fr & alm & flm & now & _ & _ & _ & H4 & H5 & _).
    unfold target, field. rewrite H4. unfold get.
    rewrite lookup_singleton_eq. rewrite H5.
    rewrite lookup_insert_eq. reflexivity.
  - unfold target, field. rewrite Hrec. reflexivity.
Qed.

(** The log record of a duplicate, read through its pointers: with new
    local metadata and new event times when the original has a log record,
    empty when it has none. *)
Lemma holds_record h0 fa h d p :
  holds h0 fa h d p ->
  target h d "rec" = Some (p_rec p)
  /\ match get fa "rec" with
     | Ptr _ =>
         exists lm ev now,
           p_meta p = Some (lm, ev)
           /\ target h (p_rec p) "LocalMetadata" = Some lm
           /\ target h lm "EventTimes" = Some ev
           /\ objects h !! ev = Some (TimeMap {[ EventProxyExecution := now ]})
     | _ => p_meta p = None /\ objects h !! p_rec p = Some (Struct ∅)
     end.
Proof.
  intros (Hd & _ & _ & _ & _ & _ & Hrec). split.
  - unfold target, field. rewrite Hd. struct_lookup. reflexivity.
  - unfold record_holds in Hrec.
    destruct (get fa "rec") as [|r|s], (p_meta p) as [[lm ev]|];
      try contradiction; try (split; [reflexivity|exact Hrec]).
    destruct Hrec as (fr & alm & flm & now & _ & _ & _ & H4 & H5 & H6).
    exists lm, ev, now. split; [reflexivity|]. split; [|split; [|exact H6]].
    + unfold target, field. rewrite H4. unfold get.
      rewrite lookup_singleton_eq. reflexivity.
    + unfold target, field. rewrite H5. unfold get.
      rewrite lookup_insert_eq. reflexivity.
Qed.

Lemma extends_trans h1 h2 h3 : extends h1 h2 -> extends h2 h3 -> extends h1 h3.
Proof.
  intros [Hn1 Ho1] [Hn2 Ho2]. split; [lia|].
  intros l Hl. rewrite Ho2 by lia. apply Ho1. exact Hl.
Qed.

Lemma all_parts_snoc dups ps d p :
  length dups = length ps ->
  all_parts (dups ++ [d]) (ps ++ [p]) = (all_parts dups ps ++ parts_list d p)%list.
Proof.
  intros Hlen. unfold all_parts.
  rewrite zip_with_app by exact Hlen. rewrite concat_app. cbn.
  rewrite app_nil_r. reflexivity.
Qed.

Lemma all_parts_cons d dups p ps :
  all_parts (d :: dups) (p :: ps) = (parts_list d p ++ all_parts dups ps)%list.
Proof. reflexivity. Qed.

Lemma all_parts_bound {P : loc -> parts -> Prop} lo hi dups ps :
  Forall2 (fun d p => P d p /\ forall l, l ∈ parts_list d p -> lo <= l < hi)
    dups ps ->
  forall l, l ∈ all_parts dups ps -> lo <= l < hi.
Proof.
  induction 1 as [|d p dups ps [_ Hb] _ IH]; intros l Hl.
  - inversion Hl.
  - rewrite all_parts_cons in Hl. apply elem_of_app in Hl as [Hl|Hl].
    + apply Hb, Hl.
    + apply IH, Hl.
Qed.

Lemma duplicate_loop_run h0 a fa clock k :
  well_formed h0 a fa ->
  forall i res ps h,
    extends h0 h -> made h0 fa h res ps ->
    exists dups pss h',
      duplicate_loop a clock i k res h = Some (dups, h')
      /\ length dups = length res + k
      /\ extends h h'
      /\ made h0 fa h' dups pss.
Proof.
  intros Hwf. induction k as [|k IH]; intros i res ps h Hext [Hall Hnd].
  - exists res, ps, h. split; [reflexivity|]. split; [lia|].
    split; [apply extends_refl|]. split; assumption.
  - destruct (duplicate_one_run h0 h a fa (clock i) Hwf Hext)
      as (d & p & h1 & Hrun & Hh & Hb & Hnd1 & He1).
    cbn [duplicate_loop]. rewrite (bind_run _ _ _ _ _ Hrun).
    destruct (IH (S i) (res ++ [d])%list (ps ++ [p])%list h1) as
      (dups & pss & h' & Hloop & Hlen & He' & Hmade).
    + exact (extends_trans _ _ _ Hext He1).
    + split.
      * apply Forall2_app.
        -- eapply Forall2_impl; [exact Hall|]. cbn.
           intros d0 p0 [Hh0 Hb0]. split.
           ++ eapply holds_extends; [|exact He1|exact Hh0].
              intros l Hl. apply Hb0, Hl.
           ++ intros l Hl. destruct (Hb0 l Hl). destruct He1. lia.
        -- constructor; [|constructor].
           split; [exact Hh|]. intros l Hl. destruct (Hb l Hl).
           destruct Hext. lia.
      * rewrite all_parts_snoc by (eapply Forall2_length; exact Hall).
        apply NoDup_app. split; [exact Hnd|]. split; [|exact Hnd1].
        intros l Hl Hl'. pose proof (all_parts_bound _ _ _ _ Hall l Hl).
        destruct (Hb l Hl'). lia.
    + exists dups, pss, h'. split; [exact Hloop|].
      split; [rewrite Hlen, length_app; cbn; lia|].
      split; [exact (extends_trans _ _ _ He1 He')|exact Hmade].
Qed.

Lemma all_parts_lookup dups ps i d p l :
  dups !! i = Some d -> ps !! i = Some p -> l ∈ parts_list d p ->
  l ∈ all_parts dups ps.
Proof.
  revert ps i. induction dups as [|d0 dups IH]; intros [|p0 ps] [|i]; cbn;
    try discriminate.
  - intros [= ->] [= ->] Hl. rewrite all_parts_cons. apply elem_of_app.
    left. exact Hl.
  - intros Hd Hp Hl. rewrite all_parts_cons. apply elem_of_app. right.
    exact (IH ps i Hd Hp Hl).
Qed.

Lemma all_parts_apart dups ps i j d p d' p' l :
  NoDup (all_parts dups ps) -> i <> j ->
  dups !! i = Some d -> ps !! i = Some p ->
  dups !! j = Some d' -> ps !! j = Some p' ->
  l ∈ parts_list d p -> l ∉ parts_list d' p'.
Proof.
  revert ps i j. induction dups as [|d0 dups IH]; intros [|p0 ps] [|i] [|j];
    cbn; try discriminate; try congruence.
  - intros Hnd _ [= ->] [= ->] Hd' Hp' Hl Hl'.
    rewrite all_parts_cons in Hnd. apply NoDup_app in Hnd as (_ & Hap & _).
    apply (Hap l Hl). exact (all_parts_lookup _ _ _ _ _ _ Hd' Hp' Hl').
  - intros Hnd _ Hd Hp [= ->] [= ->] Hl Hl'.
    rewrite all_parts_cons in Hnd. apply NoDup_app in Hnd as (_ & Hap & _).
    apply (Hap l Hl'). exact (all_parts_lookup _ _ _ _ _ _ Hd Hp Hl).
  - intros Hnd Hij Hd Hp Hd' Hp' Hl.
    rewrite all_parts_cons in Hnd. apply NoDup_app in Hnd as (_ & _ & Hnd).
    apply (IH ps i j Hnd); auto.
Qed.

(** *** C9: the duplicates *)

Lemma sample_heap_well_formed : well_formed sample_heap 0 sample_fields.
Proof.
  split; [|split; [reflexivity|split]].
  - intros l [o Ho]. destruct (decide (l < 9)) as [Hl|Hl]; [exact Hl|].
    exfalso. unfold sample_heap in Ho. cbn [objects] in Ho.
    rewrite !lookup_insert_ne in Ho by lia.
    rewrite lookup_singleton_ne in Ho by lia. discriminate.
  - intros f Hf. repeat (apply elem_of_cons in Hf as [->|Hf]);
      [vm_compute; eauto..|inversion Hf].
  - intros r Hr. vm_compute in Hr. inversion Hr; subst r.
    exists {[ "LocalMetadata" := Ptr 4 ]}, 4,
      {[ "Environment" := Ptr 5; "Labels" := Ptr 6 ]}.
    repeat split; vm_compute; reflexivity.
Qed.

(** C9, as the code has it.  [duplicate] of a nil action returns no
    action.  For a well-formed action (its log record, if it has one, has
    local metadata) [duplicate(n)] returns [n] new actions and leaves the
    store of the original as it was.  Each duplicate has the fields of the
    original, with a new command, forecast and option messages that hold
    the values of the original's (or the zero value), a new output sink,
    and a new log record: all at locations that did not exist before.
    When the original has a log record, the new log record holds new local
    metadata, which holds new event times; when the original has none
    ([a.rec] is nil), the new log record is empty, without local metadata.
    The parts of all the duplicates are pairwise distinct locations, so
    writing any object at a part of one duplicate (its log record, local
    metadata, event times, output sink, option messages, command, forecast)
    leaves every other duplicate as it is.  The [Environment] and [Labels]
    of the new local metadata are the references of the original's: they
    are not parts of a duplicate, and are shared. *)
Theorem duplicate_independent :
  forall h a fa n clock,
    well_formed h a fa ->
    duplicate Nil n clock h = Some ([], h)
    /\ exists dups ps h',
         duplicate (Ptr a) n clock h = Some (dups, h')
         /\ length dups = Z.to_nat n
         /\ extends h h'
         /\ Forall2
              (fun d p =>
                 holds h fa h' d p
                 /\ own h' d = parts_list d p
                 /\ (forall l, l ∈ parts_list d p -> next h <= l < next h')
                 /\ target h' d "rec" = Some (p_rec p)
                 /\ match get fa "rec" with
                    | Ptr _ =>
                        exists lm ev now,
                          p_meta p = Some (lm, ev)
                          /\ target h' (p_rec p) "LocalMetadata" = Some lm
                          /\ target h' lm "EventTimes" = Some ev
                          /\ objects h' !! ev
                             = Some (TimeMap {[ EventProxyExecution := now ]})
                    | _ =>
                        p_meta p = None
                        /\ objects h' !! p_rec p = Some (Struct ∅)
                    end)
              dups ps
         /\ NoDup (all_parts dups ps)
         /\ forall i j d p d' p' l o,
              i <> j ->
              dups !! i = Some d -> ps !! i = Some p ->
              dups !! j = Some d' -> ps !! j = Some p' ->
              l ∈ parts_list d p ->
              (l ∉ parts_list d' p') /\ holds h fa (put h' l o) d' p'.
Proof.
  intros h a fa n clock Hwf. split; [reflexivity|].
  destruct (duplicate_loop_run h a fa clock (Z.to_nat n) Hwf 0 [] [] h
              (extends_refl h))
    as (dups & ps & h' & Hrun & Hlen & Hext & Hall & Hnd).
  { split; [constructor|constructor]. }
  exists dups, ps, h'. split; [exact Hrun|]. split; [exact Hlen|].
  split; [exact Hext|]. split; [|split; [exact Hnd|]].
  - eapply Forall2_impl; [exact Hall|]. cbn. intros d p [Hh Hb].
    split; [exact Hh|]. split; [exact (holds_own _ _ _ _ _ Hh)|].
    split; [exact Hb|]. exact (holds_record _ _ _ _ _ Hh).
  - intros i j d p d' p' l o Hij Hd Hp Hd' Hp' Hl.
    pose proof (all_parts_apart _ _ _ _ _ _ _ _ _ Hnd Hij Hd Hp Hd' Hp' Hl)
      as Hnot.
    split; [exact Hnot|]. apply holds_put; [exact Hnot|].
    destruct (Forall2_lookup_lr _ _ _ _ _ _ Hall Hd' Hp') as [Hh _]. exact Hh.
Qed.

(** Two duplicates of the sample action. *)
Lemma duplicate_independent_sample :
  exists dups ps h',
    duplicate (Ptr 0) 2 sample_clock sample_heap = Some (dups, h')
    /\ length dups = 2
    /\ NoDup (all_parts dups ps).
Proof.
  destruct (duplicate_independent sample_heap 0 sample_fields 2 sample_clock
              sample_heap_well_formed)
    as (_ & dups & ps & h' & Hrun & Hlen & _ & _ & Hnd & _).
  exists dups, ps, h'. split; [exact Hrun|]. split; [exact Hlen|exact Hnd].
Defined.

(** C9, as the specification states it, fails for a mutation of a log
    record that goes through the shared [Environment] map: after
    [d1.rec.LocalMetadata.Environment["PATH"] = "/opt/bin"] on the first of
    two duplicates, the log record of the second one has the new value.
    And [duplicate] panics on an action whose log record has no local
    metadata. *)
Lemma duplicate_shares_environment :
  match duplicate (Ptr 0) 2 sample_clock sample_heap with
  | Some ([d1; d2], h') =>
      Environment h' d2 = Some {[ "PATH" := "/usr/bin" ]}
      /\ match setenv d1 "PATH" "/opt/bin" h' with
         | Some (_, h'') =>
             Environment h'' d2 = Some {[ "PATH" := "/opt/bin" ]}
             /\ Environment h'' d2 <> Environment h' d2
         | None => False
         end
  | _ => False
  end
  /\ duplicate (Ptr 0) 1 sample_clock sample_heap_no_metadata = None.
Proof.
  split; [|vm_compute; reflexivity].
  vm_compute. split; [reflexivity|]. split; [reflexivity|discriminate].
Qed.

(** *** What the duplicates share *)

Lemma duplicate_fields_other fa p f :
  f ∉ ["cmd"; "forecast"; "rec"; "rOpt"; "lOpt"; "oe"] ->
  get (duplicate_fields fa p) f = get fa f.
Proof.
  intros Hf. unfold duplicate_fields, get.
  rewrite !lookup_insert_ne; [reflexivity|..];
    intros <-; apply Hf; repeat constructor.
Qed.

(** X16.  A duplicate shares with the original whatever [duplicate] does
    not replace: every field of the action other than [cmd], [forecast],
    [rec], [rOpt], [lOpt] and [oe] (so the execution context, the file
    metadata cache, the parser) has the value of the original's field, the
    same reference for a pointer.  The command, the forecast and the option
    messages of a duplicate are new structs, at locations that did not
    exist before, that hold the field values of the original's, so what
    these fields refer to is shared as well; the original's structs are as
    they were. *)
Theorem duplicate_shares_what_it_does_not_copy :
  forall h a fa n clock dups h' d,
    well_formed h a fa ->
    duplicate (Ptr a) n clock h = Some (dups, h') ->
    d ∈ dups ->
    (forall f,
        f ∉ ["cmd"; "forecast"; "rec"; "rOpt"; "lOpt"; "oe"] ->
        field h' d f = get fa f)
    /\ forall f c,
         f ∈ ["cmd"; "forecast"; "rOpt"; "lOpt"] ->
         get fa f = Ptr c ->
         exists c',
           target h' d f = Some c'
           /\ c' <> c
           /\ next h <= c'
           /\ objects h' !! c' = objects h !! c
           /\ objects h' !! c = objects h !! c.
Proof.
  intros h a fa n clock dups h' d Hwf Hrun Hd.
  destruct (duplicate_loop_run h a fa clock (Z.to_nat n) Hwf 0 [] [] h
              (extends_refl h))
    as (dups0 & ps & h0 & Hrun0 & _ & Hext & Hall & _).
  { split; [constructor|constructor]. }
  cbn [duplicate] in Hrun. rewrite Hrun0 in Hrun. injection Hrun as <- <-.
  apply list_elem_of_lookup in Hd as [i Hi].
  destruct (Forall2_lookup_l _ _ _ _ _ Hall Hi) as (p & Hp & Hh & Hb).
  destruct Hh as (Hobj & Hcmd & Hfc & HrO & HlO & _ & _).
  split.
  - intros f Hf. unfold field. rewrite Hobj.
    apply duplicate_fields_other. exact Hf.
  - intros f c Hf Hc.
    destruct Hwf as (Hclosed & _ & Hsrc & _).
    pose proof (Hsrc f Hf) as Hs. rewrite Hc in Hs. cbn [source] in Hs.
    assert (Hlt : c < next h) by (apply Hclosed; exact Hs).
    destruct Hext as [_ Hkeep].
    assert (Ht : forall l, get (duplicate_fields fa p) f = Ptr l ->
                   target h0 d f = Some l).
    { intros l Hl. unfold target, field. rewrite Hobj, Hl. reflexivity. }
    repeat (apply elem_of_cons in Hf as [->|Hf]); [..|inversion Hf].
    + exists (p_cmd p). split; [apply Ht; struct_lookup; reflexivity|].
      destruct (Hb (p_cmd p)) as [Hlo _];
        [unfold parts_list; cbn [app]; repeat constructor|].
      split; [lia|]. split; [exact Hlo|].
      rewrite Hcmd, Hc. cbn [source]. split; [reflexivity|apply Hkeep, Hlt].
    + exists (p_forecast p). split; [apply Ht; struct_lookup; reflexivity|].
      destruct (Hb (p_forecast p)) as [Hlo _];
        [unfold parts_list; cbn [app]; repeat constructor|].
      split; [lia|]. split; [exact Hlo|].
      rewrite Hfc, Hc. cbn [source]. split; [reflexivity|apply Hkeep, Hlt].
    + exists (p_rOpt p). split; [apply Ht; struct_lookup; reflexivity|].
      destruct (Hb (p_rOpt p)) as [Hlo _];
        [unfold parts_list; cbn [app]; repeat constructor|].
      split; [lia|]. split; [exact Hlo|].
      rewrite HrO, Hc. cbn [source]. split; [reflexivity|apply Hkeep, Hlt].
    + exists (p_lOpt p). split; [apply Ht; struct_lookup; reflexivity|].
      destruct (Hb (p_lOpt p)) as [Hlo _];
        [unfold parts_list; cbn [app]; repeat constructor|].
      split; [lia|]. split; [exact Hlo|].
      rewrite HlO, Hc. cbn [source]. split; [reflexivity|apply Hkeep, Hlt].
Qed.

(** One duplicate of the sample action. *)
Lemma duplicate_shares_what_it_does_not_copy_sample :
  exists dups h' d c',
    duplicate (Ptr 0) 1 sample_clock sample_heap = Some (dups, h')
    /\ d ∈ dups
    /\ field h' d "racingBias" = Scalar "0.5"
    /\ target h' d "cmd" = Some c'
    /\ c' <> 1
    /\ objects h' !! c' = Some (Struct {[ "ExecRoot" := Scalar "/src" ]}).
Proof.
  destruct (duplicate_loop_run sample_heap 0 sample_fields sample_clock 1
              sample_heap_well_formed 0 [] [] sample_heap
              (extends_refl sample_heap))
    as (dups & ps & h' & Hrun & Hlen & _).
  { split; [constructor|constructor]. }
  destruct dups as [|d dups]; [discriminate|].
  assert (Hd : d ∈ d :: dups) by left.
  destruct (duplicate_shares_what_it_does_not_copy sample_heap 0 sample_fields
              1 sample_clock (d :: dups) h' d sample_heap_well_formed Hrun Hd)
    as [Hf Hc].
  assert (Hcmd : get sample_fields "cmd" = Ptr 1)
    by (vm_compute; reflexivity).
  destruct (Hc "cmd" 1 ltac:(left) Hcmd) as (c' & Ht & Hne & _ & Ho & _).
  exists (d :: dups), h', d, c'. split; [exact Hrun|]. split; [exact Hd|].
  split; [|split; [exact Ht|split; [exact Hne|]]].
  - rewrite Hf; [vm_compute; reflexivity|].
    intros H. repeat (apply elem_of_cons in H as [H|H]; [discriminate|]).
    inversion H.
  - rewrite Ho. vm_compute. reflexivity.
Defined.

End Duplicate.

(** ** Remote execution *)

Module Remote.

Import Command Action.

(** [client.TreeOutput]: an output of the action result, with its digest. *)
Record TreeOutput := {
  to_Digest : Mtime.Digest;
  to_Path : string;
  to_IsExecutable : bool
}.

(** The fields of [rexec.ExecutionOptions] that [runRemote] reads and
    writes. *)
Record ExecutionOptions := {
  opt_DownloadOutputs : bool;
  opt_PreserveUnchangedOutputMtime : bool
}.

(** The files on disk, as [excludeUnchangedOutputs] reads them: the error
    of [os.Stat] and what [digest.NewFromFile] returns for a path; [Join]
    is [filepath.Join]. *)
Record Disk := {
  os_Stat : string -> option error;
  digest_NewFromFile : string -> Mtime.Digest + error;
  Join : list string -> string
}.

(** The body of the loop of [excludeUnchangedOutputs]. *)
Definition exclude_one (d : Disk) (destDir : string) (path : string)
  (node : TreeOutput) (filteredOuts : gmap string TreeOutput)
  : gmap string TreeOutput :=
  let dest := Join d [destDir; path] in
  match os_Stat d dest with
  | None =>
      match digest_NewFromFile d dest with
      | inr _ => <[path := node]> filteredOuts
      | inl destDigest =>
          if negb (String.eqb (Mtime.Hash (to_Digest node))
                     (Mtime.Hash destDigest))
          then <[path := node]> filteredOuts
          else filteredOuts
      end
  | Some _ => <[path := node]> filteredOuts
  end.

(** [excludeUnchangedOutputs]. *)
Definition excludeUnchangedOutputs (d : Disk) (c : Cmd)
  (outs : gmap string TreeOutput) (outDir : string)
  : gmap string TreeOutput :=
  let destDir := Join d [outDir; WorkingDir c] in
  map_fold (exclude_one d destDir) ∅ outs.

(** The remote client and the execution context, as [runRemote] uses
    them: [NewContext] gets the arguments of the command and the options. *)
Record RemoteExec := {
  NewContext : list string -> ExecutionOptions -> ExecContext + error;
  GetCachedResult : ExecContext -> ExecContext;
  ExecuteRemotely : ExecContext -> ExecContext;
  GetFlattenedOutputs : ExecContext -> gmap string TreeOutput + error
}.

(** What [runRemote] leaves: the action, [a.digest], the arguments and the
    options that [client.NewContext] got, and the outputs and directory
    that [ec.DownloadSpecifiedOutputs] got, if it was called. *)
Record Ran := {
  ran_action : action;
  ran_digest : string;
  ran_args : list string;
  ran_opts : ExecutionOptions;
  ran_download : option (gmap string TreeOutput * string)
}.

(** [&command.Metadata{}]; the string of its zero digest is ["/0"]. *)
Definition zero_Metadata : Metadata :=
  {| ActionDigest := "/0"; md_EventTimes := ∅ |}.

(** [runRemote]: [opts] is what [execOptionsFromProto(a.rOpt)] returns and
    [args] is [a.cmd.Args].  [None] is the run-time panic of [res.Err] on a
    nil result. *)
Definition runRemote (w : RemoteExec) (d : Disk) (opts : ExecutionOptions)
  (args : list string) (a : action) : option Ran :=
  let excludeUnchanged :=
    opt_DownloadOutputs opts && opt_PreserveUnchangedOutputMtime opts in
  let opts :=
    if excludeUnchanged then
      {| opt_DownloadOutputs := false;
         opt_PreserveUnchangedOutputMtime :=
           opt_PreserveUnchangedOutputMtime opts |}
    else opts in
  let args :=
    if negb (String.eqb (Wrapper (rOpt a)) "") then Wrapper (rOpt a) :: args
    else args in
  let '(ec, res, meta) :=
    match NewContext w args opts with
    | inr err => (None, Some (NewLocalErrorResult (Some err)), zero_Metadata)
    | inl ec =>
        let ec := GetCachedResult w ec in
        match ecResult ec with
        | Some _ => (Some ec, ecResult ec, ecMetadata ec)
        | None =>
            let ec := ExecuteRemotely w ec in
            (Some ec, ecResult ec, ecMetadata ec)
        end
    end in
  let rm := Race.set_RemoteResult res (CommandRemoteMetadataToProto meta) in
  let a :=
    set_res res
      (set_rec {| LocalMetadata := LocalMetadata (rec a);
                  RemoteMetadata := Some rm |} a) in
  let ran (download : option (gmap string TreeOutput * string)) :=
    {| ran_action := a; ran_digest := ActionDigest meta; ran_args := args;
       ran_opts := opts; ran_download := download |} in
  match res with
  | None => None
  | Some r =>
      if negb (not_nil (Err r)) && excludeUnchanged then
        match ec with
        | None => None
        | Some ec =>
            match GetFlattenedOutputs w ec with
            | inr _ => Some (ran None)
            | inl outs =>
                Some (ran (Some (excludeUnchangedOutputs d (cmd a) outs
                                   (ExecRoot (cmd a)),
                                 ExecRoot (cmd a))))
            end
        end
      else Some (ran None)
  end.

(** Whether the file at [dest] is there with the hash of [node]. *)
Definition same_on_disk (d : Disk) (dest : string) (node : TreeOutput)
  : Prop :=
  os_Stat d dest = None
  /\ exists destDigest,
       digest_NewFromFile d dest = inl destDigest
       /\ Mtime.Hash destDigest = Mtime.Hash (to_Digest node).

(** The options and the arguments that [runRemote] passes on. *)
Definition passed_opts (opts : ExecutionOptions) : ExecutionOptions :=
  {| opt_DownloadOutputs :=
       opt_DownloadOutputs opts
       && negb (opt_PreserveUnchangedOutputMtime opts);
     opt_PreserveUnchangedOutputMtime :=
       opt_PreserveUnchangedOutputMtime opts |}.

Definition passed_args (a : action) (args : list string) : list string :=
  if String.eqb (Wrapper (rOpt a)) "" then args else Wrapper (rOpt a) :: args.

(** The execution context after the cache lookup and, on a miss, the
    remote execution. *)
Definition executed (w : RemoteExec) (ec : ExecContext) : ExecContext :=
  match ecResult (GetCachedResult w ec) with
  | Some _ => GetCachedResult w ec
  | None => ExecuteRemotely w (GetCachedResult w ec)
  end.

(** *** A sample run

    The action result has the outputs [obj/a.o] and [obj/b.o]; on disk
    there is [/src/out/obj/a.o] only, with the digest of the action
    result. *)
Definition sample_disk : Disk :=
  {| os_Stat := fun path =>
       if String.eqb path "/src/out/obj/a.o" then None
       else Some (errorString "stat: no such file or directory");
     digest_NewFromFile := fun path =>
       if String.eqb path "/src/out/obj/a.o" then inl Mtime.digest_a
       else inr (errorString "open: no such file or directory");
     Join := PathUtil.Join_posix |}.

Definition node_a : TreeOutput :=
  {| to_Digest := Mtime.digest_a; to_Path := "obj/a.o";
     to_IsExecutable := false |}.

Definition node_b : TreeOutput :=
  {| to_Digest := Mtime.digest_b; to_Path := "obj/b.o";
     to_IsExecutable := false |}.

Definition sample_exec : RemoteExec :=
  {| NewContext := fun _ _ => inl Race.fresh_context;
     GetCachedResult := Race.with_result Race.cache_hit_result;
     ExecuteRemotely := fun ec => ec;
     GetFlattenedOutputs := fun _ =>
       inl {[ "obj/a.o" := node_a; "obj/b.o" := node_b ]} |}.

Definition preserve_mtimes : ExecutionOptions :=
  {| opt_DownloadOutputs := true; opt_PreserveUnchangedOutputMtime := true |}.

(** *** Properties *)

Lemma exclude_one_lookup d destDir path node m p :
  exclude_one d destDir path node m !! p
  = if decide (p = path) then
      match os_Stat d (Join d [destDir; path]),
            digest_NewFromFile d (Join d [destDir; path]) with
      | None, inl destDigest =>
          if String.eqb (Mtime.Hash (to_Digest node)) (Mtime.Hash destDigest)
          then m !! p else Some node
      | _, _ => Some node
      end
    else m !! p.
Proof.
  unfold exclude_one.
  destruct (decide (p = path)) as [->|Hne].
  - destruct (os_Stat d _); [apply lookup_insert_eq|].
    destruct (digest_NewFromFile d _) as [dd|e]; [|apply lookup_insert_eq].
    destruct (String.eqb _ _); cbn [negb]; [reflexivity|apply lookup_insert_eq].
  - destruct (os_Stat d _); [apply lookup_insert_ne; congruence|].
    destruct (digest_NewFromFile d _) as [dd|e];
      [|apply lookup_insert_ne; congruence].
    destruct (String.eqb _ _); cbn [negb];
      [reflexivity|apply lookup_insert_ne; congruence].
Qed.

(** X8.  [excludeUnchangedOutputs] keeps an output of the action result,
    with its node as it is, unless the file at its destination below the
    working directory is there ([os.Stat] succeeds), can be digested, and
    has the hash of the output: such an output is left out.  Nothing else is
    in the result, and the result does not depend on the order in which the
    map is visited.  Only the hashes are compared, not the sizes. *)
Theorem excludeUnchangedOutputs_keeps_changed :
  forall d c outs outDir path,
    let dest := Join d [Join d [outDir; WorkingDir c]; path] in
    excludeUnchangedOutputs d c outs outDir !! path
    = match outs !! path with
      | Some node =>
          match os_Stat d dest, digest_NewFromFile d dest with
          | None, inl destDigest =>
              if String.eqb (Mtime.Hash (to_Digest node))
                   (Mtime.Hash destDigest)
              then None else Some node
          | _, _ => Some node
          end
      | None => None
      end.
Proof.
  intros d c outs outDir path. cbv zeta. unfold excludeUnchangedOutputs.
  induction outs as [|p node outs Hnone Hfirst IH] using map_first_key_ind.
  - rewrite map_fold_empty, !lookup_empty. reflexivity.
  - rewrite map_fold_insert_first_key by assumption.
    rewrite exclude_one_lookup.
    destruct (decide (path = p)) as [->|Hne].
    + rewrite lookup_insert_eq. rewrite IH, Hnone.
      destruct (os_Stat d _); [reflexivity|].
      destruct (digest_NewFromFile d _); reflexivity.
    + rewrite lookup_insert_ne by congruence. exact IH.
Qed.


Lemma runRemote_passes w d opts args a :
  runRemote w d opts args a
  = let rm res meta :=
      Race.set_RemoteResult res (CommandRemoteMetadataToProto meta) in
    let a' res meta :=
      set_res res
        (set_rec {| LocalMetadata := LocalMetadata (rec a);
                    RemoteMetadata := Some (rm res meta) |} a) in
    let ran res meta download :=
      {| ran_action := a' res meta; ran_digest := ActionDigest meta;
         ran_args := passed_args a args; ran_opts := passed_opts opts;
         ran_download := download |} in
    match NewContext w (passed_args a args) (passed_opts opts) with
    | inr err =>
        Some (ran (Some (NewLocalErrorResult (Some err))) zero_Metadata None)
    | inl ec =>
        let ec := executed w ec in
        match ecResult ec with
        | None => None
        | Some r =>
            if negb (not_nil (Err r))
               && (opt_DownloadOutputs opts
                   && opt_PreserveUnchangedOutputMtime opts)
            then
              match GetFlattenedOutputs w ec with
              | inr _ => Some (ran (Some r) (ecMetadata ec) None)
              | inl outs =>
                  Some (ran (Some r) (ecMetadata ec)
                          (Some (excludeUnchangedOutputs d (cmd a) outs
                                   (ExecRoot (cmd a)),
                                 ExecRoot (cmd a))))
              end
            else Some (ran (Some r) (ecMetadata ec) None)
        end
    end.
Proof.
  unfold runRemote, passed_args, passed_opts, executed. cbv zeta.
  assert (Ho : (if opt_DownloadOutputs opts
                   && opt_PreserveUnchangedOutputMtime opts
                then {| opt_DownloadOutputs := false;
                        opt_PreserveUnchangedOutputMtime :=
                          opt_PreserveUnchangedOutputMtime opts |}
                else opts)
               = {| opt_DownloadOutputs :=
                      opt_DownloadOutputs opts
                      && negb (opt_PreserveUnchangedOutputMtime opts);
                    opt_PreserveUnchangedOutputMtime :=
                      opt_PreserveUnchangedOutputMtime opts |}).
  { destruct opts as [[] []]; reflexivity. }
  rewrite Ho.
  assert (Ha : (if negb (String.eqb (Wrapper (rOpt a)) "")
                then Wrapper (rOpt a) :: args else args)
               = (if String.eqb (Wrapper (rOpt a)) "" then args
                  else Wrapper (rOpt a) :: args))
    by (destruct (String.eqb (Wrapper (rOpt a)) ""); reflexivity).
  rewrite Ha.
  destruct (NewContext w _ _) as [ec|err]; [|reflexivity].
  destruct (ecResult (GetCachedResult w ec)) as [r0|] eqn:E.
  - rewrite E. reflexivity.
  - destruct (ecResult (ExecuteRemotely w (GetCachedResult w ec)));
      reflexivity.
Qed.

(** X9.  [runRemote] passes the arguments of the command to the remote
    client, behind the wrapper if the remote options name one, and passes
    the options with [DownloadOutputs] turned off when
    [PreserveUnchangedOutputMtime] is on.  It calls
    [DownloadSpecifiedOutputs] only when both options are on and the result
    has no error, with the execution root and with exactly those flattened
    outputs of the execution context whose file at the destination is not
    there with the same hash: an unchanged output is never downloaded. *)
Theorem runRemote_downloads_changed_outputs :
  forall w d opts args a out,
    runRemote w d opts args a = Some out ->
    ran_args out
    = (if String.eqb (Wrapper (rOpt a)) "" then args
       else Wrapper (rOpt a) :: args)
    /\ opt_DownloadOutputs (ran_opts out)
       = opt_DownloadOutputs opts
         && negb (opt_PreserveUnchangedOutputMtime opts)
    /\ opt_PreserveUnchangedOutputMtime (ran_opts out)
       = opt_PreserveUnchangedOutputMtime opts
    /\ forall outs root,
         ran_download out = Some (outs, root) ->
         opt_DownloadOutputs opts = true
         /\ opt_PreserveUnchangedOutputMtime opts = true
         /\ root = ExecRoot (cmd a)
         /\ (exists r, res (ran_action out) = Some r /\ Err r = None)
         /\ exists ec flat,
              NewContext w (ran_args out) (ran_opts out) = inl ec
              /\ GetFlattenedOutputs w (executed w ec) = inl flat
              /\ forall path node,
                   let dest :=
                     Join d [Join d [root; WorkingDir (cmd a)]; path] in
                   (outs !! path = Some node ->
                    flat !! path = Some node /\ ~ same_on_disk d dest node)
                   /\ (flat !! path = Some node ->
                       ~ same_on_disk d dest node ->
                       outs !! path = Some node).
Proof.
  intros w d opts args a out. rewrite runRemote_passes. cbv zeta.
  destruct (NewContext w (passed_args a args) (passed_opts opts))
    as [ec|err] eqn:Hc.
  2:{ intros [= <-]. cbn. repeat split; discriminate. }
  destruct (ecResult (executed w ec)) as [r|] eqn:Hr; [|discriminate].
  destruct (negb (not_nil (Err r))
            && (opt_DownloadOutputs opts
                && opt_PreserveUnchangedOutputMtime opts)) eqn:Hb.
  2:{ intros [= <-]. cbn. repeat split; discriminate. }
  destruct (GetFlattenedOutputs w (executed w ec)) as [flat|e] eqn:Hf.
  2:{ intros [= <-]. cbn. repeat split; discriminate. }
  intros [= <-]. cbn [ran_args ran_opts ran_download ran_action].
  split; [reflexivity|]. split; [reflexivity|]. split; [reflexivity|].
  intros outs root [= <- <-].
  apply andb_true_iff in Hb as [He Hb]. apply andb_true_iff in Hb as [Hd Hp].
  split; [exact Hd|]. split; [exact Hp|]. split; [reflexivity|].
  split.
  { exists r. split; [reflexivity|]. destruct (Err r); [discriminate|reflexivity]. }
  exists ec, flat. split; [exact Hc|]. split; [exact Hf|].
  intros path node. cbv zeta. cbn [cmd set_res set_rec].
  pose proof (excludeUnchangedOutputs_keeps_changed d (cmd a) flat
                (ExecRoot (cmd a)) path) as Hx. cbv zeta in Hx.
  rewrite Hx. clear Hx. unfold same_on_disk.
  destruct (flat !! path) as [n0|]; [|split; [discriminate|discriminate]].
  destruct (os_Stat d _) as [e|] eqn:Hs.
  { split.
    - intros [= ->]. split; [reflexivity|]. intros [H _]. discriminate.
    - intros [= ->] _. reflexivity. }
  destruct (digest_NewFromFile d _) as [dd|e] eqn:Hn.
  2:{ split.
      - intros [= ->]. split; [reflexivity|].
        intros [_ (dd & H & _)]. discriminate.
      - intros [= ->] _. reflexivity. }
  destruct (String.eqb_spec (Mtime.Hash (to_Digest n0)) (Mtime.Hash dd))
    as [Heq|Hne].
  - split; [discriminate|]. intros [= ->] Hnot. exfalso. apply Hnot.
    split; [reflexivity|]. exists dd. split; [reflexivity|congruence].
  - split.
    + intros [= ->]. split; [reflexivity|].
      intros [_ (dd' & [= <-] & Hh)]. congruence.
    + intros [= ->] _. reflexivity.
Qed.


(** X10.  When the remote client cannot create the execution context,
    [runRemote] makes the local-error result of that error the result of
    the action and of its remote metadata, and downloads nothing.
    Otherwise the result is the one the execution context holds after the
    cache lookup and, on a miss, the remote execution ([runRemote] panics
    when it holds none); the local metadata are untouched; and nothing is
    downloaded by [runRemote] itself when the result has an error, when the
    outputs cannot be flattened, or when one of the two options is off. *)
Theorem runRemote_without_download :
  forall w d opts args a,
    let args' :=
      if String.eqb (Wrapper (rOpt a)) "" then args
      else Wrapper (rOpt a) :: args in
    let opts' :=
      {| opt_DownloadOutputs :=
           opt_DownloadOutputs opts
           && negb (opt_PreserveUnchangedOutputMtime opts);
         opt_PreserveUnchangedOutputMtime :=
           opt_PreserveUnchangedOutputMtime opts |} in
    let recorded (out : Ran) (r : Result) :=
      res (ran_action out) = Some r
      /\ (exists rm, RemoteMetadata (rec (ran_action out)) = Some rm
                     /\ RemoteResult rm = Some r)
      /\ LocalMetadata (rec (ran_action out)) = LocalMetadata (rec a) in
    (forall err,
        NewContext w args' opts' = inr err ->
        exists out,
          runRemote w d opts args a = Some out
          /\ recorded out (NewLocalErrorResult (Some err))
          /\ ran_download out = None)
    /\ forall ec,
         NewContext w args' opts' = inl ec ->
         (ecResult (executed w ec) = None -> runRemote w d opts args a = None)
         /\ forall r,
              ecResult (executed w ec) = Some r ->
              exists out,
                runRemote w d opts args a = Some out
                /\ recorded out r
                /\ ran_digest out = ActionDigest (ecMetadata (executed w ec))
                /\ (Err r <> None
                    \/ (exists e,
                           GetFlattenedOutputs w (executed w ec) = inr e)
                    \/ opt_DownloadOutputs opts = false
                    \/ opt_PreserveUnchangedOutputMtime opts = false ->
                    ran_download out = None).
Proof.
  intros w d opts args a args' opts' recorded.
  rewrite runRemote_passes. cbv zeta.
  change (passed_args a args) with args'.
  change (passed_opts opts) with opts'.
  split.
  - intros err ->. eexists. split; [reflexivity|].
    split; [|reflexivity]. unfold recorded. cbn.
    split; [reflexivity|]. split; [eauto|reflexivity].
  - intros ec ->. split; [intros ->; reflexivity|].
    intros r ->.
    destruct (negb (not_nil (Err r))
              && (opt_DownloadOutputs opts
                  && opt_PreserveUnchangedOutputMtime opts)) eqn:Hb.
    + apply andb_true_iff in Hb as [He Hb].
      apply andb_true_iff in Hb as [Hd Hp].
      destruct (GetFlattenedOutputs w (executed w ec)) as [flat|e] eqn:Hf;
        eexists; (split; [reflexivity|]); unfold recorded; cbn;
        (split; [split; [reflexivity|split; [eauto|reflexivity]]|]);
        (split; [reflexivity|]).
      * intros [H|[[e H]|[H|H]]]; try congruence.
        destruct (Err r); [discriminate|congruence].
      * reflexivity.
    + eexists. split; [reflexivity|]. unfold recorded. cbn.
      split; [split; [reflexivity|split; [eauto|reflexivity]]|].
      split; reflexivity.
Qed.


(** The sample run: only [obj/b.o] is downloaded. *)
Lemma runRemote_downloads_changed_outputs_sample :
  exists out,
    runRemote sample_exec sample_disk preserve_mtimes ["clang"; "-c"; "a.c"]
      Race.sample_action = Some out
    /\ ran_download out = Some ({[ "obj/b.o" := node_b ]}, "/src")
    /\ opt_DownloadOutputs (ran_opts out) = false
    /\ forall outs root,
         ran_download out = Some (outs, root) ->
         exists r, res (ran_action out) = Some r /\ Err r = None.
Proof.
  destruct (runRemote sample_exec sample_disk preserve_mtimes
              ["clang"; "-c"; "a.c"] Race.sample_action) as [out|] eqn:E;
    [|vm_compute in E; discriminate].
  exists out. split; [reflexivity|].
  destruct (runRemote_downloads_changed_outputs _ _ _ _ _ _ E)
    as (_ & Ho & _ & Hd).
  split; [|split; [exact Ho|]].
  - vm_compute in E. injection E as <-. vm_compute. reflexivity.
  - intros outs root H. destruct (Hd outs root H) as (_ & _ & _ & Hr & _).
    exact Hr.
Defined.

End Remote.

(** ** Local execution *)

Module Local.

Import Command Action.

Local Open Scope Z_scope.

(** What [pool.Run(ctx, ctx, cmd, a.lbls, a.oe, a.rec)] returns, and the
    log record and the output as it leaves them. *)
Record PoolRun := {
  pr_exitCode : Z;
  pr_err : option error;
  pr_rec : LogRecord;
  pr_oe : option OutErr
}.

(** [runLocal]: [wrapper] is [a.lOpt.GetWrapper()], [args] is [a.cmd.Args]
    and [pool_Run] is the local pool, which gets the arguments of the
    command, the log record and the output.  The result holds the
    arguments that the pool got.  [None] is the run-time panic of
    [a.rec.LocalMetadata] being nil. *)
Definition runLocal (wrapper : string) (args : list string)
  (pool_Run : list string -> LogRecord -> option OutErr -> PoolRun)
  (a : action) : option (action * list string) :=
  let args :=
    if negb (String.eqb wrapper "") then wrapper :: args else args in
  let p := pool_Run args (rec a) (oe a) in
  let a := set_oe (pr_oe p) (set_rec (pr_rec p) a) in
  let a := set_res (Some (NewResultFromExitCode (pr_exitCode p))) a in
  let a :=
    if (pr_exitCode p =? 0) && not_nil (pr_err p)
    then set_res (Some (NewLocalErrorResult (pr_err p))) a
    else a in
  match LocalMetadata (rec a) with
  | None => None
  | Some lm =>
      let lm := Race.set_ExecutedLocally true lm in
      let lm := Race.set_LocalResult (res a) lm in
      Some (set_rec {| LocalMetadata := Some lm;
                       RemoteMetadata := RemoteMetadata (rec a) |} a,
            args)
  end.

(** The result that [runLocal] and [runLocalRace] make of an exit code and
    an error. *)
Definition local_result (code : Z) (err : option error) : Result :=
  if (code =? 0) && not_nil err then NewLocalErrorResult err
  else NewResultFromExitCode code.

(** A pool that runs the command, which exits with [code], and one that
    fails to run it with [err]. *)
Definition pool_exits (code : Z) (args : list string) (r : LogRecord)
  (o : option OutErr) : PoolRun :=
  {| pr_exitCode := code; pr_err := None; pr_rec := r;
     pr_oe := Some {| Stdout := "compiled"; Stderr := "" |} |}.

Definition pool_fails (code : Z) (err : error) (args : list string)
  (r : LogRecord) (o : option OutErr) : PoolRun :=
  {| pr_exitCode := code; pr_err := Some err; pr_rec := r; pr_oe := o |}.

Lemma local_result_facts code err :
  (IsOk (local_result code err) = true <-> code = 0 /\ err = None)
  /\ (code <> 0 \/ err = None -> ExitCode (local_result code err) = code)
  /\ (code = 0 -> err <> None ->
      Status (local_result code err) = LocalErrorResultStatus)
  /\ Err (local_result code err) = (if code =? 0 then err else None).
Proof.
  unfold local_result.
  destruct (Z.eqb_spec code 0) as [->|Hx].
  - destruct err as [e|]; cbn.
    + split; [split; [discriminate|intros [_ H]; discriminate]|].
      split; [intros [H|H]; congruence|]. split; reflexivity.
    + split; [split; [auto|reflexivity]|].
      split; [reflexivity|]. split; [congruence|reflexivity].
  - cbn [andb]. unfold NewResultFromExitCode.
    destruct (Z.eqb_spec code 0) as [?|_]; [contradiction|]. cbn.
    split; [split; [discriminate|intros [H _]; contradiction]|].
    split; [reflexivity|]. split; [contradiction|reflexivity].
Qed.

Lemma runLocal_run wrapper args pool_Run a a' passed :
  runLocal wrapper args pool_Run a = Some (a', passed) ->
  let p := pool_Run passed (rec a) (oe a) in
  let r := local_result (pr_exitCode p) (pr_err p) in
  passed = (if String.eqb wrapper "" then args else wrapper :: args)
  /\ exists lm,
       LocalMetadata (pr_rec p) = Some lm
       /\ a'
          = set_rec
              {| LocalMetadata :=
                   Some (Race.set_LocalResult (Some r)
                           (Race.set_ExecutedLocally true lm));
                 RemoteMetadata := RemoteMetadata (pr_rec p) |}
              (set_res (Some r)
                 (set_oe (pr_oe p) (set_rec (pr_rec p) a))).
Proof.
  unfold runLocal. cbv zeta.
  assert (Ha : (if negb (String.eqb wrapper "") then wrapper :: args
                else args)
               = (if String.eqb wrapper "" then args else wrapper :: args))
    by (destruct (String.eqb wrapper ""); reflexivity).
  rewrite Ha.
  set (passed0 := if String.eqb wrapper "" then args else wrapper :: args).
  set (p := pool_Run passed0 (rec a) (oe a)).
  unfold local_result.
  destruct ((pr_exitCode p =? 0) && not_nil (pr_err p)) eqn:Hb;
    cbn [rec set_res set_rec set_oe LocalMetadata];
    (destruct (LocalMetadata (pr_rec p)) as [lm|] eqn:Hlm; [|discriminate]);
    intros [= <- <-]; (split; [reflexivity|]);
    exists lm; (split; [exact Hlm|]); subst p; rewrite Hb; reflexivity.
Qed.

(** X11.  [runLocal] passes the arguments of the command to the local
    pool, behind the wrapper if the local options name one.  The result of
    the action is ok exactly when the pool returns exit code 0 and no
    error; it carries the error of the pool only when the exit code is 0
    (then it is a local-error result), and with another exit code it
    carries that exit code and no error.  The local metadata, as the pool
    left them, say that the action was executed locally and hold the
    result; the remote metadata and the output are as the pool left
    them. *)
Theorem runLocal_result :
  forall wrapper args pool_Run a a' passed,
    runLocal wrapper args pool_Run a = Some (a', passed) ->
    let p := pool_Run passed (rec a) (oe a) in
    passed = (if String.eqb wrapper "" then args else wrapper :: args)
    /\ exists r lm,
         res a' = Some r
         /\ (IsOk r = true <-> pr_exitCode p = 0 /\ pr_err p = None)
         /\ (pr_exitCode p <> 0 \/ pr_err p = None ->
             ExitCode r = pr_exitCode p)
         /\ (pr_exitCode p = 0 -> pr_err p <> None ->
             Status r = LocalErrorResultStatus)
         /\ Err r = (if pr_exitCode p =? 0 then pr_err p else None)
         /\ LocalMetadata (rec a') = Some lm
         /\ ExecutedLocally lm = true
         /\ LocalResult lm = Some r
         /\ RemoteMetadata (rec a') = RemoteMetadata (pr_rec p)
         /\ oe a' = pr_oe p.
Proof.
  intros wrapper args pool a a' passed Hrun p.
  destruct (runLocal_run _ _ _ _ _ _ Hrun) as (Hp & lm & Hlm & ->).
  fold p. split; [exact Hp|].
  destruct (local_result_facts (pr_exitCode p) (pr_err p))
    as (Hok & Hcode & Hst & Herr).
  exists (local_result (pr_exitCode p) (pr_err p)). eexists.
  cbn [res set_rec set_res rec LocalMetadata RemoteMetadata oe set_oe].
  split; [reflexivity|]. split; [exact Hok|]. split; [exact Hcode|].
  split; [exact Hst|]. split; [exact Herr|]. split; [reflexivity|].
  split; [reflexivity|]. split; [reflexivity|]. split; reflexivity.
Qed.

(** A command that exits with 2 while the pool reports an error. *)
Lemma runLocal_result_exit_2 :
  exists a',
    runLocal "" ["clang"; "-c"; "a.c"]
      (pool_fails 2 (errorString "exit status 2")) Race.sample_action
    = Some (a', ["clang"; "-c"; "a.c"])
    /\ exists r,
         res a' = Some r /\ ExitCode r = 2 /\ Err r = None /\ IsOk r = false.
Proof.
  destruct (runLocal "" ["clang"; "-c"; "a.c"]
              (pool_fails 2 (errorString "exit status 2")) Race.sample_action)
    as [[a' passed]|] eqn:E; [|vm_compute in E; discriminate].
  destruct (runLocal_result _ _ _ _ _ _ E)
    as (Hp & r & lm & Hr & Hok & Hc & _ & He & _).
  cbn in Hp. subst passed. exists a'. split; [reflexivity|].
  exists r. split; [exact Hr|].
  split; [apply Hc; left; discriminate|]. split; [exact He|].
  destruct (IsOk r) eqn:Ok; [|reflexivity].
  destruct (proj1 Hok eq_refl) as [H _]. discriminate.
Defined.

(** X12.  The local attempt of a race and [runLocal] make the same result
    of the same exit code and error of the pool: whenever the outcome of
    [runLocalRace] carries a result, it is the result that [runLocal]
    gives the action, and an outcome of kind [local] leaves it in [a.res].
    The outcome carries no result exactly when the error of the pool is a
    cancellation of the context. *)
Theorem runLocalRace_agrees_with_runLocal :
  forall wrapper args pool_Run a a' passed (w : Race.LocalRun) b,
    runLocal wrapper args pool_Run a = Some (a', passed) ->
    Race.exitCode w = pr_exitCode (pool_Run passed (rec a) (oe a)) ->
    Race.run_err w = pr_err (pool_Run passed (rec a) (oe a)) ->
    let rr := snd (Race.runLocalRace b w) in
    (forall r, Race.rr_res rr = Some r -> res a' = Some r)
    /\ (Race.rr_res rr = None <->
        errors_Is_Canceled (Race.run_err w) = true)
    /\ (Race.rr_t rr = Race.local ->
        res (fst (Race.runLocalRace b w)) = res a').
Proof.
  intros wrapper args pool a a' passed w b Hrun Hx He rr.
  destruct (runLocal_run _ _ _ _ _ _ Hrun) as (_ & lm & _ & ->).
  cbn [res set_rec set_res]. rewrite <- Hx, <- He. subst rr.
  unfold Race.runLocalRace, local_result.
  destruct (errors_Is_Canceled (Race.run_err w)) eqn:Hc.
  - cbn. split; [discriminate|]. split; [tauto|discriminate].
  - destruct ((Race.exitCode w =? 0) && not_nil (Race.run_err w)) eqn:Hb;
      cbn.
    + split; [intros r [= <-]; reflexivity|].
      split; [split; discriminate|discriminate].
    + split; [intros r [= <-]; reflexivity|].
      split; [split; discriminate|reflexivity].
Qed.

(** The same command in the local attempt of a race. *)
Lemma runLocalRace_agrees_with_runLocal_exit_2 :
  let w :=
    {| Race.exitCode := 2;
       Race.run_err := Some (errorString "exit status 2");
       Race.lr := NewLogRecord; Race.lOE := Race.no_output |} in
  exists a',
    runLocal "" ["clang"; "-c"; "a.c"]
      (pool_fails 2 (errorString "exit status 2")) Race.sample_action
    = Some (a', ["clang"; "-c"; "a.c"])
    /\ Race.rr_t (snd (Race.runLocalRace Race.sample_action w)) = Race.local
    /\ res (fst (Race.runLocalRace Race.sample_action w)) = res a'.
Proof.
  intros w.
  destruct (runLocal "" ["clang"; "-c"; "a.c"]
              (pool_fails 2 (errorString "exit status 2")) Race.sample_action)
    as [[a' passed]|] eqn:E; [|vm_compute in E; discriminate].
  assert (Hp : passed = ["clang"; "-c"; "a.c"])
    by (vm_compute in E; injection E as _ <-; reflexivity).
  subst passed. exists a'. split; [reflexivity|].
  destruct (runLocalRace_agrees_with_runLocal _ _ _ _ _ _ w
              Race.sample_action E eq_refl eq_refl) as (_ & _ & H).
  split; [reflexivity|]. apply H. reflexivity.
Defined.

End Local.

(** ** Moving and removing outputs *)

Module Outputs.

Import Command Action.

Local Open Scope Z_scope.

(** [os.ModePerm], [0o777]. *)
Definition ModePerm : Z := 511.

(** The calls that the functions below make to the file metadata cache
    [a.fmc] and to the file system.  Closing the directory that
    [removeContents] has opened is left out. *)
Inductive call :=
| Get (path : string)
| Stat (path : string)
| Open (path : string)
| Readdirnames (path : string)
| MkdirAll (path : string) (perm : Z)
| Rename (oldpath newpath : string)
| Remove (path : string)
| RemoveAll (path : string).

(** What the cache and the file system answer to a call.  The first
    argument is the list of the calls made before it, oldest first, so
    that an answer may depend on everything done so far.  [os_Stat] gives
    the mode of the file info; [Join] and [Dir] are [filepath.Join] and
    [filepath.Dir]. *)
Record World := {
  fmc_Get : list call -> string -> Mtime.FileMetadata;
  os_Stat : list call -> string -> Z + error;
  os_Open : list call -> string -> option error;
  d_Readdirnames : list call -> string -> list string + error;
  os_MkdirAll : list call -> string -> Z -> option error;
  os_Rename : list call -> string -> string -> option error;
  os_Remove : list call -> string -> option error;
  os_RemoveAll : list call -> string -> option error;
  Join : list string -> string;
  Dir : string -> string
}.

(** The error of a call, if it fails. *)
Definition failure (w : World) (h : list call) (c : call) : option error :=
  match c with
  | Get _ => None
  | Stat path =>
      match os_Stat w h path with inr err => Some err | inl _ => None end
  | Open path => os_Open w h path
  | Readdirnames path =>
      match d_Readdirnames w h path with
      | inr err => Some err
      | inl _ => None
      end
  | MkdirAll path perm => os_MkdirAll w h path perm
  | Rename oldpath newpath => os_Rename w h oldpath newpath
  | Remove path => os_Remove w h path
  | RemoveAll path => os_RemoveAll w h path
  end.

(** *** [moveOutputsFromTemp] *)

(** The body of the first loop of [moveOutputsFromTemp], for the output
    file [f]: the calls made so far and either the directories created so
    far, when the loop goes on, or the error returned. *)
Definition move_file (w : World) (id srcDir destDir f : string)
  (dirs : gmap string bool) (h : list call)
  : list call * (gmap string bool + error) :=
  let src := Join w [srcDir; f] in
  let md := fmc_Get w h src in
  let h := (h ++ [Get src])%list in
  if not_nil (Mtime.fm_Err md) then (h, inl dirs)
  else
    let dest := Join w [destDir; f] in
    let created :=
      match dirs !! Dir w dest with
      | Some _ => (h, inl dirs)
      | None =>
          match os_MkdirAll w h (Dir w dest) ModePerm with
          | Some err =>
              ((h ++ [MkdirAll (Dir w dest) ModePerm])%list,
               inr (errorString
                      (id ++ ": failed to create output directory "
                       ++ Dir w dest ++ ": " ++ Error err)))
          | None =>
              ((h ++ [MkdirAll (Dir w dest) ModePerm])%list,
               inl (<[Dir w dest := true]> dirs))
          end
      end in
    match created with
    | (h, inr err) => (h, inr err)
    | (h, inl dirs) =>
        match os_Rename w h src dest with
        | Some err =>
            ((h ++ [Rename src dest])%list,
             inr (errorString
                    (id ++ ": failed to move file " ++ f ++ " from "
                     ++ srcDir ++ " to " ++ destDir ++ ": " ++ Error err)))
        | None => ((h ++ [Rename src dest])%list, inl dirs)
        end
    end.

Fixpoint move_files (w : World) (id srcDir destDir : string)
  (files : list string) (dirs : gmap string bool) (h : list call)
  : list call * option error :=
  match files with
  | [] => (h, None)
  | f :: files =>
      match move_file w id srcDir destDir f dirs h with
      | (h, inr err) => (h, Some err)
      | (h, inl dirs) => move_files w id srcDir destDir files dirs h
      end
  end.

(** The body of the second loop, for the output directory [d]. *)
Definition move_dir (w : World) (id srcDir destDir d : string)
  (h : list call) : list call * option error :=
  let src := Join w [srcDir; d] in
  let md := fmc_Get w h src in
  let h := (h ++ [Get src])%list in
  if negb (Mtime.fm_IsDirectory md) then (h, None)
  else
    let dest := Join w [destDir; d] in
    match os_RemoveAll w h dest with
    | Some err =>
        ((h ++ [RemoveAll dest])%list,
         Some (errorString
                 (id ++ ": failed to remove directory " ++ dest ++ ": "
                  ++ Error err)))
    | None =>
        let h := (h ++ [RemoveAll dest])%list in
        match os_Rename w h src dest with
        | Some err =>
            ((h ++ [Rename src dest])%list,
             Some (errorString
                     (id ++ ": cannot move directory " ++ d ++ " from "
                      ++ srcDir ++ " to " ++ destDir ++ ": " ++ Error err)))
        | None => ((h ++ [Rename src dest])%list, None)
        end
    end.

Fixpoint move_dirs (w : World) (id srcDir destDir : string)
  (ds : list string) (h : list call) : list call * option error :=
  match ds with
  | [] => (h, None)
  | d :: ds =>
      match move_dir w id srcDir destDir d h with
      | (h, Some err) => (h, Some err)
      | (h, None) => move_dirs w id srcDir destDir ds h
      end
  end.

(** [moveOutputsFromTemp]: the calls made, oldest first, and the error
    returned. *)
Definition moveOutputsFromTemp (w : World) (c : Cmd) (tmpDir : string)
  : list call * option error :=
  let srcDir := Join w [tmpDir; WorkingDir c] in
  let destDir := Join w [ExecRoot c; WorkingDir c] in
  match
    move_files w (ExecutionID c) srcDir destDir (OutputFiles c) ∅ []
  with
  | (h, Some err) => (h, Some err)
  | (h, None) => move_dirs w (ExecutionID c) srcDir destDir (OutputDirs c) h
  end.

(** *** [addDepsFileOutput] and [removeAllOutputs] *)

(** [addDepsFileOutput], on the command of the action. *)
Definition addDepsFileOutput (depsFile : string) (c : Cmd) : Cmd :=
  if negb (String.eqb depsFile "") then
    {| ExecutionID := ExecutionID c; ExecRoot := ExecRoot c;
       WorkingDir := WorkingDir c;
       OutputFiles := (OutputFiles c ++ [depsFile])%list;
       OutputDirs := OutputDirs c |}
  else c.

(** The first loop of [removeAllOutputs]. *)
Fixpoint remove_files (w : World) (depsFile : string) (c : Cmd)
  (files : list string) (h : list call) : list call :=
  match files with
  | [] => h
  | f :: files =>
      if String.eqb f depsFile then remove_files w depsFile c files h
      else
        let path := Join w [ExecRoot c; WorkingDir c; f] in
        remove_files w depsFile c files (h ++ [Remove path])%list
  end.

(** The body of the second loop, for the output directory [f]. *)
Definition remove_dir (w : World) (c : Cmd) (f : string) (h : list call)
  : list call :=
  let path := Join w [ExecRoot c; WorkingDir c; f] in
  match os_Stat w h path with
  | inr _ => (h ++ [Stat path])%list
  | inl mode =>
      let h := (h ++ [Stat path])%list in
      match os_RemoveAll w h path with
      | Some _ => (h ++ [RemoveAll path])%list
      | None => (h ++ [RemoveAll path] ++ [MkdirAll path mode])%list
      end
  end.

(** [removeAllOutputs]: the calls made, oldest first. *)
Definition removeAllOutputs (w : World) (depsFile : string) (c : Cmd)
  : list call :=
  fold_left (fun h f => remove_dir w c f h) (OutputDirs c)
    (remove_files w depsFile c (OutputFiles c) []).

(** *** [removeContents] *)

(** The loop of [removeContents]. *)
Fixpoint remove_names (w : World) (dir : string) (names : list string)
  (h : list call) : list call * option error :=
  match names with
  | [] => (h, None)
  | name :: names =>
      let path := Join w [dir; name] in
      match os_RemoveAll w h path with
      | Some err => ((h ++ [RemoveAll path])%list, Some err)
      | None => remove_names w dir names (h ++ [RemoveAll path])%list
      end
  end.

(** [removeContents]: the calls made, oldest first, and the error
    returned. *)
Definition removeContents (w : World) (dir : string)
  : list call * option error :=
  match os_Open w [] dir with
  | Some err => ([Open dir], Some err)
  | None =>
      let h := [Open dir] in
      match d_Readdirnames w h dir with
      | inr err => ((h ++ [Readdirnames dir])%list, Some err)
      | inl names =>
          match remove_names w dir names (h ++ [Readdirnames dir])%list with
          | (h, Some err) => (h, Some err)
          | (h, None) =>
              ((h ++ [RemoveAll dir])%list, os_RemoveAll w h dir)
          end
      end
  end.


(** *** A sample run *)

(** [filepath.Join] and [filepath.Dir] on clean elements separated by
    slashes. *)
Definition sample_Join (elem : list string) : string :=
  String.concat "/" elem.

Fixpoint sample_Dir_loop (path : string) : option string :=
  match path with
  | EmptyString => None
  | String c rest =>
      match sample_Dir_loop rest with
      | Some dir => Some (String c dir)
      | None => if Ascii.eqb c "/" then Some "" else None
      end
  end.

Definition sample_Dir (path : string) : string :=
  match sample_Dir_loop path with
  | Some "" => "/"
  | Some dir => dir
  | None => "."
  end.

(** The remote run has left an object file, its deps file and a directory
    of generated sources under the temporary directory; the exec root
    holds the directory of generated sources of an earlier run.  Every
    call to the file system succeeds. *)
Definition sample_world : World :=
  {| fmc_Get := fun _ path =>
       {| Mtime.fm_Digest := {| Mtime.Hash := "ab12"; Mtime.Size := 42 |};
          Mtime.fm_MTime := 1700000000;
          Mtime.fm_IsDirectory := String.eqb path "/tmp/racing/e1/wd/gen";
          Mtime.fm_Err :=
            if String.eqb path "/tmp/racing/e1/wd/obj/a.o"
               || String.eqb path "/tmp/racing/e1/wd/obj/a.d"
               || String.eqb path "/tmp/racing/e1/wd/gen"
            then None
            else Some (errorString "lstat: no such file or directory") |};
     os_Stat := fun _ path =>
       if String.eqb path "/exec/wd/gen" then inl 493
       else inr (errorString "stat: no such file or directory");
     os_Open := fun _ _ => None;
     d_Readdirnames := fun _ _ => inl ["wd"];
     os_MkdirAll := fun _ _ _ => None;
     os_Rename := fun _ _ _ => None;
     os_Remove := fun _ _ => None;
     os_RemoveAll := fun _ _ => None;
     Join := sample_Join;
     Dir := sample_Dir |}.

Definition sample_cmd : Cmd :=
  {| ExecutionID := "e1"; ExecRoot := "/exec"; WorkingDir := "wd";
     OutputFiles := ["obj/a.o"; "obj/a.d"; "obj/a.dwo"];
     OutputDirs := ["gen"] |}.

(** The calls of [moveOutputsFromTemp] and of [removeAllOutputs] in the
    sample. *)
Definition sample_moves : list call :=
  [Get "/tmp/racing/e1/wd/obj/a.o";
   MkdirAll "/exec/wd/obj" 511;
   Rename "/tmp/racing/e1/wd/obj/a.o" "/exec/wd/obj/a.o";
   Get "/tmp/racing/e1/wd/obj/a.d";
   Rename "/tmp/racing/e1/wd/obj/a.d" "/exec/wd/obj/a.d";
   Get "/tmp/racing/e1/wd/obj/a.dwo";
   Get "/tmp/racing/e1/wd/gen";
   RemoveAll "/exec/wd/gen";
   Rename "/tmp/racing/e1/wd/gen" "/exec/wd/gen"].

Definition sample_removals : list call :=
  [Remove "/exec/wd/obj/a.o";
   Remove "/exec/wd/obj/a.dwo";
   Stat "/exec/wd/gen";
   RemoveAll "/exec/wd/gen";
   MkdirAll "/exec/wd/gen" 493].

(** *** Properties of every call of a run *)

(** [each P h]: every call of [h] satisfies [P], which also gets the calls
    made before it. *)
Definition each (P : list call -> call -> Prop) (h : list call) : Prop :=
  forall pre c post, h = (pre ++ c :: post)%list -> P pre c.

Lemma each_nil P : each P [].
Proof. intros pre c post H. destruct pre; discriminate H. Qed.

Lemma each_snoc P h c : each P h -> P h c -> each P (h ++ [c]).
Proof.
  intros Hh Hc pre c' post H.
  destruct post as [|x post _] using rev_ind.
  - apply app_inj_tail in H as [-> ->]. exact Hc.
  - change (pre ++ c' :: post ++ [x])%list
      with (pre ++ (c' :: post) ++ [x])%list in H.
    rewrite app_assoc in H. apply app_inj_tail in H as [-> _].
    exact (Hh pre c' post eq_refl).
Qed.

(** A run that went well, and one that stopped at a failed call. *)
Definition went_well (w : World) (h : list call) : Prop :=
  each (fun pre c => failure w pre c = None) h.

Definition stopped (w : World) (h : list call) (err : error) : Prop :=
  exists pre c cause,
    h = (pre ++ [c])%list /\ went_well w pre
    /\ failure w pre c = Some cause
    /\ exists msg, err = errorString (msg ++ Error cause).

Lemma append_assoc (a b c : string) : (a ++ b) ++ c = a ++ b ++ c.
Proof.
  induction a as [|x a IH]; cbn [String.append]; [reflexivity|].
  rewrite IH. reflexivity.
Qed.

Lemma ends_with_cons (a s e : string) :
  (exists m, s = m ++ e) -> exists m, a ++ s = m ++ e.
Proof. intros [m ->]. exists (a ++ m). rewrite append_assoc. reflexivity. Qed.

Lemma ends_with_error (s e : string) :
  (exists m, s = m ++ e) ->
  exists msg, errorString s = errorString (msg ++ e).
Proof. intros [m ->]. exists m. reflexivity. Qed.

Ltac ends_with :=
  apply ends_with_error; repeat apply ends_with_cons; exists ""; reflexivity.

Lemma went_well_snoc w h c :
  went_well w h -> failure w h c = None -> went_well w (h ++ [c]).
Proof.
  intros Hh Hc.
  exact (each_snoc (fun pre c => failure w pre c = None) h c Hh Hc).
Qed.

Lemma move_file_stops w id srcDir destDir f dirs h :
  went_well w h ->
  match move_file w id srcDir destDir f dirs h with
  | (h', inl _) => went_well w h'
  | (h', inr err) => stopped w h' err
  end.
Proof.
  intros Hh. unfold move_file.
  assert (Hg : went_well w (h ++ [Get (Join w [srcDir; f])])).
  { apply went_well_snoc; [exact Hh | reflexivity]. }
  destruct (not_nil _); [exact Hg|].
  destruct (dirs !! _) as [b|].
  - destruct (os_Rename w _ _ _) as [err|] eqn:Hr.
    + eexists _, _, err. repeat split; [exact Hg | exact Hr | ends_with].
    + apply went_well_snoc; [exact Hg | exact Hr].
  - destruct (os_MkdirAll w _ _ _) as [err|] eqn:Hm.
    + eexists _, _, err. repeat split; [exact Hg | exact Hm | ends_with].
    + assert (Hg' : went_well w
                 ((h ++ [Get (Join w [srcDir; f])])
                  ++ [MkdirAll (Dir w (Join w [destDir; f])) ModePerm])).
      { apply went_well_snoc; [exact Hg | exact Hm]. }
      destruct (os_Rename w _ _ _) as [err|] eqn:Hr.
      * eexists _, _, err. repeat split; [exact Hg' | exact Hr | ends_with].
      * apply went_well_snoc; [exact Hg' | exact Hr].
Qed.

Lemma move_files_stops w id srcDir destDir files :
  forall dirs h,
    went_well w h ->
    match move_files w id srcDir destDir files dirs h with
    | (h', None) => went_well w h'
    | (h', Some err) => stopped w h' err
    end.
Proof.
  induction files as [|f files IH]; intros dirs h Hh; cbn [move_files].
  - exact Hh.
  - pose proof (move_file_stops w id srcDir destDir f dirs h Hh) as H.
    destruct (move_file w id srcDir destDir f dirs h) as [h' [dirs'|err]].
    + apply IH, H.
    + exact H.
Qed.

Lemma move_dir_stops w id srcDir destDir d h :
  went_well w h ->
  match move_dir w id srcDir destDir d h with
  | (h', None) => went_well w h'
  | (h', Some err) => stopped w h' err
  end.
Proof.
  intros Hh. unfold move_dir.
  assert (Hg : went_well w (h ++ [Get (Join w [srcDir; d])])).
  { apply went_well_snoc; [exact Hh | reflexivity]. }
  destruct (negb _); [exact Hg|].
  destruct (os_RemoveAll w _ _) as [err|] eqn:Hm.
  - eexists _, _, err. repeat split; [exact Hg | exact Hm | ends_with].
  - assert (Hg' : went_well w
               ((h ++ [Get (Join w [srcDir; d])])
                ++ [RemoveAll (Join w [destDir; d])])).
    { apply went_well_snoc; [exact Hg | exact Hm]. }
    destruct (os_Rename w _ _ _) as [err|] eqn:Hr.
    + eexists _, _, err. repeat split; [exact Hg' | exact Hr | ends_with].
    + apply went_well_snoc; [exact Hg' | exact Hr].
Qed.

Lemma move_dirs_stops w id srcDir destDir ds :
  forall h,
    went_well w h ->
    match move_dirs w id srcDir destDir ds h with
    | (h', None) => went_well w h'
    | (h', Some err) => stopped w h' err
    end.
Proof.
  induction ds as [|d ds IH]; intros h Hh; cbn [move_dirs].
  - exact Hh.
  - pose proof (move_dir_stops w id srcDir destDir d h Hh) as H.
    destruct (move_dir w id srcDir destDir d h) as [h' [err|]].
    + exact H.
    + apply IH, H.
Qed.

(** X17.  [moveOutputsFromTemp] stops at the first call to the file system
    that fails.  When it returns no error, every call it made succeeded.
    When it returns an error, the last call it made is the one that
    failed, every call before it succeeded, and the error is a new one
    whose message ends with the message of the cause. *)
Theorem moveOutputsFromTemp_stops_at_first_failure :
  forall w c tmpDir,
    match moveOutputsFromTemp w c tmpDir with
    | (t, None) =>
        forall pre x post,
          t = (pre ++ x :: post)%list -> failure w pre x = None
    | (t, Some err) =>
        exists pre x cause,
          t = (pre ++ [x])%list
          /\ (forall pre' y post,
                 pre = (pre' ++ y :: post)%list -> failure w pre' y = None)
          /\ failure w pre x = Some cause
          /\ exists msg, err = errorString (msg ++ Error cause)
    end.
Proof.
  intros w c tmpDir. unfold moveOutputsFromTemp.
  pose proof (move_files_stops w (ExecutionID c)
                (Join w [tmpDir; WorkingDir c])
                (Join w [ExecRoot c; WorkingDir c]) (OutputFiles c) ∅ []
                (each_nil _)) as H1.
  destruct (move_files _ _ _ _ _ _ _) as [h [err|]].
  - exact H1.
  - pose proof (move_dirs_stops w (ExecutionID c)
                  (Join w [tmpDir; WorkingDir c])
                  (Join w [ExecRoot c; WorkingDir c]) (OutputDirs c) h H1)
      as H2.
    destruct (move_dirs _ _ _ _ _ _) as [h' [err|]]; exact H2.
Qed.


(** What [moveOutputsFromTemp] may call, and when: [files] and [ds] are
    the output files and directories of the command. *)
Definition prepared (w : World) (srcDir destDir : string)
  (files ds : list string) (pre : list call) (x : call) : Prop :=
  match x with
  | Get _ => True
  | MkdirAll path perm =>
      perm = 511 /\ (forall perm', MkdirAll path perm' ∉ pre)
  | Rename src dest =>
      (exists f,
          f ∈ files /\ src = Join w [srcDir; f] /\ dest = Join w [destDir; f]
          /\ MkdirAll (Dir w dest) 511 ∈ pre)
      \/ (exists d,
             d ∈ ds /\ src = Join w [srcDir; d] /\ dest = Join w [destDir; d]
             /\ exists pre', pre = (pre' ++ [RemoveAll dest])%list)
  | RemoveAll dest =>
      exists d pre',
        d ∈ ds /\ dest = Join w [destDir; d]
        /\ pre = (pre' ++ [Get (Join w [srcDir; d])])%list
        /\ Mtime.fm_IsDirectory (fmc_Get w pre' (Join w [srcDir; d])) = true
  | _ => False
  end.

(** The map [dirs] holds the directories that the calls made so far have
    created. *)
Definition created (dirs : gmap string bool) (h : list call) : Prop :=
  (forall path perm, MkdirAll path perm ∈ h -> is_Some (dirs !! path))
  /\ (forall path, is_Some (dirs !! path) -> MkdirAll path 511 ∈ h).

Lemma created_snoc dirs h x :
  (forall path perm, x <> MkdirAll path perm) ->
  created dirs h -> created dirs (h ++ [x]).
Proof.
  intros Hx [H1 H2]. split.
  - intros path perm Hin. apply elem_of_app in Hin as [Hin|Hin].
    + exact (H1 path perm Hin).
    + apply list_elem_of_singleton in Hin. destruct (Hx path perm).
      symmetry. exact Hin.
  - intros path Hp. apply elem_of_app. left. exact (H2 path Hp).
Qed.

Lemma created_mkdir dirs h path :
  created dirs h ->
  created (<[path := true]> dirs) (h ++ [MkdirAll path 511]).
Proof.
  intros [H1 H2]. split.
  - intros p perm Hin. destruct (decide (p = path)) as [->|Hne].
    + rewrite lookup_insert_eq. eauto.
    + rewrite lookup_insert_ne by congruence.
      apply elem_of_app in Hin as [Hin|Hin]; [exact (H1 p perm Hin)|].
      apply list_elem_of_singleton in Hin. congruence.
  - intros p Hp. apply elem_of_app. destruct (decide (p = path)) as [->|Hne].
    + right. apply list_elem_of_singleton. reflexivity.
    + rewrite lookup_insert_ne in Hp by congruence. left. exact (H2 p Hp).
Qed.

Lemma move_file_prepared w id srcDir destDir files ds f dirs h :
  f ∈ files ->
  each (prepared w srcDir destDir files ds) h -> created dirs h ->
  match move_file w id srcDir destDir f dirs h with
  | (h', inl dirs') =>
      each (prepared w srcDir destDir files ds) h' /\ created dirs' h'
  | (h', inr _) => each (prepared w srcDir destDir files ds) h'
  end.
Proof.
  intros Hf Hh Hd. unfold move_file.
  set (src := Join w [srcDir; f]). set (dest := Join w [destDir; f]).
  assert (Hg : each (prepared w srcDir destDir files ds) (h ++ [Get src])).
  { apply each_snoc; [exact Hh | exact I]. }
  assert (Hdg : created dirs (h ++ [Get src])).
  { apply created_snoc; [discriminate | exact Hd]. }
  destruct (not_nil _); [split; assumption|].
  assert (Hren : forall dirs' h',
             each (prepared w srcDir destDir files ds) h' ->
             created dirs' h' -> is_Some (dirs' !! Dir w dest) ->
             each (prepared w srcDir destDir files ds)
               (h' ++ [Rename src dest])
             /\ created dirs' (h' ++ [Rename src dest])).
  { intros dirs' h' Hh' Hd' Hs. split.
    - apply each_snoc; [exact Hh'|]. left. exists f.
      repeat split; [exact Hf|]. apply Hd', Hs.
    - apply created_snoc; [discriminate | exact Hd']. }
  destruct (dirs !! Dir w dest) as [b|] eqn:Hl.
  - assert (Hs : is_Some (dirs !! Dir w dest)) by (rewrite Hl; eauto).
    destruct (Hren dirs _ Hg Hdg Hs) as [H1 H2].
    destruct (os_Rename w _ _ _); [exact H1 | split; assumption].
  - assert (Hm : each (prepared w srcDir destDir files ds)
                   ((h ++ [Get src]) ++ [MkdirAll (Dir w dest) ModePerm])).
    { apply each_snoc; [exact Hg|]. split; [reflexivity|].
      intros perm' Hin. apply Hdg in Hin. rewrite Hl in Hin.
      destruct Hin as [? Hin]. discriminate Hin. }
    destruct (os_MkdirAll w _ _ _); [exact Hm|].
    pose proof (created_mkdir dirs _ (Dir w dest) Hdg) as Hdm.
    assert (Hs : is_Some (<[Dir w dest := true]> dirs !! Dir w dest)).
    { rewrite lookup_insert_eq. eauto. }
    destruct (Hren _ _ Hm Hdm Hs) as [H1 H2].
    destruct (os_Rename w _ _ _); [exact H1 | split; assumption].
Qed.

Lemma move_files_prepared w id srcDir destDir files ds fs :
  forall dirs h,
    (forall f, f ∈ fs -> f ∈ files) ->
    each (prepared w srcDir destDir files ds) h -> created dirs h ->
    each (prepared w srcDir destDir files ds)
      (fst (move_files w id srcDir destDir fs dirs h)).
Proof.
  induction fs as [|f fs IH]; intros dirs h Hin Hh Hd; cbn [move_files].
  - exact Hh.
  - assert (Hf : f ∈ files) by (apply Hin; left).
    pose proof (move_file_prepared w id srcDir destDir files ds f dirs h
                  Hf Hh Hd) as H.
    destruct (move_file w id srcDir destDir f dirs h) as [h' [dirs'|err]].
    + destruct H as [H1 H2]. apply IH; [|exact H1 | exact H2].
      intros f' Hf'. apply Hin. right. exact Hf'.
    + exact H.
Qed.

Lemma move_dir_prepared w id srcDir destDir files ds d h :
  d ∈ ds ->
  each (prepared w srcDir destDir files ds) h ->
  each (prepared w srcDir destDir files ds)
    (fst (move_dir w id srcDir destDir d h)).
Proof.
  intros Hd Hh. unfold move_dir.
  set (src := Join w [srcDir; d]). set (dest := Join w [destDir; d]).
  assert (Hg : each (prepared w srcDir destDir files ds) (h ++ [Get src])).
  { apply each_snoc; [exact Hh | exact I]. }
  destruct (Mtime.fm_IsDirectory (fmc_Get w h src)) eqn:Hdir;
    cbn [negb]; [|exact Hg].
  assert (Hr : each (prepared w srcDir destDir files ds)
                 ((h ++ [Get src]) ++ [RemoveAll dest])).
  { apply each_snoc; [exact Hg|]. exists d, h. repeat split; assumption. }
  destruct (os_RemoveAll w _ _); [exact Hr|].
  assert (Hn : each (prepared w srcDir destDir files ds)
                 (((h ++ [Get src]) ++ [RemoveAll dest])
                  ++ [Rename src dest])).
  { apply each_snoc; [exact Hr|]. right. exists d.
    repeat split; [exact Hd|]. eexists. reflexivity. }
  destruct (os_Rename w _ _ _); exact Hn.
Qed.

Lemma move_dirs_prepared w id srcDir destDir files ds l :
  forall h,
    (forall d, d ∈ l -> d ∈ ds) ->
    each (prepared w srcDir destDir files ds) h ->
    each (prepared w srcDir destDir files ds)
      (fst (move_dirs w id srcDir destDir l h)).
Proof.
  induction l as [|d l IH]; intros h Hin Hh; cbn [move_dirs].
  - exact Hh.
  - assert (Hd : d ∈ ds) by (apply Hin; left).
    pose proof (move_dir_prepared w id srcDir destDir files ds d h Hd Hh)
      as H.
    destruct (move_dir w id srcDir destDir d h) as [h' [err|]].
    + exact H.
    + apply IH; [|exact H]. intros d' Hd'. apply Hin. right. exact Hd'.
Qed.

(** X18.  Every call that [moveOutputsFromTemp] makes to the file system
    is prepared by the calls before it.  A file is renamed only into a
    directory that an earlier [os.MkdirAll] of this run has made, with the
    permissions [0o777], and no directory is made twice.  An output
    directory is renamed only right after [os.RemoveAll] of its
    destination, and a destination is removed only right after the cache
    has said that the source is a directory.  Nothing is renamed or
    removed but the outputs of the command, from under the temporary
    directory to under the exec root, and no other call is made. *)
Theorem moveOutputsFromTemp_prepares_destinations :
  forall w c tmpDir pre x post,
    let srcDir := Join w [tmpDir; WorkingDir c] in
    let destDir := Join w [ExecRoot c; WorkingDir c] in
    fst (moveOutputsFromTemp w c tmpDir) = (pre ++ x :: post)%list ->
    match x with
    | Get _ => True
    | MkdirAll path perm =>
        perm = 511 /\ (forall perm', MkdirAll path perm' ∉ pre)
    | Rename src dest =>
        (exists f,
            f ∈ OutputFiles c
            /\ src = Join w [srcDir; f] /\ dest = Join w [destDir; f]
            /\ MkdirAll (Dir w dest) 511 ∈ pre)
        \/ (exists d,
               d ∈ OutputDirs c
               /\ src = Join w [srcDir; d] /\ dest = Join w [destDir; d]
               /\ exists pre', pre = (pre' ++ [RemoveAll dest])%list)
    | RemoveAll dest =>
        exists d pre',
          d ∈ OutputDirs c /\ dest = Join w [destDir; d]
          /\ pre = (pre' ++ [Get (Join w [srcDir; d])])%list
          /\ Mtime.fm_IsDirectory (fmc_Get w pre' (Join w [srcDir; d]))
             = true
    | _ => False
    end.
Proof.
  intros w c tmpDir pre x post srcDir destDir Ht.
  assert (H : each (prepared w srcDir destDir (OutputFiles c) (OutputDirs c))
                (fst (moveOutputsFromTemp w c tmpDir))).
  { unfold moveOutputsFromTemp. fold srcDir destDir.
    pose proof (move_files_prepared w (ExecutionID c) srcDir destDir
                  (OutputFiles c) (OutputDirs c) (OutputFiles c) ∅ []
                  (fun f Hf => Hf) (each_nil _)) as H1.
    destruct (move_files _ _ _ _ _ _ _) as [h [err|]].
    - apply H1. split; [intros ? ? Hin; inversion Hin|].
      intros path [b Hb]. rewrite lookup_empty in Hb. discriminate Hb.
    - apply (move_dirs_prepared w (ExecutionID c) srcDir destDir
               (OutputFiles c) (OutputDirs c) (OutputDirs c) h
               (fun d Hd => Hd)).
      apply H1. split; [intros ? ? Hin; inversion Hin|].
      intros path [b Hb]. rewrite lookup_empty in Hb. discriminate Hb. }
  exact (H pre x post Ht).
Qed.


Lemma moveOutputsFromTemp_prepares_destinations_sample :
  fst (moveOutputsFromTemp sample_world sample_cmd "/tmp/racing/e1")
  = (firstn 4 sample_moves
     ++ Rename "/tmp/racing/e1/wd/obj/a.d" "/exec/wd/obj/a.d"
     :: skipn 5 sample_moves)%list
  /\ ((exists f,
          f ∈ OutputFiles sample_cmd
          /\ "/tmp/racing/e1/wd/obj/a.d"
             = sample_Join [sample_Join ["/tmp/racing/e1"; "wd"]; f]
          /\ "/exec/wd/obj/a.d"
             = sample_Join [sample_Join ["/exec"; "wd"]; f]
          /\ MkdirAll (sample_Dir "/exec/wd/obj/a.d") 511
               ∈ firstn 4 sample_moves)
      \/ (exists d,
             d ∈ OutputDirs sample_cmd
             /\ "/tmp/racing/e1/wd/obj/a.d"
                = sample_Join [sample_Join ["/tmp/racing/e1"; "wd"]; d]
             /\ "/exec/wd/obj/a.d"
                = sample_Join [sample_Join ["/exec"; "wd"]; d]
             /\ exists pre',
                  firstn 4 sample_moves
                  = (pre' ++ [RemoveAll "/exec/wd/obj/a.d"])%list)).
Proof.
  assert (E : fst (moveOutputsFromTemp sample_world sample_cmd
                     "/tmp/racing/e1")
              = (firstn 4 sample_moves
                 ++ Rename "/tmp/racing/e1/wd/obj/a.d" "/exec/wd/obj/a.d"
                 :: skipn 5 sample_moves)%list)
    by (vm_compute; reflexivity).
  split; [exact E|].
  exact (moveOutputsFromTemp_prepares_destinations sample_world sample_cmd
           "/tmp/racing/e1" _ _ _ E).
Defined.

(** The output file [f] and the output directory [d] have been dealt
    with by the calls [h]. *)
Definition file_moved (w : World) (srcDir destDir f : string)
  (h : list call) : Prop :=
  let src := Join w [srcDir; f] in
  let dest := Join w [destDir; f] in
  exists pre post,
    h = (pre ++ Get src :: post)%list
    /\ (Mtime.fm_Err (fmc_Get w pre src) = None ->
        exists post',
          post = Rename src dest :: post'
          \/ post = MkdirAll (Dir w dest) 511 :: Rename src dest :: post').

Definition dir_moved (w : World) (srcDir destDir d : string)
  (h : list call) : Prop :=
  let src := Join w [srcDir; d] in
  let dest := Join w [destDir; d] in
  exists pre post,
    h = (pre ++ Get src :: post)%list
    /\ (Mtime.fm_IsDirectory (fmc_Get w pre src) = true ->
        exists post', post = RemoveAll dest :: Rename src dest :: post').

Lemma file_moved_app w srcDir destDir f h t :
  file_moved w srcDir destDir f h -> file_moved w srcDir destDir f (h ++ t).
Proof.
  intros (pre & post & -> & H). exists pre, (post ++ t)%list. split.
  - rewrite <- app_assoc. reflexivity.
  - intros He. destruct (H He) as [post' [-> | ->]];
      eexists; [left | right]; reflexivity.
Qed.

Lemma dir_moved_app w srcDir destDir d h t :
  dir_moved w srcDir destDir d h -> dir_moved w srcDir destDir d (h ++ t).
Proof.
  intros (pre & post & -> & H). exists pre, (post ++ t)%list. split.
  - rewrite <- app_assoc. reflexivity.
  - intros He. destruct (H He) as [post' ->]. eexists. reflexivity.
Qed.

Lemma move_file_moved w id srcDir destDir f dirs h h' dirs' :
  move_file w id srcDir destDir f dirs h = (h', inl dirs') ->
  (exists t, h' = (h ++ t)%list) /\ file_moved w srcDir destDir f h'.
Proof.
  unfold move_file, file_moved.
  set (src := Join w [srcDir; f]). set (dest := Join w [destDir; f]).
  destruct (Mtime.fm_Err (fmc_Get w h src)) as [e|] eqn:He; cbn [not_nil].
  - intros [= <- <-]. split; [eexists; reflexivity|].
    exists h, []. split; [reflexivity|]. intros Hn. congruence.
  - destruct (dirs !! Dir w dest) as [b|].
    + destruct (os_Rename w _ _ _); [discriminate|]. intros [= <- <-].
      split; [rewrite <- app_assoc; eexists; reflexivity|].
      exists h, [Rename src dest]. split.
      * rewrite <- app_assoc. reflexivity.
      * intros _. eexists. left. reflexivity.
    + destruct (os_MkdirAll w _ _ _); [discriminate|].
      destruct (os_Rename w _ _ _); [discriminate|]. intros [= <- <-].
      split; [rewrite <- !app_assoc; eexists; reflexivity|].
      exists h, [MkdirAll (Dir w dest) ModePerm; Rename src dest]. split.
      * rewrite <- !app_assoc. reflexivity.
      * intros _. eexists. right. reflexivity.
Qed.

Lemma move_files_moved w id srcDir destDir fs :
  forall dirs h h',
    move_files w id srcDir destDir fs dirs h = (h', None) ->
    (exists t, h' = (h ++ t)%list)
    /\ forall f, f ∈ fs -> file_moved w srcDir destDir f h'.
Proof.
  induction fs as [|f fs IH]; intros dirs h h'; cbn [move_files].
  - intros [= <-]. split; [exists []; rewrite app_nil_r; reflexivity|].
    intros f Hf. inversion Hf.
  - destruct (move_file w id srcDir destDir f dirs h) as [h1 [dirs1|err]]
      eqn:Hstep; [|discriminate].
    intros Hrest.
    destruct (move_file_moved _ _ _ _ _ _ _ _ _ Hstep) as [[t1 ->] Hf].
    destruct (IH _ _ _ Hrest) as [[t2 ->] Hfs]. split.
    + rewrite <- app_assoc. eexists. reflexivity.
    + intros f' Hin. apply elem_of_cons in Hin as [->|Hin].
      * apply file_moved_app, Hf.
      * apply Hfs, Hin.
Qed.

Lemma move_dir_moved w id srcDir destDir d h h' :
  move_dir w id srcDir destDir d h = (h', None) ->
  (exists t, h' = (h ++ t)%list) /\ dir_moved w srcDir destDir d h'.
Proof.
  unfold move_dir, dir_moved.
  set (src := Join w [srcDir; d]). set (dest := Join w [destDir; d]).
  destruct (Mtime.fm_IsDirectory (fmc_Get w h src)) eqn:He; cbn [negb].
  - destruct (os_RemoveAll w _ _); [discriminate|].
    destruct (os_Rename w _ _ _); [discriminate|]. intros [= <-].
    split; [rewrite <- !app_assoc; eexists; reflexivity|].
    exists h, [RemoveAll dest; Rename src dest]. split.
    + rewrite <- !app_assoc. reflexivity.
    + intros _. eexists. reflexivity.
  - intros [= <-]. split; [eexists; reflexivity|].
    exists h, []. split; [reflexivity|]. intros Hn. congruence.
Qed.

Lemma move_dirs_moved w id srcDir destDir ds :
  forall h h',
    move_dirs w id srcDir destDir ds h = (h', None) ->
    (exists t, h' = (h ++ t)%list)
    /\ forall d, d ∈ ds -> dir_moved w srcDir destDir d h'.
Proof.
  induction ds as [|d ds IH]; intros h h'; cbn [move_dirs].
  - intros [= <-]. split; [exists []; rewrite app_nil_r; reflexivity|].
    intros d Hd. inversion Hd.
  - destruct (move_dir w id srcDir destDir d h) as [h1 [err|]]
      eqn:Hstep; [discriminate|].
    intros Hrest.
    destruct (move_dir_moved _ _ _ _ _ _ _ Hstep) as [[t1 ->] Hd].
    destruct (IH _ _ Hrest) as [[t2 ->] Hds]. split.
    + rewrite <- app_assoc. eexists. reflexivity.
    + intros d' Hin. apply elem_of_cons in Hin as [->|Hin].
      * apply dir_moved_app, Hd.
      * apply Hds, Hin.
Qed.

(** X19.  When [moveOutputsFromTemp] returns no error it has asked the
    cache about every output file and every output directory under the
    temporary directory.  An output file whose metadata has no error was
    renamed to its place under the exec root in the very next call, or in
    the one after [os.MkdirAll] of its directory.  An output directory
    that the cache reports as a directory had its destination removed and
    was then renamed, in the next two calls. *)
Theorem moveOutputsFromTemp_moves_every_output :
  forall w c tmpDir t,
    let srcDir := Join w [tmpDir; WorkingDir c] in
    let destDir := Join w [ExecRoot c; WorkingDir c] in
    moveOutputsFromTemp w c tmpDir = (t, None) ->
    (forall f,
        f ∈ OutputFiles c ->
        exists pre post,
          t = (pre ++ Get (Join w [srcDir; f]) :: post)%list
          /\ (Mtime.fm_Err (fmc_Get w pre (Join w [srcDir; f])) = None ->
              exists post',
                post = Rename (Join w [srcDir; f]) (Join w [destDir; f])
                         :: post'
                \/ post = MkdirAll (Dir w (Join w [destDir; f])) 511
                            :: Rename (Join w [srcDir; f])
                                 (Join w [destDir; f])
                            :: post'))
    /\ (forall d,
           d ∈ OutputDirs c ->
           exists pre post,
             t = (pre ++ Get (Join w [srcDir; d]) :: post)%list
             /\ (Mtime.fm_IsDirectory (fmc_Get w pre (Join w [srcDir; d]))
                 = true ->
                 exists post',
                   post = RemoveAll (Join w [destDir; d])
                            :: Rename (Join w [srcDir; d])
                                 (Join w [destDir; d])
                            :: post')).
Proof.
  intros w c tmpDir t srcDir destDir. unfold moveOutputsFromTemp.
  fold srcDir destDir.
  destruct (move_files _ _ _ _ _ _ _) as [h [err|]] eqn:Hf; [discriminate|].
  intros Hd.
  destruct (move_files_moved _ _ _ _ _ _ _ _ Hf) as [_ Hfs].
  destruct (move_dirs_moved _ _ _ _ _ _ _ Hd) as [[t2 ->] Hds].
  split.
  - intros f Hin. exact (file_moved_app _ _ _ _ _ t2 (Hfs f Hin)).
  - intros d Hin. exact (Hds d Hin).
Qed.


Lemma moveOutputsFromTemp_moves_every_output_sample :
  moveOutputsFromTemp sample_world sample_cmd "/tmp/racing/e1"
  = (sample_moves, None)
  /\ exists pre post,
       sample_moves = (pre ++ Get "/tmp/racing/e1/wd/gen" :: post)%list
       /\ (Mtime.fm_IsDirectory
             (fmc_Get sample_world pre "/tmp/racing/e1/wd/gen") = true ->
           exists post',
             post = RemoveAll "/exec/wd/gen"
                    :: Rename "/tmp/racing/e1/wd/gen" "/exec/wd/gen"
                    :: post').
Proof.
  assert (E : moveOutputsFromTemp sample_world sample_cmd "/tmp/racing/e1"
              = (sample_moves, None)) by (vm_compute; reflexivity).
  split; [exact E|].
  assert (Hd : "gen" ∈ OutputDirs sample_cmd) by (left).
  exact (proj2 (moveOutputsFromTemp_moves_every_output sample_world
                  sample_cmd "/tmp/racing/e1" sample_moves E) "gen" Hd).
Defined.

(** What [removeAllOutputs] may call, and when. *)
Definition removal (w : World) (depsFile : string) (c : Cmd)
  (files ds : list string) (pre : list call) (x : call) : Prop :=
  match x with
  | Remove path =>
      exists f,
        f ∈ files /\ f <> depsFile
        /\ path = Join w [ExecRoot c; WorkingDir c; f]
  | Stat path =>
      exists d, d ∈ ds /\ path = Join w [ExecRoot c; WorkingDir c; d]
  | RemoveAll path =>
      exists pre' mode,
        pre = (pre' ++ [Stat path])%list /\ os_Stat w pre' path = inl mode
  | MkdirAll path mode =>
      exists pre',
        pre = (pre' ++ [Stat path; RemoveAll path])%list
        /\ os_Stat w pre' path = inl mode
        /\ os_RemoveAll w (pre' ++ [Stat path]) path = None
  | _ => False
  end.

Lemma remove_files_removal w depsFile c files ds fs :
  forall h,
    (forall f, f ∈ fs -> f ∈ files) ->
    each (removal w depsFile c files ds) h ->
    each (removal w depsFile c files ds) (remove_files w depsFile c fs h).
Proof.
  induction fs as [|f fs IH]; intros h Hin Hh; cbn [remove_files].
  - exact Hh.
  - assert (Hfs : forall f', f' ∈ fs -> f' ∈ files).
    { intros f' Hf'. apply Hin. right. exact Hf'. }
    destruct (String.eqb f depsFile) eqn:He.
    + apply IH; assumption.
    + apply IH; [exact Hfs|]. apply each_snoc; [exact Hh|].
      exists f. repeat split; [apply Hin; left|].
      apply String.eqb_neq. exact He.
Qed.

Lemma remove_dir_removal w depsFile c files ds d h :
  d ∈ ds ->
  each (removal w depsFile c files ds) h ->
  each (removal w depsFile c files ds) (remove_dir w c d h).
Proof.
  intros Hd Hh. unfold remove_dir.
  set (path := Join w [ExecRoot c; WorkingDir c; d]).
  assert (Hs : each (removal w depsFile c files ds) (h ++ [Stat path])).
  { apply each_snoc; [exact Hh|]. exists d. split; [exact Hd | reflexivity]. }
  destruct (os_Stat w h path) as [mode|err] eqn:Hst; [|exact Hs].
  assert (Hr : each (removal w depsFile c files ds)
                 ((h ++ [Stat path]) ++ [RemoveAll path])).
  { apply each_snoc; [exact Hs|]. exists h, mode. split; [reflexivity|].
    exact Hst. }
  destruct (os_RemoveAll w (h ++ [Stat path]) path) as [err|] eqn:Hrm;
    [exact Hr|].
  rewrite app_assoc. apply each_snoc; [exact Hr|].
  exists h. rewrite <- app_assoc. repeat split; assumption.
Qed.

Lemma remove_dirs_removal w depsFile c files ds l :
  forall h,
    (forall d, d ∈ l -> d ∈ ds) ->
    each (removal w depsFile c files ds) h ->
    each (removal w depsFile c files ds)
      (fold_left (fun h f => remove_dir w c f h) l h).
Proof.
  induction l as [|d l IH]; intros h Hin Hh; cbn [fold_left].
  - exact Hh.
  - apply IH.
    + intros d' Hd'. apply Hin. right. exact Hd'.
    + apply remove_dir_removal; [apply Hin; left | exact Hh].
Qed.

Lemma removeAllOutputs_removal w depsFile c :
  each (removal w depsFile c (OutputFiles c) (OutputDirs c))
    (removeAllOutputs w depsFile c).
Proof.
  unfold removeAllOutputs.
  apply remove_dirs_removal; [intros d Hd; exact Hd|].
  apply remove_files_removal; [intros f Hf; exact Hf | apply each_nil].
Qed.

(** X20.  Every call that [removeAllOutputs] makes is about an output of
    the command under the exec root.  It removes output files, never the
    deps file; it asks [os.Stat] for output directories only; it removes a
    directory only right after [os.Stat] has found it; and it makes a
    directory only right after it has removed it without error, with the
    mode that [os.Stat] gave.  It makes no other call. *)
Theorem removeAllOutputs_calls :
  forall w depsFile c pre x post,
    removeAllOutputs w depsFile c = (pre ++ x :: post)%list ->
    match x with
    | Remove path =>
        exists f,
          f ∈ OutputFiles c /\ f <> depsFile
          /\ path = Join w [ExecRoot c; WorkingDir c; f]
    | Stat path =>
        exists d,
          d ∈ OutputDirs c /\ path = Join w [ExecRoot c; WorkingDir c; d]
    | RemoveAll path =>
        exists pre' mode,
          pre = (pre' ++ [Stat path])%list /\ os_Stat w pre' path = inl mode
    | MkdirAll path mode =>
        exists pre',
          pre = (pre' ++ [Stat path; RemoveAll path])%list
          /\ os_Stat w pre' path = inl mode
          /\ os_RemoveAll w (pre' ++ [Stat path]) path = None
    | _ => False
    end.
Proof.
  intros w depsFile c pre x post Ht.
  exact (removeAllOutputs_removal w depsFile c pre x post Ht).
Qed.

Lemma removeAllOutputs_calls_sample :
  removeAllOutputs sample_world "obj/a.d" sample_cmd
  = (firstn 4 sample_removals ++ MkdirAll "/exec/wd/gen" 493 :: [])%list
  /\ exists pre',
       firstn 4 sample_removals
       = (pre' ++ [Stat "/exec/wd/gen"; RemoveAll "/exec/wd/gen"])%list
       /\ os_Stat sample_world pre' "/exec/wd/gen" = inl 493
       /\ os_RemoveAll sample_world (pre' ++ [Stat "/exec/wd/gen"])
            "/exec/wd/gen" = None.
Proof.
  assert (E : removeAllOutputs sample_world "obj/a.d" sample_cmd
              = (firstn 4 sample_removals
                 ++ MkdirAll "/exec/wd/gen" 493 :: [])%list)
    by (vm_compute; reflexivity).
  split; [exact E|].
  exact (removeAllOutputs_calls sample_world "obj/a.d" sample_cmd _ _ _ E).
Defined.

Lemma remove_files_extends w depsFile c fs :
  forall h, exists t, remove_files w depsFile c fs h = (h ++ t)%list.
Proof.
  induction fs as [|f fs IH]; intros h; cbn [remove_files].
  - exists []. rewrite app_nil_r. reflexivity.
  - destruct (String.eqb f depsFile); [apply IH|].
    destruct (IH (h ++ [Remove (Join w [ExecRoot c; WorkingDir c; f])])%list)
      as [t ->].
    rewrite <- app_assoc. eexists. reflexivity.
Qed.

Lemma remove_files_all w depsFile c fs :
  forall h f,
    f ∈ fs -> f <> depsFile ->
    Remove (Join w [ExecRoot c; WorkingDir c; f])
      ∈ remove_files w depsFile c fs h.
Proof.
  induction fs as [|f0 fs IH]; intros h f Hin Hne; [inversion Hin|].
  cbn [remove_files]. apply elem_of_cons in Hin as [->|Hin].
  - apply String.eqb_neq in Hne. rewrite Hne.
    destruct (remove_files_extends w depsFile c fs
                (h ++ [Remove (Join w [ExecRoot c; WorkingDir c; f0])])%list)
      as [t ->].
    rewrite !elem_of_app, list_elem_of_singleton. left. right. reflexivity.
  - destruct (String.eqb f0 depsFile); apply IH; assumption.
Qed.

(** The output directory [d] has been dealt with by the calls [h]. *)
Definition dir_removed (w : World) (c : Cmd) (d : string) (h : list call)
  : Prop :=
  let path := Join w [ExecRoot c; WorkingDir c; d] in
  exists pre post,
    h = (pre ++ Stat path :: post)%list
    /\ forall mode,
         os_Stat w pre path = inl mode ->
         exists post',
           post = RemoveAll path :: post'
           /\ (os_RemoveAll w (pre ++ [Stat path]) path = None ->
               exists post'', post' = MkdirAll path mode :: post'').

Lemma dir_removed_app w c d h t :
  dir_removed w c d h -> dir_removed w c d (h ++ t).
Proof.
  intros (pre & post & -> & H). exists pre, (post ++ t)%list. split.
  - rewrite <- app_assoc. reflexivity.
  - intros mode Hm. destruct (H mode Hm) as (post' & -> & H').
    exists (post' ++ t)%list. split; [reflexivity|].
    intros Hr. destruct (H' Hr) as [post'' ->]. eexists. reflexivity.
Qed.

Lemma remove_dir_removed w c d h :
  (exists t, remove_dir w c d h = (h ++ t)%list)
  /\ dir_removed w c d (remove_dir w c d h).
Proof.
  unfold remove_dir, dir_removed.
  set (path := Join w [ExecRoot c; WorkingDir c; d]).
  destruct (os_Stat w h path) as [mode|err] eqn:Hst.
  - destruct (os_RemoveAll w (h ++ [Stat path]) path) as [err|] eqn:Hrm.
    + split; [rewrite <- app_assoc; eexists; reflexivity|].
      exists h, [RemoveAll path]. split.
      * rewrite <- app_assoc. reflexivity.
      * intros mode' Hm. eexists. split; [reflexivity|]. congruence.
    + split; [rewrite <- app_assoc; eexists; reflexivity|].
      exists h, [RemoveAll path; MkdirAll path mode]. split.
      * rewrite <- app_assoc. reflexivity.
      * intros mode' Hm. eexists. split; [reflexivity|]. intros _.
        exists []. congruence.
  - split; [eexists; reflexivity|].
    exists h, []. split; [reflexivity|]. intros mode Hm. congruence.
Qed.

Lemma remove_dirs_removed w c l :
  forall h,
    (exists t, fold_left (fun h f => remove_dir w c f h) l h = (h ++ t)%list)
    /\ forall d,
         d ∈ l ->
         dir_removed w c d (fold_left (fun h f => remove_dir w c f h) l h).
Proof.
  induction l as [|d0 l IH]; intros h; cbn [fold_left].
  - split; [exists []; rewrite app_nil_r; reflexivity|].
    intros d Hd. inversion Hd.
  - destruct (remove_dir_removed w c d0 h) as [[t1 E1] Hd0].
    destruct (IH (remove_dir w c d0 h)) as [[t2 E2] Hl]. split.
    + rewrite E2, E1, <- app_assoc. eexists. reflexivity.
    + intros d Hin. apply elem_of_cons in Hin as [->|Hin].
      * rewrite E2. apply dir_removed_app, Hd0.
      * apply Hl, Hin.
Qed.

(** X21.  [removeAllOutputs] goes through all the outputs whatever fails
    on the way.  Every output file other than the deps file is removed.
    For every output directory [os.Stat] is called; when it finds the
    directory, [os.RemoveAll] is the next call, and when that succeeds
    [os.MkdirAll] with the mode found is the call after it. *)
Theorem removeAllOutputs_goes_through_all_outputs :
  forall w depsFile c,
    (forall f,
        f ∈ OutputFiles c -> f <> depsFile ->
        Remove (Join w [ExecRoot c; WorkingDir c; f])
          ∈ removeAllOutputs w depsFile c)
    /\ (forall d,
           d ∈ OutputDirs c ->
           let path := Join w [ExecRoot c; WorkingDir c; d] in
           exists pre post,
             removeAllOutputs w depsFile c = (pre ++ Stat path :: post)%list
             /\ forall mode,
                  os_Stat w pre path = inl mode ->
                  exists post',
                    post = RemoveAll path :: post'
                    /\ (os_RemoveAll w (pre ++ [Stat path]) path = None ->
                        exists post'',
                          post' = MkdirAll path mode :: post'')).
Proof.
  intros w depsFile c. unfold removeAllOutputs. split.
  - intros f Hin Hne.
    destruct (remove_dirs_removed w c (OutputDirs c)
                (remove_files w depsFile c (OutputFiles c) []))
      as [[t ->] _].
    apply elem_of_app. left. apply remove_files_all; assumption.
  - intros d Hin.
    exact (proj2 (remove_dirs_removed w c (OutputDirs c) _) d Hin).
Qed.

Lemma remove_files_deps_file w depsFile c c' fs :
  ExecRoot c' = ExecRoot c -> WorkingDir c' = WorkingDir c ->
  forall h,
    remove_files w depsFile c' (fs ++ [depsFile]) h
    = remove_files w depsFile c fs h.
Proof.
  intros He Hw. induction fs as [|f fs IH]; intros h; cbn [remove_files app].
  - rewrite String.eqb_refl. reflexivity.
  - rewrite He, Hw. destruct (String.eqb f depsFile); apply IH.
Qed.

(** X22.  The deps file that [addDepsFileOutput] adds to the output files
    of the command is not removed by [removeAllOutputs]: after
    [addDepsFileOutput] it makes the same calls as before. *)
Theorem removeAllOutputs_after_addDepsFileOutput :
  forall w depsFile c,
    removeAllOutputs w depsFile (addDepsFileOutput depsFile c)
    = removeAllOutputs w depsFile c
    /\ (depsFile <> "" ->
        OutputFiles (addDepsFileOutput depsFile c)
        = (OutputFiles c ++ [depsFile])%list)
    /\ forall pre post,
         removeAllOutputs w depsFile (addDepsFileOutput depsFile c)
         = (pre
            ++ Remove (Join w [ExecRoot c; WorkingDir c; depsFile])
            :: post)%list ->
         exists f,
           f ∈ OutputFiles c /\ f <> depsFile
           /\ Join w [ExecRoot c; WorkingDir c; depsFile]
              = Join w [ExecRoot c; WorkingDir c; f].
Proof.
  intros w depsFile c.
  assert (E : removeAllOutputs w depsFile (addDepsFileOutput depsFile c)
              = removeAllOutputs w depsFile c).
  { unfold addDepsFileOutput.
    destruct (String.eqb depsFile "") eqn:Hd; cbn [negb]; [reflexivity|].
    unfold removeAllOutputs. cbn [OutputFiles OutputDirs].
    rewrite (remove_files_deps_file w depsFile c) by reflexivity.
    reflexivity. }
  split; [exact E|]. split.
  - intros Hne. unfold addDepsFileOutput. apply String.eqb_neq in Hne.
    rewrite Hne. reflexivity.
  - intros pre post. rewrite E. intros Ht.
    exact (removeAllOutputs_removal w depsFile c pre _ post Ht).
Qed.


Lemma remove_names_stops w dir names :
  forall h,
    went_well w h ->
    match remove_names w dir names h with
    | (h', None) =>
        went_well w h'
        /\ h' = (h ++ map (fun name => RemoveAll (Join w [dir; name])) names)%list
    | (h', Some err) =>
        exists pre x,
          h' = (pre ++ [x])%list /\ went_well w pre
          /\ failure w pre x = Some err
    end.
Proof.
  induction names as [|name names IH]; intros h Hh;
    cbn [remove_names map].
  - split; [exact Hh | rewrite app_nil_r; reflexivity].
  - destruct (os_RemoveAll w h (Join w [dir; name])) as [err|] eqn:Hr.
    + exists h, (RemoveAll (Join w [dir; name])).
      repeat split; assumption.
    + pose proof (IH (h ++ [RemoveAll (Join w [dir; name])])%list
                    (went_well_snoc w h (RemoveAll (Join w [dir; name]))
                       Hh Hr)) as H.
      destruct (remove_names w dir names _) as [h' [err|]]; [exact H|].
      destruct H as [H ->]. split; [exact H|].
      rewrite <- app_assoc. reflexivity.
Qed.

(** X23.  [removeContents] removes the directory itself only after it has
    removed every entry in it, and returns the first error it meets as it
    is.  When it returns no error it has opened the directory, read the
    names in it, removed each of them in turn and then the directory, and
    every call succeeded.  When it returns an error, the last call it
    made is the one that failed with that error, and every call before it
    succeeded. *)
Theorem removeContents_stops_at_first_failure :
  forall w dir,
    match removeContents w dir with
    | (t, None) =>
        exists names,
          d_Readdirnames w [Open dir] dir = inl names
          /\ t = (Open dir :: Readdirnames dir
                  :: map (fun name => RemoveAll (Join w [dir; name])) names
                  ++ [RemoveAll dir])%list
          /\ forall pre x post,
               t = (pre ++ x :: post)%list -> failure w pre x = None
    | (t, Some err) =>
        exists pre x,
          t = (pre ++ [x])%list
          /\ failure w pre x = Some err
          /\ forall pre' y post,
               pre = (pre' ++ y :: post)%list -> failure w pre' y = None
    end.
Proof.
  intros w dir. unfold removeContents.
  destruct (os_Open w [] dir) as [err|] eqn:Ho.
  - exists [], (Open dir). repeat split; [exact Ho | apply each_nil].
  - assert (H1 : went_well w [Open dir]).
    { apply (went_well_snoc w [] (Open dir)); [apply each_nil | exact Ho]. }
    destruct (d_Readdirnames w [Open dir] dir) as [names|err] eqn:Hn.
    + assert (H2 : went_well w ([Open dir] ++ [Readdirnames dir])).
      { apply went_well_snoc; [exact H1|]. cbn [failure]. rewrite Hn.
        reflexivity. }
      pose proof (remove_names_stops w dir names _ H2) as H.
      destruct (remove_names w dir names _) as [h [err|]].
      * destruct H as (pre & x & -> & Hp & Hx). exists pre, x.
        repeat split; assumption.
      * destruct H as [Hh ->].
        destruct (os_RemoveAll w _ dir) as [err|] eqn:Hr.
        -- eexists _, (RemoveAll dir). repeat split; [exact Hr | exact Hh].
        -- exists names. split; [reflexivity|]. split.
           ++ rewrite <- app_assoc. reflexivity.
           ++ exact (went_well_snoc w _ (RemoveAll dir) Hh Hr).
    + exists [Open dir], (Readdirnames dir). repeat split; [|exact H1].
      cbn [failure]. rewrite Hn. reflexivity.
Qed.

End Outputs.

(** ** Files that are both inputs and outputs *)

Module InOut.

Import Command.

(** The fields of [action] that [inOutFiles] reads and writes: [Inputs] is
    [a.cmd.InputSpec.Inputs], and a nil [rawInOutFiles] is [None]. *)
Record action := {
  cmd : Action.Cmd;
  Inputs : list string;
  rawInOutFiles : option (list string)
}.

Section InOutFiles.

(** [pathtranslator.ListRelToExecRoot] and [filepath.Join]. *)
Variable ListRelToExecRoot : string -> string -> list string -> list string.
Variable Join : list string -> string.

(** The first loop of [inOutFiles]: the map [inps]. *)
Definition inps_of (inputs : list string) : gmap string bool :=
  fold_left (fun inps inp => <[inp := true]> inps) inputs ∅.

(** [inps[f]], which is [false] for a key that is not in the map. *)
Definition index (inps : gmap string bool) (f : string) : bool :=
  match inps !! f with
  | Some b => b
  | None => false
  end.

(** [inOutFiles]: the action afterwards and the list returned. *)
Definition inOutFiles (a : action) : action * list string :=
  match rawInOutFiles a with
  | Some files => (a, files)
  | None =>
      let inps := inps_of (Inputs a) in
      let files :=
        fold_left
          (fun raw f =>
             if index inps f
             then (raw ++ [Join [Action.ExecRoot (cmd a); f]])%list
             else raw)
          (ListRelToExecRoot (Action.ExecRoot (cmd a))
             (Action.WorkingDir (cmd a)) (Action.OutputFiles (cmd a)))
          [] in
      ({| cmd := cmd a; Inputs := Inputs a; rawInOutFiles := Some files |},
       files)
  end.

Lemma inps_of_fold inputs :
  forall inps f,
    index (fold_left (fun inps inp => <[inp := true]> inps) inputs inps) f
    = index inps f || bool_decide (f ∈ inputs).
Proof.
  induction inputs as [|inp inputs IH]; intros inps f; cbn [fold_left].
  - rewrite bool_decide_eq_false_2 by (intros H; inversion H).
    rewrite orb_false_r. reflexivity.
  - rewrite IH. unfold index at 1. destruct (decide (f = inp)) as [->|Hne].
    + rewrite lookup_insert_eq.
      rewrite (bool_decide_eq_true_2 (inp ∈ inp :: inputs)) by left.
      rewrite orb_true_r. reflexivity.
    + rewrite lookup_insert_ne by congruence. fold (index inps f).
      f_equal. apply bool_decide_ext. rewrite elem_of_cons. tauto.
Qed.

Lemma index_inps_of inputs f :
  index (inps_of inputs) f = bool_decide (f ∈ inputs).
Proof.
  unfold inps_of. rewrite inps_of_fold. unfold index.
  rewrite lookup_empty. reflexivity.
Qed.

Lemma raw_fold (keep : string -> bool) (g : string -> string) l :
  forall raw,
    fold_left (fun raw f => if keep f then (raw ++ [g f])%list else raw) l raw
    = (raw ++ map g (List.filter keep l))%list.
Proof.
  induction l as [|f l IH]; intros raw; cbn [fold_left List.filter map].
  - rewrite app_nil_r. reflexivity.
  - rewrite IH. destruct (keep f); cbn [map]; [|reflexivity].
    rewrite <- app_assoc. reflexivity.
Qed.

Lemma inOutFiles_first a :
  rawInOutFiles a = None ->
  snd (inOutFiles a)
  = map (fun f => Join [Action.ExecRoot (cmd a); f])
      (List.filter (fun f => bool_decide (f ∈ Inputs a))
         (ListRelToExecRoot (Action.ExecRoot (cmd a))
            (Action.WorkingDir (cmd a)) (Action.OutputFiles (cmd a))))
  /\ rawInOutFiles (fst (inOutFiles a)) = Some (snd (inOutFiles a))
  /\ cmd (fst (inOutFiles a)) = cmd a
  /\ Inputs (fst (inOutFiles a)) = Inputs a.
Proof.
  intros Hn. unfold inOutFiles. rewrite Hn. cbn [fst snd rawInOutFiles cmd Inputs].
  repeat split.
  rewrite (raw_fold (index (inps_of (Inputs a)))
             (fun f => Join [Action.ExecRoot (cmd a); f])).
  cbn [app]. f_equal. apply List.filter_ext. intros f. apply index_inps_of.
Qed.

(** X24.  [inOutFiles] computes its list once.  On an action whose list
    is nil it returns, in the order of [ListRelToExecRoot] and with
    repetitions kept, the paths under the exec root of the output files
    that are among the inputs, and stores the list, empty or not.  Every
    later call returns the stored list and changes nothing, whatever the
    command and the inputs of the action have become. *)
Theorem inOutFiles_computes_once :
  forall a c' inputs',
    rawInOutFiles a = None ->
    let files :=
      map (fun f => Join [Action.ExecRoot (cmd a); f])
        (List.filter (fun f => bool_decide (f ∈ Inputs a))
           (ListRelToExecRoot (Action.ExecRoot (cmd a))
              (Action.WorkingDir (cmd a)) (Action.OutputFiles (cmd a)))) in
    inOutFiles a
    = ({| cmd := cmd a; Inputs := Inputs a; rawInOutFiles := Some files |},
       files)
    /\ inOutFiles
         {| cmd := c'; Inputs := inputs'; rawInOutFiles := Some files |}
       = ({| cmd := c'; Inputs := inputs'; rawInOutFiles := Some files |},
          files)
    /\ (forall path,
           path ∈ files <->
           exists f,
             f ∈ ListRelToExecRoot (Action.ExecRoot (cmd a))
                   (Action.WorkingDir (cmd a)) (Action.OutputFiles (cmd a))
             /\ f ∈ Inputs a
             /\ path = Join [Action.ExecRoot (cmd a); f]).
Proof.
  intros a c' inputs' Hn files.
  destruct (inOutFiles_first a Hn) as (Hs & _).
  split; [|split].
  - unfold inOutFiles in *. rewrite Hn in *. cbn [snd] in Hs.
    rewrite Hs. reflexivity.
  - reflexivity.
  - intros path. unfold files. rewrite list_elem_of_fmap. split.
    + intros (f & -> & Hf). apply list_elem_of_In, List.filter_In in Hf.
      destruct Hf as [Hf Hb]. apply bool_decide_eq_true_1 in Hb.
      exists f. repeat split; [apply list_elem_of_In|]; assumption.
    + intros (f & Hf & Hi & ->). exists f. split; [reflexivity|].
      apply list_elem_of_In, List.filter_In. split.
      * apply list_elem_of_In. exact Hf.
      * apply bool_decide_eq_true_2. exact Hi.
Qed.

End InOutFiles.

(** A sample: [ListRelToExecRoot] puts the working directory before a
    path that is relative to it.  The generated header is an output of
    the action and one of its inputs. *)
Definition sample_ListRelToExecRoot (execRoot workingDir : string)
  (paths : list string) : list string :=
  map (fun p => workingDir ++ "/" ++ p) paths.

Definition header_action : action :=
  {| cmd := {| Action.ExecutionID := "a1b2"; Action.ExecRoot := "/src";
               Action.WorkingDir := "out";
               Action.OutputFiles := ["obj/a.o"; "gen/a.pb.h"];
               Action.OutputDirs := [] |};
     Inputs := ["a.cc"; "out/gen/a.pb.h"];
     rawInOutFiles := None |}.

Lemma inOutFiles_computes_once_sample :
  inOutFiles sample_ListRelToExecRoot (String.concat "/") header_action
  = ({| cmd := cmd header_action; Inputs := Inputs header_action;
        rawInOutFiles := Some ["/src/out/gen/a.pb.h"] |},
     ["/src/out/gen/a.pb.h"])
  /\ inOutFiles sample_ListRelToExecRoot (String.concat "/")
       {| cmd := cmd header_action; Inputs := [];
          rawInOutFiles := Some ["/src/out/gen/a.pb.h"] |}
     = ({| cmd := cmd header_action; Inputs := [];
           rawInOutFiles := Some ["/src/out/gen/a.pb.h"] |},
        ["/src/out/gen/a.pb.h"]).
Proof.
  pose proof (inOutFiles_computes_once sample_ListRelToExecRoot
                (String.concat "/") header_action (cmd header_action) []
                eq_refl) as H.
  cbv zeta in H. destruct H as (H1 & H2 & _). split.
  - exact H1.
  - exact H2.
Defined.

End InOut.

(** ** Updating the remote cache after a local run *)

Module CacheLocal.

Import Command Action.

(** [generateDepsFile]: [WriteDepsFile] is what
    [a.parser.WriteDepsFile(a.dFile, a.rec)] makes of the log record and
    the error it returns. *)
Definition generateDepsFile
  (WriteDepsFile : string -> LogRecord -> LogRecord * option error)
  (a : action) : action * option error :=
  if negb (String.eqb (dFile a) "") then
    let '(r, err) := WriteDepsFile (dFile a) (rec a) in
    (set_rec r a, err)
  else (a, None).

Definition set_UpdatedCache (v : bool) (lm : lpb_LocalMetadata)
  : lpb_LocalMetadata :=
  {| ExecutedLocally := ExecutedLocally lm; ValidCacheHit := ValidCacheHit lm;
     UpdatedCache := v; LocalResult := LocalResult lm;
     EventTimes := EventTimes lm |}.

(** [cacheLocal]: [doNotCache] is [a.lOpt.GetDoNotCache()] and
    [UpdateCachedResult] is the method of the execution context.
    Clearing the entries of the outputs in the file metadata cache leaves
    the action as it is.  [None] is a run-time panic: of [a.res.IsOk()]
    on a nil result, of [a.execContext.Result.Err] on a nil result, and of
    [a.rec.LocalMetadata] being nil where [UpdatedCache] is assigned. *)
Definition cacheLocal (doNotCache : bool)
  (WriteDepsFile : string -> LogRecord -> LogRecord * option error)
  (UpdateCachedResult : ExecContext -> ExecContext) (a : action)
  : option action :=
  match execContext a with
  | None => Some a
  | Some ec =>
      match res a with
      | None => None
      | Some r =>
          if negb (IsOk r) || doNotCache then Some a
          else
            let '(a, err) := generateDepsFile WriteDepsFile a in
            match err with
            | Some _ => Some a
            | None =>
                let ec := UpdateCachedResult ec in
                let a := set_execContext (Some ec) a in
                match ecResult ec with
                | None => None
                | Some updated =>
                    if not_nil (Err updated) then Some a
                    else
                      let rm := RemoteMetadata (rec a) in
                      let new :=
                        CommandRemoteMetadataToProto (ecMetadata ec) in
                      let new :=
                        match rm with
                        | Some rm =>
                            {| rm_Metadata := rm_Metadata new;
                               RemoteResult := RemoteResult rm;
                               CacheHit := CacheHit rm |}
                        | None => new
                        end in
                      match LocalMetadata (rec a) with
                      | None => None
                      | Some lm =>
                          Some (set_rec
                                  {| LocalMetadata :=
                                       Some (set_UpdatedCache true lm);
                                     RemoteMetadata := Some new |} a)
                      end
                end
            end
      end
  end.

(** A sample: a successful local run of an action that has an execution
    context and the dependency file [a.d]; the log record holds the
    result of a remote attempt.  Writing the deps file records an event
    time, and the update of the cache succeeds. *)
Definition ran_locally : action :=
  {| cmd := cmd Race.sample_action;
     rOpt := rOpt Race.sample_action;
     racingBias := racingBias Race.sample_action;
     oe := None;
     rec := {| LocalMetadata := Some empty_LocalMetadata;
               RemoteMetadata :=
                 Some {| rm_Metadata := ecMetadata Race.fresh_context;
                         RemoteResult := Some Race.remote_error;
                         CacheHit := false |} |};
     execContext := Some Race.fresh_context;
     dFile := "a.d";
     res := Some (NewResultFromExitCode 0) |}.

Definition writes_deps (dFile : string) (r : LogRecord)
  : LogRecord * option error :=
  (RecordEventTime "ProxyDepsFileWrite" 10 12 r, None).

Definition updates_cache (ec : ExecContext) : ExecContext :=
  {| ecResult := Some (NewResultFromExitCode 0);
     ecMetadata := {| ActionDigest := ActionDigest (ecMetadata ec);
                      md_EventTimes := {[ "UpdateCachedResult" := (12, 15) ]} |} |}.

(** The conditions under which [cacheLocal] updates the remote cache
    without error. *)
Definition cache_updated (doNotCache : bool)
  (WriteDepsFile : string -> LogRecord -> LogRecord * option error)
  (UpdateCachedResult : ExecContext -> ExecContext) (a : action) : Prop :=
  exists ec r updated,
    execContext a = Some ec /\ res a = Some r /\ IsOk r = true
    /\ doNotCache = false
    /\ (dFile a = "" \/ snd (WriteDepsFile (dFile a) (rec a)) = None)
    /\ ecResult (UpdateCachedResult ec) = Some updated
    /\ Err updated = None.

(** The log record after [generateDepsFile]. *)
Definition rec_written
  (WriteDepsFile : string -> LogRecord -> LogRecord * option error)
  (a : action) : LogRecord :=
  if String.eqb (dFile a) "" then rec a
  else fst (WriteDepsFile (dFile a) (rec a)).

Lemma generateDepsFile_spec WriteDepsFile a :
  (snd (generateDepsFile WriteDepsFile a) = None <->
   dFile a = "" \/ snd (WriteDepsFile (dFile a) (rec a)) = None)
  /\ fst (generateDepsFile WriteDepsFile a)
     = set_rec (rec_written WriteDepsFile a) a.
Proof.
  unfold generateDepsFile, rec_written.
  destruct (String.eqb (dFile a) "") eqn:He; cbn [negb].
  - apply String.eqb_eq in He. split; [cbn [snd]; tauto|].
    destruct a; reflexivity.
  - apply String.eqb_neq in He.
    destruct (WriteDepsFile (dFile a) (rec a)) as [r err]. cbn [fst snd].
    split; [tauto | reflexivity].
Qed.

Lemma cacheLocal_cases doNotCache WriteDepsFile UpdateCachedResult a a' :
  cacheLocal doNotCache WriteDepsFile UpdateCachedResult a = Some a' ->
  (~ cache_updated doNotCache WriteDepsFile UpdateCachedResult a
   /\ res a' = res a
   /\ (rec a' = rec a \/ rec a' = rec_written WriteDepsFile a))
  \/ (cache_updated doNotCache WriteDepsFile UpdateCachedResult a
      /\ exists ec lm,
           execContext a = Some ec
           /\ LocalMetadata (rec_written WriteDepsFile a) = Some lm
           /\ a' = set_rec
                     {| LocalMetadata := Some (set_UpdatedCache true lm);
                        RemoteMetadata :=
                          Some {| rm_Metadata :=
                                    ecMetadata (UpdateCachedResult ec);
                                  RemoteResult :=
                                    match RemoteMetadata
                                            (rec_written WriteDepsFile a) with
                                    | Some rm => RemoteResult rm
                                    | None => None
                                    end;
                                  CacheHit :=
                                    match RemoteMetadata
                                            (rec_written WriteDepsFile a) with
                                    | Some rm => CacheHit rm
                                    | None => false
                                    end |} |}
                     (set_execContext (Some (UpdateCachedResult ec)) a)).
Proof.
  unfold cacheLocal.
  destruct (execContext a) as [ec|] eqn:Hec.
  2:{ intros [= <-]. left. split; [|split; [reflexivity | left; reflexivity]].
      intros (ec & r & u & H & _). congruence. }
  destruct (res a) as [r|] eqn:Hres; [|discriminate].
  destruct (IsOk r) eqn:Hok; cbn [negb orb].
  2:{ intros [= <-]. left. split; [|split; [congruence | left; reflexivity]].
      intros (ec0 & r0 & u & _ & H & H' & _). congruence. }
  destruct doNotCache eqn:Hdn.
  { intros [= <-]. left. split; [|split; [congruence | left; reflexivity]].
    intros (ec0 & r0 & u & _ & _ & _ & H & _). congruence. }
  destruct (generateDepsFile_spec WriteDepsFile a) as [Hg Ha1].
  destruct (generateDepsFile WriteDepsFile a) as [a1 err].
  cbn [fst snd] in Hg, Ha1. subst a1.
  destruct err as [err|].
  { intros [= <-]. left. split; [|split; [cbn; congruence | right; reflexivity]].
    intros (ec0 & r0 & u & _ & _ & _ & _ & H & _).
    apply Hg in H. discriminate H. }
  assert (Hw : dFile a = "" \/ snd (WriteDepsFile (dFile a) (rec a)) = None)
    by (apply Hg; reflexivity).
  destruct (ecResult (UpdateCachedResult ec)) as [u|] eqn:Hu; [|discriminate].
  destruct (Err u) as [err|] eqn:He; cbn [not_nil].
  { intros [= <-]. left. split; [|split; [cbn; congruence | right; reflexivity]].
    intros (ec0 & r0 & u0 & H1 & _ & _ & _ & _ & H2 & H3).
    assert (ec0 = ec) by congruence. subst ec0. congruence. }
  cbn [rec set_execContext set_rec].
  destruct (LocalMetadata (rec_written WriteDepsFile a)) as [lm|] eqn:Hlm;
    [|discriminate].
  intros [= <-]. right. split.
  - exists ec, r, u. repeat split; assumption.
  - exists ec, lm. split; [reflexivity|]. split; [reflexivity|].
    destruct (RemoteMetadata (rec_written WriteDepsFile a)); reflexivity.
Qed.

(** X25.  [cacheLocal] records an update of the remote cache when it has
    made one without error, and only then touches the log record itself.
    The update is made when there is an execution context, the result of
    the action is OK, caching is not disabled, and the deps file was
    written or none is wanted; it is made without error when
    [UpdateCachedResult] leaves a result without error.  Then, in the log
    record as writing the deps file left it, [UpdatedCache] is set and
    the remote metadata is replaced by the metadata of the execution
    context, keeping the result and the cache-hit flag that the record
    had.  Otherwise the log record is as it was, or as writing the deps
    file left it.  The result of the action is never changed. *)
Theorem cacheLocal_records_update :
  forall doNotCache WriteDepsFile UpdateCachedResult a a',
    cacheLocal doNotCache WriteDepsFile UpdateCachedResult a = Some a' ->
    let updated :=
      exists ec r u,
        execContext a = Some ec /\ res a = Some r /\ IsOk r = true
        /\ doNotCache = false
        /\ (dFile a = "" \/ snd (WriteDepsFile (dFile a) (rec a)) = None)
        /\ ecResult (UpdateCachedResult ec) = Some u
        /\ Err u = None in
    let written :=
      if String.eqb (dFile a) "" then rec a
      else fst (WriteDepsFile (dFile a) (rec a)) in
    res a' = res a
    /\ (~ updated -> rec a' = rec a \/ rec a' = written)
    /\ (updated ->
        exists ec lm rm',
          execContext a = Some ec
          /\ execContext a' = Some (UpdateCachedResult ec)
          /\ LocalMetadata written = Some lm
          /\ LocalMetadata (rec a')
             = Some {| ExecutedLocally := ExecutedLocally lm;
                       ValidCacheHit := ValidCacheHit lm;
                       UpdatedCache := true;
                       LocalResult := LocalResult lm;
                       EventTimes := EventTimes lm |}
          /\ RemoteMetadata (rec a') = Some rm'
          /\ rm_Metadata rm' = ecMetadata (UpdateCachedResult ec)
          /\ match RemoteMetadata written with
             | Some rm =>
                 RemoteResult rm' = RemoteResult rm
                 /\ CacheHit rm' = CacheHit rm
             | None => RemoteResult rm' = None /\ CacheHit rm' = false
             end).
Proof.
  intros doNotCache WriteDepsFile UpdateCachedResult a a' Hc updated written.
  fold (cache_updated doNotCache WriteDepsFile UpdateCachedResult a) in updated.
  fold (rec_written WriteDepsFile a) in written.
  destruct (cacheLocal_cases _ _ _ _ _ Hc)
    as [(Hn & Hres & Hrec) | (Hy & ec & lm & Hec & Hlm & ->)].
  - split; [exact Hres|]. split.
    + intros _. exact Hrec.
    + intros H. destruct (Hn H).
  - split; [reflexivity|]. split.
    + intros H. destruct (H Hy).
    + intros _. exists ec, lm. eexists. split; [exact Hec|].
      split; [reflexivity|]. split; [exact Hlm|].
      split; [reflexivity|]. split; [reflexivity|]. split; [reflexivity|].
      unfold written.
      destruct (RemoteMetadata (rec_written WriteDepsFile a)); split;
        reflexivity.
Qed.

Lemma cacheLocal_records_update_sample :
  exists a',
    cacheLocal false writes_deps updates_cache ran_locally = Some a'
    /\ res a' = res ran_locally
    /\ exists lm rm',
         LocalMetadata (rec a') = Some lm /\ UpdatedCache lm = true
         /\ RemoteMetadata (rec a') = Some rm'
         /\ rm_Metadata rm' = ecMetadata (updates_cache Race.fresh_context)
         /\ RemoteResult rm' = Some Race.remote_error.
Proof.
  destruct (cacheLocal false writes_deps updates_cache ran_locally)
    as [a'|] eqn:E; [|vm_compute in E; discriminate E].
  exists a'. split; [reflexivity|].
  destruct (cacheLocal_records_update false writes_deps updates_cache
              ran_locally a' E) as (Hres & _ & Hu).
  split; [exact Hres|].
  destruct Hu as (ec & lm & rm' & Hec & _ & _ & Hl & Hr & Hm & Hk).
  { exists Race.fresh_context, (NewResultFromExitCode 0),
      (NewResultFromExitCode 0).
    repeat split. right. reflexivity. }
  injection Hec as <-.
  eexists _, rm'. split; [exact Hl|]. split; [reflexivity|].
  split; [exact Hr|]. split; [exact Hm|]. exact (proj1 Hk).
Defined.

End CacheLocal.
